(** * GutsMail: the e-mail import pipeline and the analysis helpers

    A shallow embedding of
    - [retryWithBackoff] and [POST] of [app/api/emails/import/route.ts]
      (the batched version),
    - [calculatePriorityScore], [detectImportantInfo], [categorizeEmail],
      [summarizeEmail], [analyzeBulkDeleteSafety] and [generateSenderSummary]
      of [lib/gemini.ts], and
    - [extractHeader], [extractEmailAddress], [extractName], [getBody],
      [fetchRecentEmailsFromClient] and [extractUnsubscribeLink] of
      [lib/gmail.ts], with the regular expressions they match against.

    Asynchronous code is written in a free monad [Prog] whose nodes are the
    awaited operations; a handler runs one operation against the [World]
    (the database tables, the run's [errors] array, the trace) and an
    environment [Env] that scripts the collaborators.  A sequential
    interpreter runs one program to completion; [Promise.all] over the items
    of a batch is an interleaving of the items' operations chosen by a
    schedule, every interleaving of their awaited operations being some
    schedule.  Console output is left out, except the line that announces a
    batch, kept as the marker [EvBatch] of the trace.

    Counters and indices are natural numbers, database integers are in [Z],
    durations are exact rationals, strings are sequences of code units
    below 256. *)

From Stdlib Require Import Ascii String QArith Lqa.
From Stdlib Require Import DecimalString DecimalNat DecimalFacts.
From stdpp Require Import gmap strings list.

Set Warnings "-register-all".
Local Open Scope string_scope.
Local Open Scope list_scope.

(** ** JavaScript values the code looks at *)

(** A thrown value.  [err_message] is [None] when the value has no
    [message] (the optional chaining [error?.message?.includes] then yields
    [undefined]). *)
Record JsError := mkJsError {
  err_name : string;
  err_message : option string;
}.

(** How an awaited promise settles. *)
Inductive Outcome (X : Type) : Type :=
| Resolved (x : X)
| Rejected (e : JsError).
Arguments Resolved {X} x.
Arguments Rejected {X} e.

(** [hay.includes(needle)] *)
Fixpoint includes (needle hay : string) : bool :=
  String.prefix needle hay ||
  match hay with
  | EmptyString => false
  | String _ rest => includes needle rest
  end.

(** [error?.message?.includes('429') || error?.message?.includes('Resource exhausted')] *)
Definition is429 (error : JsError) : bool :=
  match err_message error with
  | None => false
  | Some m => includes "429" m || includes "Resource exhausted" m
  end.

(** ** Data model *)

Record GmailMessage := {
  msg_id : string;
  msg_threadId : string;
  msg_subject : string;
  msg_from : string;
  msg_fromName : option string;
  msg_to : string;
  msg_date : Z;
  msg_snippet : string;
  msg_body : string;
  msg_htmlBody : option string;
}.

(** The [Email] argument of the analysis functions. *)
Record EmailInput := {
  in_subject : string;
  in_from : string;
  in_fromName : option string;
  in_snippet : string;
  in_body : string;
}.

Record Category := {
  cat_id : string;
  cat_name : string;
  cat_description : string;
}.

Record GmailAccount := {
  acct_id : string;
  acct_email : string;
}.

(** A Gmail API client, known by a handle. *)
Definition GmailClient := string.

Record ImportantInfo := {
  hasImportant : bool;
  flags : list string;
}.

(** What [analyzeEmailComplete] resolves to. *)
Record Analysis := {
  an_categoryId : option string;
  an_summary : string;
  an_priorityScore : Z;
  an_importantInfo : ImportantInfo;
}.

(** A row of [prisma.email].  [row_importantInfoFlags] stands for the JSON
    text of the array it holds. *)
Record EmailRow := {
  row_messageId : string;
  row_threadId : string;
  row_subject : string;
  row_from : string;
  row_fromName : option string;
  row_to : string;
  row_date : Z;
  row_snippet : string;
  row_body : string;
  row_htmlBody : option string;
  row_summary : string;
  row_unsubscribeLink : option string;
  row_categoryId : option string;
  row_gmailAccountId : option string;
  row_aiPriorityScore : Z;
  row_hasImportantInfo : bool;
  row_importantInfoFlags : option (list string);
}.

(** A row of [prisma.senderProfile], keyed by (userId, email). *)
Record SenderProfile := {
  sp_name : option string;
  sp_totalEmails : Z;
  sp_lastEmailDate : Z;
}.

(** A row of [prisma.emailInsight], keyed by (userId, date). *)
Record EmailInsight := {
  emailsProcessed : Z;
  emailsArchived : Z;
  timeSavedMins : Z;
}.

(** An element of [allGmailMessages]. *)
Record FetchedItem := {
  item_message : GmailMessage;
  item_accountId : string;
  item_gmailClient : option GmailClient;
}.

(** JSON values, as [JSON.parse] returns them; [JObject] lists the own
    properties of the object, each key once. *)
Inductive Json :=
| JNull
| JBool (b : bool)
| JNumber (q : Q)
| JString (s : string)
| JArray (xs : list Json)
| JObject (props : list (string * Json)).

(** ** Awaited operations *)

Inductive Op : Type -> Type :=
| MathRandom : Op Q
| Sleep (ms : Q) : Op unit
| AnalyzeEmailComplete (email : EmailInput) (categories : list Category) : Op Analysis
| GenerateContent (prompt : string) : Op string
| JSONParse (text : string) : Op Json
| ExtractUnsubscribeLink (body : string) (htmlBody : option string) : Op (option string)
| EmailFindUnique (messageId : string) : Op (option EmailRow)
| EmailCreate (data : EmailRow) : Op unit
| SenderProfileUpsert (userId email : string) (name : option string) (date : Z) : Op unit
| ArchiveEmailWithClient (client : GmailClient) (id : string) : Op unit
| ArchiveEmail (userId id : string) : Op unit
| ErrorsPush (line : string) : Op unit
| CategoryFindMany (userId : string) : Op (list Category)
| GmailAccountFindMany (userId : string) : Op (list GmailAccount)
| GetGmailClientFromAccount (account : GmailAccount) : Op GmailClient
| FetchRecentEmailsFromClient (client : GmailClient) (maxResults : Z) : Op (list GmailMessage)
| FetchRecentEmails (userId : string) (maxResults : Z) : Op (list GmailMessage)
| EmailInsightUpsert (userId : string) (date : Z) (imported : nat) : Op unit
| EmailFindMany (categorized : bool) : Op unit
| ConsoleLogBatch (batchNum totalBatches size : nat) : Op unit.

(** What the trace keeps of an operation. *)
Inductive Event :=
| EvRandom
| EvSleep (ms : Q)
| EvAnalyze (email : EmailInput)
| EvGenerate
| EvJSONParse
| EvExtract
| EvFindUnique (messageId : string)
| EvCreate (messageId : string)
| EvSenderUpsert (email : string)
| EvArchive (id : string)
| EvErrorsPush (line : string)
| EvCategoryFindMany
| EvAccountFindMany
| EvGetClient (accountId : string)
| EvFetch
| EvInsightUpsert (imported : nat)
| EvFindMany
| EvBatch (batchNum totalBatches size : nat).

Definition event_of {X} (op : Op X) : Event :=
  match op with
  | MathRandom => EvRandom
  | Sleep ms => EvSleep ms
  | AnalyzeEmailComplete email _ => EvAnalyze email
  | GenerateContent _ => EvGenerate
  | JSONParse _ => EvJSONParse
  | ExtractUnsubscribeLink _ _ => EvExtract
  | EmailFindUnique messageId => EvFindUnique messageId
  | EmailCreate data => EvCreate (row_messageId data)
  | SenderProfileUpsert _ email _ _ => EvSenderUpsert email
  | ArchiveEmailWithClient _ id => EvArchive id
  | ArchiveEmail _ id => EvArchive id
  | ErrorsPush line => EvErrorsPush line
  | CategoryFindMany _ => EvCategoryFindMany
  | GmailAccountFindMany _ => EvAccountFindMany
  | GetGmailClientFromAccount account => EvGetClient (acct_id account)
  | FetchRecentEmailsFromClient _ _ => EvFetch
  | FetchRecentEmails _ _ => EvFetch
  | EmailInsightUpsert _ _ imported => EvInsightUpsert imported
  | EmailFindMany _ => EvFindMany
  | ConsoleLogBatch batchNum totalBatches size => EvBatch batchNum totalBatches size
  end.

(** Who performed an operation: the request handler itself, or the async
    callback of the item at a given index of [newEmails]. *)
Inductive Origin :=
| Main
| Task (index : nat).

(** ** The free monad of asynchronous programs *)

Inductive Prog (A : Type) : Type :=
| Ret (a : A)
| Throw (e : JsError)
| Await {X : Type} (op : Op X) (k : Outcome X -> Prog A).
Arguments Ret {A} a.
Arguments Throw {A} e.
Arguments Await {A X} op k.

Fixpoint bind {A B} (p : Prog A) (f : A -> Prog B) : Prog B :=
  match p with
  | Ret a => f a
  | Throw e => Throw e
  | Await op k => Await op (fun o => bind (k o) f)
  end.

(** [try { p } catch (e) { h e }] *)
Fixpoint try_catch {A} (p : Prog A) (h : JsError -> Prog A) : Prog A :=
  match p with
  | Ret a => Ret a
  | Throw e => h e
  | Await op k => Await op (fun o => try_catch (k o) h)
  end.

(** [await op]: a rejection is thrown at the await. *)
Definition perform {X} (op : Op X) : Prog X :=
  Await op (fun o => match o with Resolved x => Ret x | Rejected e => Throw e end).

Notation "'let*' x ':=' p 'in' q" := (bind p (fun x => q))
  (at level 10, x name, p at level 100, q at level 200).

(** ** The world and the collaborators *)

Record World := mkWorld {
  w_emails : list EmailRow;                      (* prisma.email *)
  w_senders : gmap (string * string) SenderProfile;   (* prisma.senderProfile *)
  w_insights : gmap (string * Z) EmailInsight;   (* prisma.emailInsight *)
  w_errors : list string;                        (* the run's [errors] array *)
  w_log : list (Origin * Event);                 (* operations performed, oldest first *)
  w_calls : nat;                                 (* calls of the analysis service so far *)
  w_draws : nat;                                 (* Math.random() draws so far *)
  w_store : nat;                                 (* table and mailbox writes/reads so far *)
}.

(** The collaborators' behaviour in one run.  The n-th analysis call, the
    n-th random draw and the n-th table operation get what the script says;
    the read-only collaborators answer by argument. *)
Record Env := {
  env_random : nat -> Q;
  env_analyze : nat -> EmailInput -> list Category -> Outcome Analysis;
  env_generate : nat -> string -> Outcome string;
  env_JSON_parse : string -> Outcome Json;
  env_extractUnsubscribeLink : string -> option string -> option string;
  env_fault : nat -> option JsError;
  env_categories : string -> Outcome (list Category);
  env_gmailAccounts : string -> Outcome (list GmailAccount);
  env_gmailClient : GmailAccount -> Outcome GmailClient;
  env_inboxOfClient : GmailClient -> Z -> Outcome (list GmailMessage);
  env_inbox : string -> Z -> Outcome (list GmailMessage);
  env_archive : string -> Outcome unit;
}.

Definition record_event (o : Origin) (ev : Event) (w : World) : World :=
  mkWorld (w_emails w) (w_senders w) (w_insights w) (w_errors w)
          (w_log w ++ [(o, ev)]) (w_calls w) (w_draws w) (w_store w).

Definition bump_calls (w : World) : World :=
  mkWorld (w_emails w) (w_senders w) (w_insights w) (w_errors w)
          (w_log w) (S (w_calls w)) (w_draws w) (w_store w).

Definition bump_draws (w : World) : World :=
  mkWorld (w_emails w) (w_senders w) (w_insights w) (w_errors w)
          (w_log w) (w_calls w) (S (w_draws w)) (w_store w).

Definition bump_store (w : World) : World :=
  mkWorld (w_emails w) (w_senders w) (w_insights w) (w_errors w)
          (w_log w) (w_calls w) (w_draws w) (S (w_store w)).

Definition set_emails (rows : list EmailRow) (w : World) : World :=
  mkWorld rows (w_senders w) (w_insights w) (w_errors w)
          (w_log w) (w_calls w) (w_draws w) (w_store w).

Definition set_senders (m : gmap (string * string) SenderProfile) (w : World) : World :=
  mkWorld (w_emails w) m (w_insights w) (w_errors w)
          (w_log w) (w_calls w) (w_draws w) (w_store w).

Definition set_insights (m : gmap (string * Z) EmailInsight) (w : World) : World :=
  mkWorld (w_emails w) (w_senders w) m (w_errors w)
          (w_log w) (w_calls w) (w_draws w) (w_store w).

Definition set_errors (errs : list string) (w : World) : World :=
  mkWorld (w_emails w) (w_senders w) (w_insights w) errs
          (w_log w) (w_calls w) (w_draws w) (w_store w).

(** [prisma.email.findUnique({ where: { messageId } })] *)
Definition find_email (messageId : string) (rows : list EmailRow) : option EmailRow :=
  List.find (fun r => String.eqb (row_messageId r) messageId) rows.

(** The error of an insert that violates the unique index. *)
Definition unique_violation : JsError :=
  mkJsError "PrismaClientKnownRequestError"
            (Some "Unique constraint failed on the fields: (`messageId`)").

(** Modelled from the spec: the Prisma schema, which declares the unique
    index on [messageId], is not among the sources.  "At most one
    StoredMessage per distinct source identifier — enforced by a uniqueness
    constraint": [prisma.email.create] rejects when a row with the same
    [messageId] exists, and appends the row otherwise. *)
Definition create_email (data : EmailRow) (w : World) : Outcome unit * World :=
  match find_email (row_messageId data) (w_emails w) with
  | Some _ => (Rejected unique_violation, w)
  | None => (Resolved tt, set_emails (w_emails w ++ [data]) w)
  end.

(** [prisma.senderProfile.upsert]: create with [totalEmails: 1], or
    increment it and refresh the date and the name. *)
Definition upsert_sender (userId email : string) (name : option string) (date : Z)
    (w : World) : World :=
  let row :=
    match w_senders w !! (userId, email) with
    | None => {| sp_name := name; sp_totalEmails := 1; sp_lastEmailDate := date |}
    | Some old => {| sp_name := name; sp_totalEmails := (sp_totalEmails old + 1)%Z;
                     sp_lastEmailDate := date |}
    end in
  set_senders (<[(userId, email) := row]> (w_senders w)) w.

(** [prisma.emailInsight.upsert] of the import route. *)
Definition upsert_insight (userId : string) (today : Z) (imported : nat)
    (w : World) : World :=
  let n := Z.of_nat imported in
  let row :=
    match w_insights w !! (userId, today) with
    | None => {| emailsProcessed := n; emailsArchived := n; timeSavedMins := (n * 2)%Z |}
    | Some old => {| emailsProcessed := (emailsProcessed old + n)%Z;
                     emailsArchived := (emailsArchived old + n)%Z;
                     timeSavedMins := (timeSavedMins old + n * 2)%Z |}
    end in
  set_insights (<[(userId, today) := row]> (w_insights w)) w.

(** A table or mailbox operation: the fault script may make it reject, in
    which case it changes nothing. *)
Definition guarded {X} (env : Env) (w : World) (act : World -> Outcome X * World)
    : Outcome X * World :=
  match env_fault env (w_store w) with
  | Some e => (Rejected e, bump_store w)
  | None => act (bump_store w)
  end.

(** One awaited operation, performed by [o]. *)
Definition handle (env : Env) (o : Origin) {X} (op : Op X) (w0 : World)
    : Outcome X * World :=
  let w := record_event o (event_of op) w0 in
  match op in Op X return Outcome X * World with
  | MathRandom => (Resolved (env_random env (w_draws w)), bump_draws w)
  | Sleep _ => (Resolved tt, w)
  | AnalyzeEmailComplete email categories =>
      (env_analyze env (w_calls w) email categories, bump_calls w)
  | GenerateContent prompt => (env_generate env (w_calls w) prompt, bump_calls w)
  | JSONParse text => (env_JSON_parse env text, w)
  | ExtractUnsubscribeLink body htmlBody =>
      (Resolved (env_extractUnsubscribeLink env body htmlBody), w)
  | EmailFindUnique messageId =>
      guarded env w (fun w => (Resolved (find_email messageId (w_emails w)), w))
  | EmailCreate data => guarded env w (create_email data)
  | SenderProfileUpsert userId email name date =>
      guarded env w (fun w => (Resolved tt, upsert_sender userId email name date w))
  | ArchiveEmailWithClient _ id => (env_archive env id, w)
  | ArchiveEmail _ id => (env_archive env id, w)
  | ErrorsPush line => (Resolved tt, set_errors (w_errors w ++ [line]) w)
  | CategoryFindMany userId => (env_categories env userId, w)
  | GmailAccountFindMany userId => (env_gmailAccounts env userId, w)
  | GetGmailClientFromAccount account => (env_gmailClient env account, w)
  | FetchRecentEmailsFromClient client maxResults =>
      (env_inboxOfClient env client maxResults, w)
  | FetchRecentEmails userId maxResults => (env_inbox env userId maxResults, w)
  | EmailInsightUpsert userId date imported =>
      guarded env w (fun w => (Resolved tt, upsert_insight userId date imported w))
  | EmailFindMany _ => guarded env w (fun w => (Resolved tt, w))
  | ConsoleLogBatch _ _ _ => (Resolved tt, w)
  end.

(** Run a program to the end, nothing else running in between. *)
Fixpoint exec (env : Env) (o : Origin) {A} (p : Prog A) (w : World)
    : Outcome A * World :=
  match p with
  | Ret a => (Resolved a, w)
  | Throw e => (Rejected e, w)
  | Await op k => let '(r, w') := handle env o op w in exec env o (k r) w'
  end.

(** ** [retryWithBackoff] *)

Definition max_retries_exceeded : JsError :=
  mkJsError "Error" (Some "Max retries exceeded").

(** The [for] loop from [attempt] on; [remaining] is [maxRetries - attempt],
    the number of iterations the loop condition still allows. *)
Fixpoint retry_from {T} (fn : Prog T) (maxRetries : nat) (baseDelay : Q)
    (remaining attempt : nat) : Prog T :=
  match remaining with
  | O => Throw max_retries_exceeded
  | S remaining' =>
      try_catch fn (fun error =>
        let isLastAttempt := Nat.eqb attempt (maxRetries - 1) in
        if negb (is429 error) || isLastAttempt then Throw error
        else
          let delay := (baseDelay * inject_Z (2 ^ Z.of_nat attempt))%Q in
          let* random := perform MathRandom in
          let jitter := (random * 1000)%Q in
          let totalDelay := (delay + jitter)%Q in
          let* _ := perform (Sleep totalDelay) in
          retry_from fn maxRetries baseDelay remaining' (S attempt))
  end.

Definition retryWithBackoff {T} (fn : Prog T) (maxRetries : nat) (baseDelay : Q)
    : Prog T :=
  retry_from fn maxRetries baseDelay maxRetries 0.

(** The call site's defaults: [maxRetries = 5], [baseDelay = 1000]. *)
Definition retryWithBackoff_default {T} (fn : Prog T) : Prog T :=
  retryWithBackoff fn 5 1000%Q.

(** ** [lib/gemini.ts]: the single-purpose analysis helpers *)

(** Strings are sequences of code units below 256. *)
Definition is_white_space (c : ascii) : bool :=
  let n := nat_of_ascii c in
  (Nat.leb 9 n && Nat.leb n 13) || Nat.eqb n 32 || Nat.eqb n 160.

Fixpoint trim_start (s : string) : string :=
  match s with
  | EmptyString => EmptyString
  | String c rest => if is_white_space c then trim_start rest else s
  end.

(** [s.trim()] *)
Definition trim (s : string) : string :=
  String.rev (trim_start (String.rev (trim_start s))).

Definition digit_value (c : ascii) : option Z :=
  let n := Z.of_nat (nat_of_ascii c) in
  if (48 <=? n)%Z && (n <=? 57)%Z then Some (n - 48)%Z
  else if (97 <=? n)%Z && (n <=? 122)%Z then Some (n - 87)%Z
  else if (65 <=? n)%Z && (n <=? 90)%Z then Some (n - 55)%Z
  else None.

(** Value of the longest prefix of digits in radix [R]; [acc] is [None]
    until a digit has been read. *)
Fixpoint parse_digits (R : Z) (s : string) (acc : option Z) : option Z :=
  match s with
  | EmptyString => acc
  | String c rest =>
      match digit_value c with
      | Some d =>
          if (d <? R)%Z
          then parse_digits R rest (Some (default 0%Z acc * R + d)%Z)
          else acc
      | None => acc
      end
  end.

(** [parseInt(s)] without a radix; [None] is [NaN].  The result is kept as
    the exact integer: rounding it to a double cannot move it across 0 or
    100, the only bounds it is compared with. *)
Definition parseInt (input : string) : option Z :=
  let s := trim_start input in
  let '(sign, s) :=
    match s with
    | String "-" rest => ((-1)%Z, rest)
    | String "+" rest => (1%Z, rest)
    | _ => (1%Z, s)
    end in
  let '(R, s) :=
    match s with
    | String "0" (String "x" rest) => (16%Z, rest)
    | String "0" (String "X" rest) => (16%Z, rest)
    | _ => (10%Z, s)
    end in
  match parse_digits R s None with
  | None => None
  | Some m => Some (sign * m)%Z
  end.

(** [email.fromName || email.from] *)
Definition display_from (email : EmailInput) : string :=
  match in_fromName email with
  | Some name => if String.eqb name "" then in_from email else name
  | None => in_from email
  end.

Definition priority_prompt (email : EmailInput) : string :=
  "Analyze this email and rate its importance/priority on a scale of 0-100.

Consider:
- Urgency and time sensitivity
- Sender importance
- Action required
- Potential consequences if ignored

Email:
Subject: " +:+ in_subject email +:+ "
From: " +:+ display_from email +:+ "
Snippet: " +:+ in_snippet email +:+ "

Respond with ONLY a number between 0-100:".

Definition calculatePriorityScore (email : EmailInput) : Prog Z :=
  let prompt := priority_prompt email in
  try_catch
    (let* text := perform (GenerateContent prompt) in
     let score := parseInt (trim text) in
     Ret (match score with
          | None => 50%Z
          | Some score => Z.min 100 (Z.max 0 score)
          end))
    (fun error => Ret 50%Z).

Definition dq : string := String (ascii_of_nat 34) EmptyString.

Definition important_prompt (body : string) : string :=
  "Analyze this email and identify any important information that the user might need later.

Look for:
- Tracking numbers
- Order confirmations
- Meeting dates/times
- Phone numbers
- Addresses
- Account numbers
- Confirmation codes
- Passwords or credentials
- Important deadlines

Email content:
" +:+ String.substring 0 2000 body +:+ "

Respond in JSON format like this:
{" +:+ dq +:+ "hasImportant" +:+ dq +:+ ": true/false, " +:+ dq +:+ "flags" +:+ dq
  +:+ ": [" +:+ dq +:+ "type1" +:+ dq +:+ ", " +:+ dq +:+ "type2" +:+ dq +:+ "]}".

(** The suffix of [s] that starts at its first opening brace. *)
Fixpoint from_first_open (s : string) : option string :=
  match s with
  | EmptyString => None
  | String c rest => if Ascii.eqb c "{" then Some s else from_first_open rest
  end.

(** The suffix of [s] that starts at its first closing brace. *)
Fixpoint from_first_close (s : string) : option string :=
  match s with
  | EmptyString => None
  | String c rest => if Ascii.eqb c "}" then Some s else from_first_close rest
  end.

(** [response.match(/\{[\s\S]*\}/)]: from the first opening brace to the
    last closing brace after it; the text matched, or [None]. *)
Definition json_match (response : string) : option string :=
  match from_first_open response with
  | None => None
  | Some opened =>
      match from_first_close (String.rev opened) with
      | None => None
      | Some closed_rev => Some (String.rev closed_rev)
      end
  end.

Definition type_error : JsError :=
  mkJsError "TypeError" (Some "Cannot read properties of null").

(** [v.key], [None] for [undefined]; reading a property of [null] throws. *)
Definition js_get (v : Json) (key : string) : Outcome (option Json) :=
  match v with
  | JNull => Rejected type_error
  | JObject props =>
      Resolved (snd <$> List.find (fun kv => String.eqb (fst kv) key) props)
  | _ => Resolved None
  end.

Definition truthy (v : Json) : bool :=
  match v with
  | JNull => false
  | JBool b => b
  | JNumber q => negb (Qeq_bool q 0)
  | JString s => negb (String.eqb s "")
  | JArray _ | JObject _ => true
  end.

(** [x || d] *)
Definition js_or (x : option Json) (d : Json) : Json :=
  match x with
  | Some v => if truthy v then v else d
  | None => d
  end.

Definition of_outcome {A} (r : Outcome A) : Prog A :=
  match r with
  | Resolved a => Ret a
  | Rejected e => Throw e
  end.

(** The object [detectImportantInfo] returns. *)
Record ImportantInfoJs := {
  ii_hasImportant : Json;
  ii_flags : Json;
}.

Definition no_important_info : ImportantInfoJs :=
  {| ii_hasImportant := JBool false; ii_flags := JArray [] |}.

Definition detectImportantInfo (body : string) : Prog ImportantInfoJs :=
  let prompt := important_prompt body in
  let* returned :=
    try_catch
      (let* text := perform (GenerateContent prompt) in
       let response := trim text in
       match json_match response with
       | Some matched =>
           let* parsed := perform (JSONParse matched) in
           let* parsed_hasImportant := of_outcome (js_get parsed "hasImportant") in
           let* parsed_flags := of_outcome (js_get parsed "flags") in
           Ret (Some {| ii_hasImportant := js_or parsed_hasImportant (JBool false);
                        ii_flags := js_or parsed_flags (JArray []) |})
       | None => Ret None
       end)
      (fun error => Ret None) in
  match returned with
  | Some result => Ret result
  | None => Ret no_important_info
  end.

(** ** [POST]: one item of a batch *)

(** What the async callback of [batch.map] resolves to. *)
Record ItemResult := {
  res_success : bool;
  res_skipped : bool;
  res_error : option JsError;
}.

Definition email_input (gmailMsg : GmailMessage) : EmailInput :=
  {| in_subject := msg_subject gmailMsg;
     in_from := msg_from gmailMsg;
     in_fromName := msg_fromName gmailMsg;
     in_snippet := msg_snippet gmailMsg;
     in_body := msg_body gmailMsg |}.

(** [item.accountId || null] *)
Definition account_or_null (accountId : string) : option string :=
  if String.eqb accountId "" then None else Some accountId.

Definition email_row (gmailMsg : GmailMessage) (gmailAccountId : option string)
    (analysis : Analysis) (unsubscribeLink : option string) : EmailRow :=
  {| row_messageId := msg_id gmailMsg;
     row_threadId := msg_threadId gmailMsg;
     row_subject := msg_subject gmailMsg;
     row_from := msg_from gmailMsg;
     row_fromName := msg_fromName gmailMsg;
     row_to := msg_to gmailMsg;
     row_date := msg_date gmailMsg;
     row_snippet := msg_snippet gmailMsg;
     row_body := msg_body gmailMsg;
     row_htmlBody := msg_htmlBody gmailMsg;
     row_summary := an_summary analysis;
     row_unsubscribeLink := unsubscribeLink;
     row_categoryId := an_categoryId analysis;
     row_gmailAccountId := gmailAccountId;
     row_aiPriorityScore := an_priorityScore analysis;
     row_hasImportantInfo := hasImportant (an_importantInfo analysis);
     row_importantInfoFlags :=
       if Nat.ltb 0 (length (flags (an_importantInfo analysis)))
       then Some (flags (an_importantInfo analysis))
       else None |}.

Definition failure_line (gmailMsg : GmailMessage) : string :=
  "Failed to process email: " +:+ msg_subject gmailMsg.

(** [{ success: false, error }] *)
Definition failure_result (error : JsError) : ItemResult :=
  {| res_success := false; res_skipped := false; res_error := Some error |}.

(** The [catch] block of the callback. *)
Definition catch_block (gmailMsg : GmailMessage) (error : JsError) : Prog ItemResult :=
  let* _ := perform (ErrorsPush (failure_line gmailMsg)) in
  Ret (failure_result error).

(** The body of [batch.map(async (item) => ...)].  [autoArchive] is
    [process.env.AUTO_ARCHIVE_EMAILS === 'true']. *)
Definition processItem (autoArchive : bool) (userId : string)
    (categories : list Category) (item : FetchedItem) : Prog ItemResult :=
  let gmailMsg := item_message item in
  let gmailAccountId := account_or_null (item_accountId item) in
  let gmailClient := item_gmailClient item in
  try_catch
    (let* analysis :=
       retryWithBackoff_default
         (perform (AnalyzeEmailComplete (email_input gmailMsg) categories)) in
     let* unsubscribeLink :=
       perform (ExtractUnsubscribeLink (msg_body gmailMsg) (msg_htmlBody gmailMsg)) in
     let* existingEmail := perform (EmailFindUnique (msg_id gmailMsg)) in
     match existingEmail with
     | None =>
         let* _ := perform (EmailCreate
                     (email_row gmailMsg gmailAccountId analysis unsubscribeLink)) in
         let* _ := perform (SenderProfileUpsert userId (msg_from gmailMsg)
                              (msg_fromName gmailMsg) (msg_date gmailMsg)) in
         let* _ :=
           if autoArchive then
             try_catch
               (match gmailClient with
                | Some client => perform (ArchiveEmailWithClient client (msg_id gmailMsg))
                | None => perform (ArchiveEmail userId (msg_id gmailMsg))
                end)
               (fun archiveError => Ret tt)
           else Ret tt in
         Ret {| res_success := true; res_skipped := false; res_error := None |}
     | Some _ =>
         Ret {| res_success := true; res_skipped := true; res_error := None |}
     end)
    (catch_block gmailMsg).

(** ** [Promise.all] over the callbacks of a batch *)

(** A started callback: the index of its item in [newEmails] and what is
    left of its body. *)
Definition Job (A : Type) : Type := nat * Prog A.

(** The job performs its next awaited operation, if it has one left. *)
Definition step (env : Env) {A} (j : Job A) (w : World) : Job A * World :=
  match snd j with
  | Await op k =>
      let '(r, w') := handle env (Task (fst j)) op w in ((fst j, k r), w')
  | _ => (j, w)
  end.

Fixpoint step_nth (env : Env) {A} (n : nat) (pool : list (Job A)) (w : World)
    {struct pool} : list (Job A) * World :=
  match pool with
  | [] => ([], w)
  | j :: rest =>
      match n with
      | O => let '(j', w') := step env j w in (j' :: rest, w')
      | S n' => let '(rest', w') := step_nth env n' rest w in (j :: rest', w')
      end
  end.

(** The schedule names, one after the other, the job that moves next. *)
Fixpoint run_schedule (env : Env) {A} (sched : list nat) (pool : list (Job A))
    (w : World) : list (Job A) * World :=
  match sched with
  | [] => (pool, w)
  | c :: sched' =>
      let '(pool', w') := step_nth env c pool w in
      run_schedule env sched' pool' w'
  end.

(** When the schedule is used up, what is left of each job runs to its
    end, in order. *)
Fixpoint settle_all (env : Env) {A} (pool : list (Job A)) (w : World)
    : list (Outcome A) * World :=
  match pool with
  | [] => ([], w)
  | j :: rest =>
      let '(r, w') := exec env (Task (fst j)) (snd j) w in
      let '(rs, w'') := settle_all env rest w' in
      (r :: rs, w'')
  end.

Fixpoint all_resolved {A} (rs : list (Outcome A)) : Outcome (list A) :=
  match rs with
  | [] => Resolved []
  | Resolved a :: rest =>
      match all_resolved rest with
      | Resolved l => Resolved (a :: l)
      | Rejected e => Rejected e
      end
  | Rejected e :: _ => Rejected e
  end.

(** [await Promise.all(jobs)].  A rejection is reported once every job has
    settled; the callbacks of [POST] never reject. *)
Definition settle_pool (env : Env) {A} (sched : list nat) (pool : list (Job A))
    (w : World) : list (Outcome A) * World :=
  let '(pool', w1) := run_schedule env sched pool w in
  settle_all env pool' w1.

Definition promiseAll (env : Env) {A} (sched : list nat) (pool : list (Job A))
    (w : World) : Outcome (list A) * World :=
  let '(rs, w2) := settle_pool env sched pool w in
  (all_resolved rs, w2).

(** ** [POST]: the request handler *)

Definition BATCH_SIZE : nat := 4.
Definition BATCH_DELAY_MS : Q := 60000.

(** [l.slice(start, stop)] for [start <= stop]. *)
Definition slice {A} (l : list A) (start stop : nat) : list A :=
  take (stop - start) (drop start l).

(** [Math.ceil(n / d)] *)
Definition ceil_div (n d : nat) : nat := (n + (d - 1)) / d.

Definition is_imported (r : ItemResult) : bool := res_success r && negb (res_skipped r).
Definition is_skipped (r : ItemResult) : bool := res_success r && res_skipped r.

(** [batch.map(async (item) => ...)]: the item at position [j] of the batch
    that starts at [i] is item [i + j] of [newEmails]. *)
Definition batch_jobs (autoArchive : bool) (userId : string)
    (categories : list Category) (i : nat) (batch : list FetchedItem)
    : list (Job ItemResult) :=
  imap (fun j item => (i + j, processItem autoArchive userId categories item)) batch.

(** The batch loop [for (let i = 0; i < newEmails.length; i += BATCH_SIZE)].
    [fuel] bounds the iterations; [length newEmails] is enough.  The k-th
    batch is interleaved by the k-th schedule. *)
Fixpoint batch_loop (env : Env) (autoArchive : bool) (userId : string)
    (categories : list Category) (newEmails : list FetchedItem)
    (scheds : list (list nat)) (fuel i imported skipped : nat) (w : World)
    : Outcome (nat * nat) * World :=
  match fuel with
  | O => (Resolved (imported, skipped), w)
  | S fuel' =>
      if Nat.ltb i (length newEmails) then
        let batch := slice newEmails i (i + BATCH_SIZE) in
        let batchNum := i / BATCH_SIZE + 1 in
        let totalBatches := ceil_div (length newEmails) BATCH_SIZE in
        let w := snd (handle env Main
                        (ConsoleLogBatch batchNum totalBatches (length batch)) w) in
        let batchPromises := batch_jobs autoArchive userId categories i batch in
        match promiseAll env (hd [] scheds) batchPromises w with
        | (Rejected e, w) => (Rejected e, w)
        | (Resolved results, w) =>
            let successCount := length (List.filter is_imported results) in
            let skippedCount := length (List.filter is_skipped results) in
            let imported := imported + successCount in
            let skipped := skipped + skippedCount in
            let hasMoreBatches := Nat.ltb (i + BATCH_SIZE) (length newEmails) in
            let w :=
              if hasMoreBatches
              then snd (handle env Main (Sleep BATCH_DELAY_MS) w)
              else w in
            batch_loop env autoArchive userId categories newEmails
                       (tl scheds) fuel' (i + BATCH_SIZE) imported skipped w
        end
      else (Resolved (imported, skipped), w)
  end.

(** The per-account fetch loop; a failing account is skipped. *)
Fixpoint fetch_accounts (gmailAccounts : list GmailAccount) (maxEmails : Z)
    (allGmailMessages : list FetchedItem) : Prog (list FetchedItem) :=
  match gmailAccounts with
  | [] => Ret allGmailMessages
  | account :: rest =>
      let* allGmailMessages :=
        try_catch
          (let* gmailClient := perform (GetGmailClientFromAccount account) in
           let* messages := perform (FetchRecentEmailsFromClient gmailClient maxEmails) in
           Ret (allGmailMessages ++
                map (fun message =>
                       {| item_message := message;
                          item_accountId := acct_id account;
                          item_gmailClient := Some gmailClient |}) messages))
          (fun error => Ret allGmailMessages) in
      fetch_accounts rest maxEmails allGmailMessages
  end.

(** Categories, accounts and the fetched items. *)
Definition fetch_all (userId : string) (maxEmails : Z)
    : Prog (list Category * list FetchedItem) :=
  let* categories := perform (CategoryFindMany userId) in
  let* gmailAccounts := perform (GmailAccountFindMany userId) in
  let* allGmailMessages :=
    if Nat.ltb 0 (length gmailAccounts) then
      fetch_accounts gmailAccounts maxEmails []
    else
      let* messages := perform (FetchRecentEmails userId maxEmails) in
      Ret (map (fun message =>
                  {| item_message := message;
                     item_accountId := "";
                     item_gmailClient := None |}) messages) in
  Ret (categories, allGmailMessages).

(** "Filter out emails that already exist". *)
Fixpoint filter_new (allGmailMessages : list FetchedItem) (skipped : nat)
    (newEmails : list FetchedItem) : Prog (nat * list FetchedItem) :=
  match allGmailMessages with
  | [] => Ret (skipped, newEmails)
  | item :: rest =>
      let* existing := perform (EmailFindUnique (msg_id (item_message item))) in
      match existing with
      | Some _ => filter_new rest (S skipped) newEmails
      | None => filter_new rest skipped (newEmails ++ [item])
      end
  end.

(** "Update daily insights" and the statistics queries. *)
Definition finish_run (userId : string) (today : Z) (imported : nat) : Prog unit :=
  let* _ := perform (EmailInsightUpsert userId today imported) in
  if Nat.ltb 0 imported then
    let* _ := perform (EmailFindMany true) in
    let* _ := perform (EmailFindMany false) in
    Ret tt
  else Ret tt.

Inductive ResponseBody :=
| ErrorBody (error : string) (details : option string)
| SummaryBody (imported skipped : nat) (errors : list string).

Record Response := {
  status : Z;
  body : ResponseBody;
}.

(** What the request brings: [session?.user?.id] when it is truthy, and the
    [maxEmails] field of the JSON body, if present; either await may
    reject. *)
Record Request := {
  req_session : Outcome (option string);
  req_json : Outcome (option Z);
}.

(** What a run depends on besides the request: the environment variable,
    the local midnight of the current day, and the schedules of the
    batches. *)
Record Run := {
  run_AUTO_ARCHIVE_EMAILS : option string;
  run_today : Z;
  run_schedules : list (list nat);
}.

Definition and_then {A B} (m : Outcome A * World)
    (f : A -> World -> Outcome B * World) : Outcome B * World :=
  match m with
  | (Resolved a, w) => f a w
  | (Rejected e, w) => (Rejected e, w)
  end.

(** [NextResponse.json({ error: 'Failed to import emails', details }, { status: 500 })] *)
Definition response_500 (error : JsError) : Response :=
  {| status := 500;
     body := ErrorBody "Failed to import emails"
               (Some (default "Unknown error" (err_message error))) |}.

(** [NextResponse.json({ success: true, imported, skipped, errors })] *)
Definition response_200 (imported skipped : nat) (errors : list string) : Response :=
  {| status := 200; body := SummaryBody imported skipped errors |}.

Definition response_401 : Response :=
  {| status := 401; body := ErrorBody "Unauthorized" None |}.

(** [process.env.AUTO_ARCHIVE_EMAILS === 'true'] *)
Definition auto_archive (run : Run) : bool :=
  match run_AUTO_ARCHIVE_EMAILS run with
  | Some v => String.eqb v "true"
  | None => false
  end.

(** The [try] block of [POST]. *)
Definition POST_try (env : Env) (run : Run) (request : Request) (w : World)
    : Outcome Response * World :=
  and_then (req_session request, w) (fun session w =>
  match session with
  | None => (Resolved response_401, w)
  | Some userId =>
      and_then (req_json request, w) (fun json w =>
      let maxEmails := default 20%Z json in
      and_then (exec env Main (fetch_all userId maxEmails) w)
        (fun '(categories, allGmailMessages) w =>
      let w := set_errors [] w in
      and_then (exec env Main (filter_new allGmailMessages 0 []) w)
        (fun '(skipped, newEmails) w =>
      and_then (batch_loop env (auto_archive run) userId categories newEmails
                  (run_schedules run) (length newEmails) 0 0 skipped w)
        (fun '(imported, skipped) w =>
      and_then (exec env Main (finish_run userId (run_today run) imported) w)
        (fun _ w =>
      (Resolved (response_200 imported skipped (w_errors w)), w))))))
  end).

Definition POST (env : Env) (run : Run) (request : Request) (w : World)
    : Response * World :=
  match POST_try env run request w with
  | (Resolved response, w') => (response, w')
  | (Rejected error, w') => (response_500 error, w')
  end.

(** ** Reading the trace *)

(** The part of the trace written between [w] and [w']. *)
Definition new_events (w w' : World) : list (Origin * Event) :=
  drop (length (w_log w)) (w_log w').

Definition is_analyze (e : Origin * Event) : bool :=
  match snd e with EvAnalyze _ => true | _ => false end.

(** Number of calls of the wrapped operation in a trace. *)
Definition invocations_in (tr : list (Origin * Event)) : nat :=
  length (List.filter is_analyze tr).

(** The sleeps of a trace, in order. *)
Fixpoint sleeps_in (tr : list (Origin * Event)) : list Q :=
  match tr with
  | [] => []
  | (_, EvSleep ms) :: rest => ms :: sleeps_in rest
  | _ :: rest => sleeps_in rest
  end.

(** [base * Math.pow(2, n)] *)
Definition backoff (base : Q) (n : nat) : Q := (base * inject_Z (2 ^ Z.of_nat n))%Q.

(** The trace of [k] rate-limited attempts, each followed by its sleep, and
    one more attempt. *)
Fixpoint backoff_trace (o : Origin) (env : Env) (email : EmailInput) (base : Q)
    (attempt draws k : nat) : list (Origin * Event) :=
  match k with
  | O => [(o, EvAnalyze email)]
  | S k' =>
      (o, EvAnalyze email) :: (o, EvRandom) ::
      (o, EvSleep (backoff base attempt + env_random env draws * 1000)%Q) ::
      backoff_trace o env email base (S attempt) (S draws) k'
  end.

Definition is_batch_marker (e : Origin * Event) : bool :=
  match e with (Main, EvBatch _ _ _) => true | _ => false end.

Definition is_pause (e : Origin * Event) : bool :=
  match e with (Main, EvSleep _) => true | _ => false end.

(** Number of batches announced in a trace. *)
Definition batches_in (tr : list (Origin * Event)) : nat :=
  length (List.filter is_batch_marker tr).

(** Number of sleeps of the request handler itself in a trace. *)
Definition pauses_in (tr : list (Origin * Event)) : nat :=
  length (List.filter is_pause tr).

(** The sizes of the batches announced in a trace, in order. *)
Fixpoint batch_sizes_in (tr : list (Origin * Event)) : list nat :=
  match tr with
  | [] => []
  | (Main, EvBatch _ _ size) :: rest => size :: batch_sizes_in rest
  | _ :: rest => batch_sizes_in rest
  end.

(** The event of the next operation of a program. *)
Definition first_event {A} (p : Prog A) : option Event :=
  match p with
  | Await op _ => Some (event_of op)
  | _ => None
  end.

(** ** What a program may do *)

Definition is_rejected {X} (r : Outcome X) : Prop :=
  match r with Rejected _ => True | Resolved _ => False end.

Definition is_resolved {X} (r : Outcome X) : Prop :=
  match r with Resolved _ => True | Rejected _ => False end.

(** All operations of [p] are allowed by [pol] and all values it returns
    satisfy [post]. *)
Fixpoint Within {A} (pol : forall X, Op X -> Prop) (post : A -> Prop)
    (p : Prog A) : Prop :=
  match p with
  | Ret a => post a
  | Throw _ => True
  | Await op k => pol _ op /\ forall r, Within pol post (k r)
  end.

Definition is_push {X} (op : Op X) : bool :=
  match op with ErrorsPush _ => true | _ => false end.

(** The row an operation asks to insert. *)
Definition created {X} (op : Op X) : option EmailRow :=
  match op with EmailCreate data => Some data | _ => None end.

Definition is_insight_upsert {X} (op : Op X) : bool :=
  match op with EmailInsightUpsert _ _ _ => true | _ => false end.

(** An insight upsert, if [op] is one, is for the row [(userId, date)]. *)
Definition insight_key_ok (userId : string) (date : Z) {X} (op : Op X) : Prop :=
  match op with
  | EmailInsightUpsert u d _ => u = userId /\ d = date
  | _ => True
  end.

(** The operations the callback of an item performs, with their arguments. *)
Definition item_pol (gmailMsg : GmailMessage) (X : Type) (op : Op X) : Prop :=
  match op with
  | MathRandom | Sleep _ | ExtractUnsubscribeLink _ _ => True
  | AnalyzeEmailComplete email _ => email = email_input gmailMsg
  | EmailFindUnique messageId => messageId = msg_id gmailMsg
  | EmailCreate data => row_messageId data = msg_id gmailMsg
  | SenderProfileUpsert _ email _ _ => email = msg_from gmailMsg
  | ArchiveEmailWithClient _ id | ArchiveEmail _ id => id = msg_id gmailMsg
  | ErrorsPush line => line = failure_line gmailMsg
  | _ => False
  end.

(** The same, read off the trace. *)
Definition item_event (gmailMsg : GmailMessage) (ev : Event) : Prop :=
  match ev with
  | EvRandom | EvSleep _ | EvExtract => True
  | EvAnalyze email => email = email_input gmailMsg
  | EvFindUnique id | EvCreate id | EvArchive id => id = msg_id gmailMsg
  | EvSenderUpsert email => email = msg_from gmailMsg
  | EvErrorsPush line => line = failure_line gmailMsg
  | _ => False
  end.

(** The operations of the [try] block of a callback. *)
Definition body_pol (gmailMsg : GmailMessage) (X : Type) (op : Op X) : Prop :=
  item_pol gmailMsg X op /\ is_push op = false.

(** The operations of the three sequential phases of the request handler. *)
Definition setup_pol (X : Type) (op : Op X) : Prop :=
  match op with
  | CategoryFindMany _ | GmailAccountFindMany _ | GetGmailClientFromAccount _
  | FetchRecentEmailsFromClient _ _ | FetchRecentEmails _ _ => True
  | _ => False
  end.

Definition find_pol (X : Type) (op : Op X) : Prop :=
  match op with
  | EmailFindUnique _ => True
  | _ => False
  end.

Definition finish_pol (userId : string) (today : Z) (X : Type) (op : Op X) : Prop :=
  match op with
  | EmailInsightUpsert u d _ => u = userId /\ d = today
  | EmailFindMany _ => True
  | _ => False
  end.

(** Everything a run for [userId] on day [today] may perform. *)
Definition run_pol (userId : string) (today : Z) (o : Origin) (X : Type) (op : Op X)
    : Prop :=
  match o with
  | Main =>
      setup_pol X op \/ find_pol X op \/ finish_pol userId today X op \/
      match op with
      | Sleep _ | ConsoleLogBatch _ _ _ => True
      | _ => False
      end
  | Task _ => exists gmailMsg, item_pol gmailMsg X op
  end.

(** [I] survives every operation that [pol] allows to its origin. *)
Definition respects (env : Env) (pol : Origin -> forall X, Op X -> Prop)
    (I : World -> Prop) : Prop :=
  forall o X (op : Op X) w, pol o X op -> I w -> I (snd (handle env o op w)).

(** The job stays within what [pol] allows to its callback. *)
Definition job_within (pol : Origin -> forall X, Op X -> Prop) {A} (j : Job A) : Prop :=
  Within (pol (Task (fst j))) (fun _ => True) (snd j).

(** ** The callbacks of a batch *)

(** A callback that has reported its failure: it resolved to
    [{ success: false }]. *)
Definition failed (p : Prog ItemResult) : bool :=
  match p with
  | Ret r => negb (res_success r)
  | _ => false
  end.

(** A callback that has not reported a failure yet: it never throws, it
    returns a success without [errors.push], and a failure right after
    one [errors.push]. *)
Fixpoint Accounted (p : Prog ItemResult) : Prop :=
  match p with
  | Ret r => res_success r = true
  | Throw _ => False
  | Await op k =>
      if is_push op then forall x, failed (k (Resolved x)) = true
      else forall r, Accounted (k r)
  end.

Definition job_failed (j : Job ItemResult) : bool := failed (snd j).

(** [!r.success] *)
Definition is_failure (r : ItemResult) : bool := negb (res_success r).

Definition pending_or_failed (j : Job ItemResult) : Prop :=
  Accounted (snd j) \/ failed (snd j) = true.

(** The [errors] array has grown by one line per failed callback. *)
Definition PI_acct (E0 : nat) (w : World) (pool : list (Job ItemResult)) : Prop :=
  Forall pending_or_failed pool /\
  length (w_errors w) = E0 + length (List.filter job_failed pool).

(** The job a settled callback leaves in the pool. *)
Definition settle {A} (j : Job A) (r : Outcome A) : Job A := (fst j, of_outcome r).

(** An entry of the trace written by the callback of one of the items
    [lo .. hi - 1] of [newEmails], about that item. *)
Definition callback_entry (newEmails : list FetchedItem) (lo hi : nat)
    (e : Origin * Event) : Prop :=
  exists a item,
    fst e = Task a /\ lo <= a < hi /\
    newEmails !! a = Some item /\
    item_event (item_message item) (snd e).

(** The callback of item [fst j] has called the analysis, unless it has not
    moved yet; what is left of it stays within the item's operations. *)
Definition started (autoArchive : bool) (userId : string) (categories : list Category)
    (newEmails : list FetchedItem) (seg : list (Origin * Event))
    (j : Job ItemResult) : Prop :=
  exists item,
    newEmails !! fst j = Some item /\
    Within (item_pol (item_message item)) (fun _ => True) (snd j) /\
    (snd j = processItem autoArchive userId categories item \/
     (Task (fst j), EvAnalyze (email_input (item_message item))) ∈ seg).

(** The state of a batch over the items [lo .. hi - 1], whose trace started
    after [log1]. *)
Definition PI_batch (autoArchive : bool) (userId : string) (categories : list Category)
    (newEmails : list FetchedItem) (lo hi : nat) (log1 : list (Origin * Event))
    (w : World) (pool : list (Job ItemResult)) : Prop :=
  exists seg,
    w_log w = log1 ++ seg /\
    Forall (callback_entry newEmails lo hi) seg /\
    Forall (fun j => lo <= fst j < hi /\
                     started autoArchive userId categories newEmails seg j) pool.

(** ** The groups and the trace of the batch loop *)

(** The consecutive groups the loop takes: [slice(0, 4)], [slice(4, 8)], ... *)
Definition batches_of {A} (l : list A) : list (list A) :=
  map (fun k => slice l (k * BATCH_SIZE) (k * BATCH_SIZE + BATCH_SIZE))
      (seq 0 (ceil_div (length l) BATCH_SIZE)).

(** The trace of the batch loop from item [i] on: for each batch, its
    announcement, then entries of the callbacks of its own items only, among
    them an analysis call for each item, then the pause unless the batch is
    the last one; then the next batch. *)
Inductive batched (newEmails : list FetchedItem) : nat -> list (Origin * Event) -> Prop :=
| batched_done (i : nat) :
    length newEmails <= i -> batched newEmails i []
| batched_batch (i : nat) (seg rest : list (Origin * Event)) :
    i < length newEmails ->
    Forall (callback_entry newEmails i (i + BATCH_SIZE)) seg ->
    (forall a item,
       i <= a < i + BATCH_SIZE -> newEmails !! a = Some item ->
       (Task a, EvAnalyze (email_input (item_message item))) ∈ seg) ->
    batched newEmails (i + BATCH_SIZE) rest ->
    batched newEmails i
      ((Main, EvBatch (i / BATCH_SIZE + 1) (ceil_div (length newEmails) BATCH_SIZE)
                      (length (slice newEmails i (i + BATCH_SIZE))))
       :: seg ++
       (if Nat.ltb (i + BATCH_SIZE) (length newEmails)
        then [(Main, EvSleep BATCH_DELAY_MS)] else []) ++
       rest).

(** ** The tables *)

(** The source identifiers that have a StoredMessage. *)
Definition message_ids (rows : list EmailRow) : list string := map row_messageId rows.

(** Every insert of the trace is for an identifier without a row in [rows]. *)
Definition creates_only_absent (rows : list EmailRow) (tr : list (Origin * Event)) : Prop :=
  Forall (fun e => forall id, snd e = EvCreate id -> find_email id rows = None) tr.

(** The item has no row in [rows]. *)
Definition is_new (rows : list EmailRow) (item : FetchedItem) : bool :=
  match find_email (msg_id (item_message item)) rows with
  | None => true
  | Some _ => false
  end.

Definition has_row (rows : list EmailRow) (item : FetchedItem) : bool :=
  negb (is_new rows item).

(** The counts of a day without a row. *)
Definition no_insight : EmailInsight :=
  {| emailsProcessed := 0; emailsArchived := 0; timeSavedMins := 0 |}.

(** ** Failures *)

(** Listing the messages of [account] fails: no client, or no list. *)
Definition account_fetch_fails (env : Env) (maxEmails : Z) (account : GmailAccount)
    : Prop :=
  match env_gmailClient env account with
  | Rejected _ => True
  | Resolved client => is_rejected (env_inboxOfClient env client maxEmails)
  end.

(** Fetching the initial item list from the mailbox fails: for one of the
    active accounts, or for the main account when there is none. *)
Definition mailbox_fetch_fails (env : Env) (userId : string) (maxEmails : Z) : Prop :=
  match env_gmailAccounts env userId with
  | Rejected _ => False
  | Resolved [] => is_rejected (env_inbox env userId maxEmails)
  | Resolved accounts => Exists (account_fetch_fails env maxEmails) accounts
  end.

(** A failure of the set-up with error [e]: the categories or the accounts
    cannot be read, or there is no active account and the main mailbox
    cannot be listed. *)
Definition setup_fails (env : Env) (userId : string) (maxEmails : Z) (e : JsError)
    : Prop :=
  env_categories env userId = Rejected e \/
  (is_resolved (env_categories env userId) /\
   env_gmailAccounts env userId = Rejected e) \/
  (is_resolved (env_categories env userId) /\
   env_gmailAccounts env userId = Resolved [] /\
   env_inbox env userId maxEmails = Rejected e).

(** The analysis of the message is rejected, whenever it is called, with an
    error that is not a rate limit. *)
Definition always_fails (env : Env) (categories : list Category)
    (gmailMsg : GmailMessage) : Prop :=
  forall n, exists e,
    env_analyze env n (email_input gmailMsg) categories = Rejected e /\
    is429 e = false.

(** Where the callback of such a message can be: at its start, in its
    [catch] block, or done, the failure reported. *)
Definition failing_state (autoArchive : bool) (userId : string)
    (categories : list Category) (item : FetchedItem) (w : World)
    (p : Prog ItemResult) : Prop :=
  p = processItem autoArchive userId categories item \/
  (exists e, p = catch_block (item_message item) e) \/
  (exists e, p = Ret (failure_result e) /\
             failure_line (item_message item) ∈ w_errors w).

(** Every callback of a message whose analysis always fails is in such a
    state; [item_of] gives the item of a callback. *)
Definition PI_state (env : Env) (autoArchive : bool) (userId : string)
    (categories : list Category) (item_of : nat -> option FetchedItem)
    (w : World) (pool : list (Job ItemResult)) : Prop :=
  Forall (fun j => forall item,
            item_of (fst j) = Some item ->
            always_fails env categories (item_message item) ->
            failing_state autoArchive userId categories item w (snd j)) pool.

(** The failures reported so far: those of the items before [i]. *)
Definition failures_reported (env : Env) (categories : list Category)
    (newEmails : list FetchedItem) (i : nat) (w : World) : Prop :=
  forall a item,
    a < i -> newEmails !! a = Some item ->
    always_fails env categories (item_message item) ->
    failure_line (item_message item) ∈ w_errors w.

(** The state of a batch when the messages with identifier [id] all fail:
    no row for [id], callbacks within their items' operations and, for the
    failing ones, in a failing state. *)
Definition PI_fail (env : Env) (autoArchive : bool) (userId : string)
    (categories : list Category) (newEmails : list FetchedItem) (id : string)
    (i : nat) (w : World) (pool : list (Job ItemResult)) : Prop :=
  find_email id (w_emails w) = None /\
  failures_reported env categories newEmails i w /\
  Forall (fun j => exists item,
            newEmails !! fst j = Some item /\
            Within (item_pol (item_message item)) (fun _ => True) (snd j)) pool /\
  PI_state env autoArchive userId categories (fun a => newEmails !! a) w pool.

(** ** Sample data *)

Definition empty_world : World := mkWorld [] ∅ ∅ [] [] 0 0 0.

Definition sample_analysis : Analysis :=
  {| an_categoryId := None; an_summary := "Quarterly report attached";
     an_priorityScore := 75;
     an_importantInfo := {| hasImportant := false; flags := [] |} |}.

Definition sample_message (id subject : string) : GmailMessage :=
  {| msg_id := id; msg_threadId := "t-" +:+ id; msg_subject := subject;
     msg_from := "alice@example.com"; msg_fromName := Some "Alice";
     msg_to := "me@example.com"; msg_date := 1700000000000;
     msg_snippet := "Hello"; msg_body := "Hello, see attached.";
     msg_htmlBody := None |}.

Definition rate_limit_error : JsError :=
  mkJsError "Error" (Some "[429 Too Many Requests] Resource exhausted").

Definition server_error : JsError :=
  mkJsError "Error" (Some "[500 Internal Server Error] try again later").

(** An environment without faults whose analysis service is scripted by
    call number and whose mailbox is given. *)
Definition sample_env (analyze : nat -> EmailInput -> Outcome Analysis)
    (inbox : Outcome (list GmailMessage)) : Env :=
  {| env_random := fun _ => (1 # 2)%Q;
     env_analyze := fun n email _ => analyze n email;
     env_generate := fun _ _ => Resolved "not a number";
     env_JSON_parse := fun _ => Rejected (mkJsError "SyntaxError" (Some "Unexpected token"));
     env_extractUnsubscribeLink := fun _ _ => None;
     env_fault := fun _ => None;
     env_categories := fun _ => Resolved [];
     env_gmailAccounts := fun _ => Resolved [];
     env_gmailClient := fun account => Resolved (acct_id account);
     env_inboxOfClient := fun _ _ => inbox;
     env_inbox := fun _ _ => inbox;
     env_archive := fun _ => Resolved tt |}.

(** Rate limited on the first [k] calls, answering from then on. *)
Definition limited_then_ok (k : nat) (n : nat) (email : EmailInput) : Outcome Analysis :=
  if Nat.ltb n k then Rejected rate_limit_error else Resolved sample_analysis.

(** Rejecting every call with the same error. *)
Definition always_rejects (e : JsError) (n : nat) (email : EmailInput) : Outcome Analysis :=
  Rejected e.

(** The analysis fails for the message with subject "Invoice" and answers
    otherwise. *)
Definition rejects_invoice (n : nat) (email : EmailInput) : Outcome Analysis :=
  if String.eqb (in_subject email) "Invoice" then Rejected server_error
  else Resolved sample_analysis.

Definition sample_inbox : list GmailMessage :=
  [ sample_message "m1" "Welcome"; sample_message "m2" "Invoice";
    sample_message "m3" "Newsletter"; sample_message "m4" "Receipt";
    sample_message "m5" "Reminder"; sample_message "m1" "Welcome" ].

(** The row stored for "m3" by an earlier run. *)
Definition stored_m3 : EmailRow :=
  email_row (sample_message "m3" "Newsletter") None sample_analysis None.

Definition sample_world : World := mkWorld [stored_m3] ∅ ∅ [] [] 0 0 0.

Definition sample_request : Request :=
  {| req_session := Resolved (Some "user-1"); req_json := Resolved None |}.

Definition sample_run : Run :=
  {| run_AUTO_ARCHIVE_EMAILS := None; run_today := 1700000000000;
     run_schedules := [[0; 1; 2; 3; 3; 2; 1; 0; 0; 2; 2; 3]] |}.

Definition sample_account : GmailAccount :=
  {| acct_id := "acct-1"; acct_email := "alice@example.com" |}.

(** One active Gmail account whose mailbox cannot be listed. *)
Definition unreachable_account_env : Env :=
  {| env_random := fun _ => (1 # 2)%Q;
     env_analyze := fun _ _ _ => Resolved sample_analysis;
     env_generate := fun _ _ => Resolved "50";
     env_JSON_parse := fun _ => Resolved JNull;
     env_extractUnsubscribeLink := fun _ _ => None;
     env_fault := fun _ => None;
     env_categories := fun _ => Resolved [];
     env_gmailAccounts := fun _ => Resolved [sample_account];
     env_gmailClient := fun account => Resolved (acct_id account);
     env_inboxOfClient := fun _ _ => Rejected server_error;
     env_inbox := fun _ _ => Resolved sample_inbox;
     env_archive := fun _ => Resolved tt |}.

(** The categories cannot be read. *)
Definition no_categories_env : Env :=
  {| env_random := fun _ => (1 # 2)%Q;
     env_analyze := fun _ _ _ => Resolved sample_analysis;
     env_generate := fun _ _ => Resolved "50";
     env_JSON_parse := fun _ => Resolved JNull;
     env_extractUnsubscribeLink := fun _ _ => None;
     env_fault := fun _ => None;
     env_categories := fun _ => Rejected server_error;
     env_gmailAccounts := fun _ => Resolved [];
     env_gmailClient := fun account => Resolved (acct_id account);
     env_inboxOfClient := fun _ _ => Resolved sample_inbox;
     env_inbox := fun _ _ => Resolved sample_inbox;
     env_archive := fun _ => Resolved tt |}.

Definition new_item (id : string) : FetchedItem :=
  {| item_message := sample_message id "Hello"; item_accountId := "";
     item_gmailClient := None |}.

Definition nine_items : list FetchedItem :=
  map new_item ["a1"; "a2"; "a3"; "a4"; "a5"; "a6"; "a7"; "a8"; "a9"].

(** The fetched item of "m2", whose analysis fails. *)
Definition invoice_item : FetchedItem :=
  {| item_message := sample_message "m2" "Invoice"; item_accountId := "";
     item_gmailClient := None |}.

(** Twice the same new message in one fetch. *)
Definition twin_inbox : list GmailMessage :=
  [sample_message "m1" "Welcome"; sample_message "m1" "Welcome"].

(** The two callbacks both look the row up before either inserts it. *)
Definition racing_run : Run :=
  {| run_AUTO_ARCHIVE_EMAILS := Some "true"; run_today := 1700000000000;
     run_schedules := [[0; 0; 0; 1; 1; 1; 0; 1]] |}.

(** The callbacks run one after the other. *)
Definition sequential_run : Run :=
  {| run_AUTO_ARCHIVE_EMAILS := Some "true"; run_today := 1700000000000;
     run_schedules := [] |}.

(** * The mailbox and the other helpers *)

(** ** [lib/gmail.ts]: strings and regular expressions *)

(** [c.toLowerCase()] for one code unit below 256: the letters A-Z and the
    Latin-1 capitals 0xC0-0xDE (but the multiplication sign 0xD7) move up
    by 32, the other code units stay. *)
Definition lower_unit (c : ascii) : ascii :=
  let n := nat_of_ascii c in
  if (Nat.leb 65 n && Nat.leb n 90)
     || (Nat.leb 192 n && Nat.leb n 222 && negb (Nat.eqb n 215))
  then ascii_of_nat (n + 32)
  else c.

(** [s.toLowerCase()] *)
Fixpoint toLowerCase (s : string) : string :=
  match s with
  | EmptyString => EmptyString
  | String c rest => String (lower_unit c) (toLowerCase rest)
  end.

(** The fragment of the regular expressions of ECMAScript that the patterns
    of the module are written in.  [RSet] is one code unit out of a set (a
    literal, a class, the dot); a group is named by its number. *)
Inductive Regex :=
| REmpty
| RSet (p : ascii -> bool)
| RSeq (r1 r2 : Regex)
| ROpt (r : Regex)
| RStar (greedy : bool) (r : Regex)
| RGroup (n : nat) (r : Regex)
| RBol
| REol.

(** [r+] and [r+?] *)
Definition RPlus (greedy : bool) (r : Regex) : Regex := RSeq r (RStar greedy r).

(** A literal code unit. *)
Definition chr (c : ascii) : ascii -> bool := Ascii.eqb c.

(** A literal code unit under the flag [i], for [c] in lower case or not a
    letter: among the code units, only [c] and its ASCII capital
    canonicalize to the same code unit as [c]. *)
Definition chr_i (c : ascii) : ascii -> bool :=
  fun x =>
    let n := nat_of_ascii x in
    Ascii.eqb x c
    || (Nat.leb 65 n && Nat.leb n 90 && Ascii.eqb (ascii_of_nat (n + 32)) c).

(** A literal string, case-insensitive or not. *)
Fixpoint lit (ignoreCase : bool) (s : string) : Regex :=
  match s with
  | EmptyString => REmpty
  | String c rest => RSeq (RSet (if ignoreCase then chr_i c else chr c)) (lit ignoreCase rest)
  end.

(** [[...]] and [[^...]] over listed code units. *)
Definition one_of (cs : string) : ascii -> bool :=
  fun x => existsb (Ascii.eqb x) (list_ascii_of_string cs).

Definition none_of (cs : string) : ascii -> bool :=
  fun x => negb (one_of cs x).

(** [.]: any code unit but a line terminator. *)
Definition dot : ascii -> bool :=
  fun x => negb (Nat.eqb (nat_of_ascii x) 10 || Nat.eqb (nat_of_ascii x) 13).

(** [[\s\S]] *)
Definition any_unit : ascii -> bool := fun _ => true.

(** Where a match attempt stands: the index in the input, the input from
    there on, and the groups captured so far (latest first). *)
Record MatchState := {
  at_index : nat;
  remaining : string;
  captures : list (nat * string);
}.

Definition advance (st : MatchState) : MatchState :=
  match remaining st with
  | EmptyString => st
  | String _ rest =>
      {| at_index := S (at_index st); remaining := rest; captures := captures st |}
  end.

(** Group [n] captured what lies between [st] and [st']. *)
Definition capture (n : nat) (st st' : MatchState) : MatchState :=
  {| at_index := at_index st';
     remaining := remaining st';
     captures :=
       (n, String.substring 0 (at_index st' - at_index st) (remaining st))
         :: captures st' |}.

(** The iterations of a quantified pattern whose single match is [once]:
    greedy, another iteration is tried before stopping; lazy, after.  An
    iteration that consumes nothing is not tried.  [fuel] bounds the number
    of iterations; the length of the input left, plus one, is enough. *)
Fixpoint iterate (once : MatchState -> list MatchState) (greedy : bool) (fuel : nat)
    (st : MatchState) : list MatchState :=
  match fuel with
  | O => [st]
  | S fuel' =>
      let more :=
        flat_map
          (fun st' =>
             if Nat.ltb (at_index st) (at_index st')
             then iterate once greedy fuel' st' else [])
          (once st) in
      if greedy then more ++ [st] else st :: more
  end.

(** The states in which a match of [r] begun in [st] can end, in the order
    in which backtracking tries them: the first one that lets the rest of
    the pattern match is taken. *)
Fixpoint match_ends (r : Regex) (st : MatchState) : list MatchState :=
  match r with
  | REmpty => [st]
  | RSet p =>
      match remaining st with
      | EmptyString => []
      | String c _ => if p c then [advance st] else []
      end
  | RSeq r1 r2 => flat_map (match_ends r2) (match_ends r1 st)
  | ROpt r1 =>
      List.filter (fun st' => Nat.ltb (at_index st) (at_index st')) (match_ends r1 st)
        ++ [st]
  | RStar greedy r1 =>
      iterate (match_ends r1) greedy (S (String.length (remaining st))) st
  | RGroup n r1 => map (capture n st) (match_ends r1 st)
  | RBol => if Nat.eqb (at_index st) 0 then [st] else []
  | REol => match remaining st with EmptyString => [st] | _ => [] end
  end.

(** A successful match: where it starts, the text matched, the groups, and
    the input after it. *)
Record Match := {
  m_index : nat;
  m_text : string;
  m_groups : list (nat * string);
  m_after : string;
}.

(** [match[n]] for a group; [None] is [undefined]. *)
Definition group (n : nat) (m : Match) : option string :=
  snd <$> List.find (fun g => Nat.eqb (fst g) n) (m_groups m).

(** The state in which a match attempt starts at index [i], [s] being the
    input from there on. *)
Definition start_state (i : nat) (s : string) : MatchState :=
  {| at_index := i; remaining := s; captures := [] |}.

(** The match that began at index [i] and ended in the state [st]. *)
Definition match_of (i : nat) (s : string) (st : MatchState) : Match :=
  {| m_index := i;
     m_text := String.substring 0 (at_index st - i) s;
     m_groups := captures st;
     m_after := remaining st |}.

(** The leftmost match of [r] in [s], which starts at index [index] of the
    input. *)
Fixpoint regex_exec (r : Regex) (index : nat) (s : string) : option Match :=
  match head (match_ends r (start_state index s)) with
  | Some st => Some (match_of index s st)
  | None =>
      match s with
      | EmptyString => None
      | String _ rest => regex_exec r (S index) rest
      end
  end.

(** [s.match(r)] for [r] without the flag [g], and the first element of
    [s.match(r)] for [r] with it. *)
Definition regex_match (r : Regex) (s : string) : option Match := regex_exec r 0 s.

(** [s.replace(r, by)] for [r] without the flag [g]. *)
Definition replace_first (r : Regex) (by_ : string) (s : string) : string :=
  match regex_match r s with
  | Some m => String.substring 0 (m_index m) s +:+ by_ +:+ m_after m
  | None => s
  end.

(** [s.replace(r, by)] for [r] with the flag [g]; [index] is where [s]
    starts in the input.  After an empty match the search resumes one code
    unit further. *)
Fixpoint replace_from (r : Regex) (by_ : string) (fuel index : nat) (s : string) : string :=
  match fuel with
  | O => s
  | S fuel' =>
      match regex_exec r index s with
      | None => s
      | Some m =>
          let before := String.substring 0 (m_index m - index) s in
          let stop := m_index m + String.length (m_text m) in
          match m_text m, m_after m with
          | EmptyString, EmptyString => before +:+ by_
          | EmptyString, String c rest =>
              before +:+ by_ +:+ String c (replace_from r by_ fuel' (S stop) rest)
          | _, after => before +:+ by_ +:+ replace_from r by_ fuel' stop after
          end
      end
  end.

Definition replace_all (r : Regex) (by_ : string) (s : string) : string :=
  replace_from r by_ (S (String.length s)) 0 s.

(** [r1 r2 ... rn] *)
Definition seq_of (rs : list Regex) : Regex := foldr RSeq REmpty rs.

(** ** [lib/gmail.ts]: reading a message *)

Definition dquote : ascii := ascii_of_nat 34.

Definition not_an_object : JsError :=
  mkJsError "TypeError" (Some "Cannot read properties of undefined").

(** An element of [payload.headers]; a field is [None] when it is missing
    or [null]. *)
Record Header := {
  h_name : option string;
  h_value : option string;
}.

(** [headers.find((h) => h.name.toLowerCase() === name.toLowerCase())];
    a header without a name makes the callback throw. *)
Fixpoint find_header (headers : list Header) (name : string) : Outcome (option Header) :=
  match headers with
  | [] => Resolved None
  | h :: rest =>
      match h_name h with
      | None => Rejected not_an_object
      | Some n =>
          if String.eqb (toLowerCase n) (toLowerCase name) then Resolved (Some h)
          else find_header rest name
      end
  end.

(** [x || ''] for a string that may be missing. *)
Definition or_empty (x : option string) : string := default "" x.

Definition extractHeader (headers : list Header) (name : string) : Outcome string :=
  match find_header headers name with
  | Resolved header => Resolved (or_empty (header ≫= h_value))
  | Rejected e => Rejected e
  end.

(** [/<(.+?)>/] *)
Definition address_pattern : Regex :=
  seq_of [RSet (chr "<"); RGroup 1 (RPlus false (RSet dot)); RSet (chr ">")].

(** Group 1 takes part in every match of the pattern. *)
Definition extractEmailAddress (fromHeader : string) : string :=
  match regex_match address_pattern fromHeader with
  | Some m => or_empty (group 1 m)
  | None => fromHeader
  end.

(** [/^\x22?(.+?)\x22?\s*</], with [\x22] for the double quote. *)
Definition name_pattern : Regex :=
  seq_of [RBol; ROpt (RSet (chr dquote)); RGroup 1 (RPlus false (RSet dot));
          ROpt (RSet (chr dquote)); RStar true (RSet is_white_space); RSet (chr "<")].

Definition extractName (fromHeader : string) : option string :=
  match regex_match name_pattern fromHeader with
  | Some m => group 1 m
  | None => None
  end.

(** A message part, and the payload of a message: [mimeType], [headers],
    [body?.data] and [parts], each [None] when missing. *)
Inductive Payload :=
| mkPayload (mimeType : option string) (headers : option (list Header))
    (data : option string) (parts : option (list Payload)).

Definition pl_mimeType (p : Payload) : option string :=
  let 'mkPayload mimeType _ _ _ := p in mimeType.
Definition pl_headers (p : Payload) : option (list Header) :=
  let 'mkPayload _ headers _ _ := p in headers.
Definition pl_data (p : Payload) : option string :=
  let 'mkPayload _ _ data _ := p in data.
Definition pl_parts (p : Payload) : option (list Payload) :=
  let 'mkPayload _ _ _ parts := p in parts.

(** A string that is there and not empty. *)
Definition truthy_string (x : option string) : bool :=
  match x with
  | Some s => negb (String.eqb s "")
  | None => false
  end.

(** [part.mimeType === mime && part.body?.data] *)
Definition is_part (mime : string) (part : Payload) : bool :=
  match pl_mimeType part with
  | Some m => String.eqb m mime && truthy_string (pl_data part)
  | None => false
  end.

(** What [getBody] returns. *)
Record Bodies := {
  b_body : string;
  b_htmlBody : option string;
}.

(** The loop of [getBody] over [payload.parts]; [nested] is [getBody]
    itself, called on a part that has parts of its own. *)
Definition each_part (decodeBase64 : string -> string) (nested : Payload -> Bodies)
    : list Payload -> string -> option string -> Bodies :=
  fix each (parts : list Payload) (body : string) (htmlBody : option string) : Bodies :=
    match parts with
    | [] => {| b_body := body; b_htmlBody := htmlBody |}
    | part :: rest =>
        if is_part "text/plain" part then
          each rest (decodeBase64 (or_empty (pl_data part))) htmlBody
        else if is_part "text/html" part then
          each rest body (Some (decodeBase64 (or_empty (pl_data part))))
        else
          match pl_parts part with
          | Some _ =>
              let nested := nested part in
              let body := if String.eqb body "" then b_body nested else body in
              let htmlBody :=
                if truthy_string htmlBody then htmlBody else b_htmlBody nested in
              each rest body htmlBody
          | None => each rest body htmlBody
          end
    end.

(** [getBody]; [decodeBase64] is the decoder of the module, which turns any
    string into a string. *)
Fixpoint getBody (decodeBase64 : string -> string) (payload : Payload) : Bodies :=
  match pl_parts payload with
  | Some parts => each_part decodeBase64 (getBody decodeBase64) parts "" None
  | None =>
      if truthy_string (pl_data payload)
      then {| b_body := decodeBase64 (or_empty (pl_data payload)); b_htmlBody := None |}
      else {| b_body := ""; b_htmlBody := None |}
  end.

(** The parts of a payload, at any depth. *)
Fixpoint all_parts (payload : Payload) : list Payload :=
  match pl_parts payload with
  | Some parts => flat_map (fun part => part :: all_parts part) parts
  | None => []
  end.

(** [msg.data] of a [users.messages.get] response. *)
Record MessageData := {
  md_id : option string;
  md_threadId : option string;
  md_payload : option Payload;
  md_internalDate : option string;
  md_snippet : option string;
}.

(** The object [fetchRecentEmailsFromClient] builds for a message.  The
    date is the time value of the [Date], [None] for an invalid date. *)
Record FetchedEmail := {
  fe_id : option string;
  fe_threadId : option string;
  fe_subject : string;
  fe_from : string;
  fe_fromName : option string;
  fe_to : string;
  fe_date : option Z;
  fe_snippet : string;
  fe_body : string;
  fe_htmlBody : option string;
}.

(** [new Date(t)] for a number: a time value beyond 8.64e15 ms, or [NaN],
    gives an invalid date. *)
Definition new_Date (t : option Z) : option Z :=
  match t with
  | Some t => if (Z.abs t <=? 8640000000000000)%Z then Some t else None
  | None => None
  end.

(** [x || y] for strings. *)
Definition str_or (x y : string) : string := if String.eqb x "" then y else x.

(** The body of the [try] block in the loop of [fetchRecentEmailsFromClient],
    from the response of [users.messages.get] on. *)
Definition build_email (decodeBase64 : string -> string) (msg : MessageData)
    : Outcome FetchedEmail :=
  let headers := default [] (md_payload msg ≫= pl_headers) in
  match extractHeader headers "from" with
  | Rejected e => Rejected e
  | Resolved fromHeader =>
      match md_payload msg with
      | None => Rejected not_an_object
      | Some payload =>
          let bodies := getBody decodeBase64 payload in
          match extractHeader headers "subject" with
          | Rejected e => Rejected e
          | Resolved subject =>
              match extractHeader headers "to" with
              | Rejected e => Rejected e
              | Resolved to =>
                  Resolved
                    {| fe_id := md_id msg;
                       fe_threadId := md_threadId msg;
                       fe_subject := subject;
                       fe_from := extractEmailAddress fromHeader;
                       fe_fromName := extractName fromHeader;
                       fe_to := to;
                       fe_date := new_Date (parseInt (str_or (or_empty (md_internalDate msg)) "0"));
                       fe_snippet := or_empty (md_snippet msg);
                       fe_body := str_or (b_body bodies) (str_or (or_empty (md_snippet msg)) "");
                       fe_htmlBody := b_htmlBody bodies |}
              end
          end
      end
  end.

(** The Gmail client, as far as the module calls it: what
    [users.messages.list] resolves to ([response.data.messages], each
    element known by its [id]), and what the n-th call of
    [users.messages.get] of a run resolves to. *)
Record GmailApi := {
  messages_list : Z -> string -> Outcome (option (list (option string)));
  messages_get : nat -> option string -> Outcome MessageData;
}.

(** The loop over [messages]; [n] counts the messages gone through. *)
Fixpoint fetch_each (decodeBase64 : string -> string) (gmail : GmailApi) (n : nat)
    (messages : list (option string)) (emails : list FetchedEmail)
    : list FetchedEmail :=
  match messages with
  | [] => emails
  | message_id :: rest =>
      let emails :=
        match messages_get gmail n message_id with
        | Rejected error => emails
        | Resolved msg =>
            match build_email decodeBase64 msg with
            | Rejected error => emails
            | Resolved email => emails ++ [email]
            end
        end in
      fetch_each decodeBase64 gmail (S n) rest emails
  end.

(** [maxResults = 20] and [query = 'in:inbox'] when the caller gives none. *)
Definition fetchRecentEmailsFromClient (decodeBase64 : string -> string)
    (gmail : GmailApi) (maxResults : option Z) (query : option string)
    : Outcome (list FetchedEmail) :=
  match messages_list gmail (default 20%Z maxResults) (default "in:inbox" query) with
  | Rejected e => Rejected e
  | Resolved response_messages =>
      let messages := default [] response_messages in
      Resolved (fetch_each decodeBase64 gmail 0 messages [])
  end.

(** ** [lib/gmail.ts]: [extractUnsubscribeLink] *)

(** [[\x22']], with [\x22] for the double quote. *)
Definition quote_unit : ascii -> bool :=
  fun x => Ascii.eqb x dquote || Ascii.eqb x "'".

(** [/<a[^>]+href=[\x22']([^\x22']+)[\x22'][^>]*>([\s\S]*?)<\/a>/gi] *)
Definition anchorPattern : Regex :=
  seq_of [lit true "<a"; RPlus true (RSet (none_of ">")); lit true "href=";
          RSet quote_unit; RGroup 1 (RPlus true (RSet (fun x => negb (quote_unit x))));
          RSet quote_unit; RStar true (RSet (none_of ">")); lit true ">";
          RGroup 2 (RStar false (RSet any_unit)); lit true "</a>"].

Definition unsubscribeKeywords : list string :=
  ["unsubscribe"; "opt-out"; "opt out"; "optout"; "preferences";
   "manage preferences"; "email preferences"; "subscription"; "manage subscription"].

(** [/<[^>]*>/g] *)
Definition tag_pattern : Regex :=
  seq_of [RSet (chr "<"); RStar true (RSet (none_of ">")); RSet (chr ">")].

(** [/&amp;/g] *)
Definition amp_pattern : Regex := lit false "&amp;".

(** The [while] loop over the matches of [anchorPattern]: [s] is the input
    from [lastIndex] on. *)
Fixpoint anchor_link (fuel lastIndex : nat) (s : string) : option string :=
  match fuel with
  | O => None
  | S fuel' =>
      match regex_exec anchorPattern lastIndex s with
      | None => None
      | Some m =>
          let href := or_empty (group 1 m) in
          let linkText := toLowerCase (replace_all tag_pattern "" (or_empty (group 2 m))) in
          let next :=
            anchor_link fuel' (m_index m + String.length (m_text m)) (m_after m) in
          if existsb (fun keyword => includes keyword linkText) unsubscribeKeywords then
            let cleanHref := trim (replace_all amp_pattern "&" href) in
            if String.prefix "http" cleanHref then Some cleanHref else next
          else next
      end
  end.

(** [[^\s<>\x22]] *)
Definition url_unit : ascii -> bool :=
  fun x => negb (is_white_space x || Ascii.eqb x "<" || Ascii.eqb x ">" || Ascii.eqb x dquote).

(** [/https?:\/\/[^\s<>\x22]+keyword[^\s<>\x22]*/gi] *)
Definition url_pattern (keyword : string) : Regex :=
  seq_of [lit true "http"; ROpt (RSet (chr_i "s")); lit true "://";
          RPlus true (RSet url_unit); lit true keyword; RStar true (RSet url_unit)].

Definition urlPatterns : list Regex :=
  [url_pattern "unsubscribe"; url_pattern "optout"; url_pattern "opt-out";
   url_pattern "preferences"].

(** [/[)>\]]+$/] *)
Definition trailing_pattern : Regex :=
  seq_of [RPlus true (RSet (one_of ")>]")); REol].

(** The [for] loop over [urlPatterns]. *)
Fixpoint first_url (patterns : list Regex) (text : string) : option string :=
  match patterns with
  | [] => None
  | pattern :: rest =>
      match regex_match pattern text with
      | Some m => Some (replace_first trailing_pattern "" (m_text m))
      | None => first_url rest text
      end
  end.

Definition extractUnsubscribeLink (body : string) (htmlBody : option string)
    : option string :=
  let text := if truthy_string htmlBody then or_empty htmlBody else body in
  let from_anchor :=
    if truthy_string htmlBody
    then anchor_link (S (String.length (or_empty htmlBody))) 0 (or_empty htmlBody)
    else None in
  match from_anchor with
  | Some cleanHref => Some cleanHref
  | None => first_url urlPatterns text
  end.

(** ** Reading a match *)

(** Every code unit of [s] is in the set. *)
Fixpoint every (p : ascii -> bool) (s : string) : bool :=
  match s with
  | EmptyString => true
  | String c rest => p c && every p rest
  end.

(** [n] matches in a row, each of them as [once] says, make up [t]. *)
Fixpoint Iterated (once : nat -> string -> string -> Prop) (after : string)
    (n i : nat) (t : string) : Prop :=
  match n with
  | O => t = ""
  | S n' =>
      exists t1 t2, t = t1 +:+ t2 /\ once i t1 (t2 +:+ after)
                    /\ Iterated once after n' (i + String.length t1) t2
  end.

(** [r] can match the text [t] at index [i] of the input, [after] being
    what follows [t]. *)
Fixpoint Matches (r : Regex) (i : nat) (t after : string) : Prop :=
  match r with
  | REmpty => t = ""
  | RSet p => exists c, t = String c "" /\ p c = true
  | RSeq r1 r2 =>
      exists t1 t2, t = t1 +:+ t2 /\ Matches r1 i t1 (t2 +:+ after)
                    /\ Matches r2 (i + String.length t1) t2 after
  | ROpt r1 => t = "" \/ Matches r1 i t after
  | RStar _ r1 => exists n, Iterated (Matches r1) after n i t
  | RGroup _ r1 => Matches r1 i t after
  | RBol => t = "" /\ i = 0
  | REol => t = "" /\ after = ""
  end.

(** What [s.replace(/[)>\]]+$/, '')] leaves: [s] without the closing
    brackets at its end. *)
Fixpoint strip_closers (s : string) : string :=
  match s with
  | EmptyString => EmptyString
  | String c rest =>
      if every (one_of ")>]") s then EmptyString else String c (strip_closers rest)
  end.

(** The code unit [c] does not occur in [s]. *)
Definition lacks (c : ascii) (s : string) : bool := every (fun x => negb (chr c x)) s.

(** The last code unit of [s] is in the set. *)
Fixpoint ends_in (p : ascii -> bool) (s : string) : bool :=
  match s with
  | EmptyString => false
  | String c EmptyString => p c
  | String _ rest => ends_in p rest
  end.

(** [text] is the decoded data of a part of type [mime] among [parts]. *)
Definition comes_from (decodeBase64 : string -> string) (mime : string)
    (parts : list Payload) (text : string) : Prop :=
  exists part, In part parts /\ is_part mime part = true
               /\ text = decodeBase64 (or_empty (pl_data part)).

(** What the loop of [fetchRecentEmailsFromClient] adds for the message
    listed at position [n]: nothing when the message cannot be read. *)
Definition fetched (decodeBase64 : string -> string) (gmail : GmailApi) (n : nat)
    (message_id : option string) : option FetchedEmail :=
  match messages_get gmail n message_id with
  | Rejected _ => None
  | Resolved msg =>
      match build_email decodeBase64 msg with
      | Rejected _ => None
      | Resolved email => Some email
      end
  end.

(** Every header has a name. *)
Definition all_named (headers : list Header) : bool :=
  forallb (fun h => match h_name h with Some _ => true | None => false end) headers.

(** The text begins with the literal, in either case when [ignoreCase]. *)
Fixpoint lit_matches (ignoreCase : bool) (k s : string) : bool :=
  match k, s with
  | EmptyString, _ => true
  | String c k', String x s' =>
      (if ignoreCase then chr_i c x else chr c x) && lit_matches ignoreCase k' s'
  | String _ _, EmptyString => false
  end.

(** [s] without its first [n] code units. *)
Fixpoint drop_units (n : nat) (s : string) : string :=
  match n, s with
  | S n', String _ s' => drop_units n' s'
  | _, _ => s
  end.

(** The scheme of a link. *)
Definition scheme_of (secure : bool) : string :=
  if secure then "https://" else "http://".

(** The keywords of [urlPatterns], in their order. *)
Definition url_keywords : list string :=
  ["unsubscribe"; "optout"; "opt-out"; "preferences"].

(** The end of the name pattern, after the group: [\x22?\s*<]. *)
Definition name_tail : list Regex :=
  [ROpt (RSet (chr dquote)); RStar true (RSet is_white_space); RSet (chr "<")].

(** A plain body, unless empty, and an HTML body, if any, are the decoded
    data of a part among [L]. *)
Definition body_ok (decodeBase64 : string -> string) (L : list Payload) (body : string)
    : Prop :=
  body <> "" -> comes_from decodeBase64 "text/plain" L body.

Definition html_ok (decodeBase64 : string -> string) (L : list Payload)
    (htmlBody : option string) : Prop :=
  forall h, htmlBody = Some h -> comes_from decodeBase64 "text/html" L h.

(** ** Sample messages *)

Definition sample_text : string :=
  "To leave the list, visit (https://example.com/lists/unsubscribe?u=17) today.".

Definition sample_html : string :=
  "<p>News</p><a class='x' href='https://example.com/u?id=1&amp;t=2'>Unsubscribe <b>here</b></a>".

Definition sample_headers : list Header :=
  [ {| h_name := Some "Subject"; h_value := Some "Welcome" |};
    {| h_name := Some "From"; h_value := Some "Alice Smith <alice@example.com>" |};
    {| h_name := Some "To"; h_value := Some "me@example.com" |};
    {| h_name := Some "FROM"; h_value := Some "Mallory <mallory@example.com>" |} ].

(** A decoder that leaves the data as they are. *)
Definition sample_decode : string -> string := fun data => data.

Definition plain_part : Payload :=
  mkPayload (Some "text/plain") None (Some "Hello, see attached.") None.

Definition html_part : Payload :=
  mkPayload (Some "text/html") None (Some "<p>Hello, see attached.</p>") None.

Definition sample_payload : Payload :=
  mkPayload (Some "multipart/alternative") (Some sample_headers) None
    (Some [plain_part; html_part]).

Definition sample_data : MessageData :=
  {| md_id := Some "m1"; md_threadId := Some "t-m1"; md_payload := Some sample_payload;
     md_internalDate := Some "1700000000000"; md_snippet := Some "Hello" |}.

(** Three messages are listed: the first can be read, the second cannot be
    fetched, the third comes without a payload. *)
Definition sample_gmail : GmailApi :=
  {| messages_list := fun _ _ => Resolved (Some [Some "m1"; Some "m2"; Some "m3"]);
     messages_get := fun n id =>
       match n with
       | 0 => Resolved sample_data
       | 1 => Rejected (mkJsError "Error" (Some "Not Found"))
       | _ => Resolved {| md_id := Some "m3"; md_threadId := None; md_payload := None;
                          md_internalDate := None; md_snippet := None |}
       end |}.

Definition sample_fetched : FetchedEmail :=
  {| fe_id := Some "m1"; fe_threadId := Some "t-m1"; fe_subject := "Welcome";
     fe_from := "alice@example.com"; fe_fromName := Some "Alice Smith";
     fe_to := "me@example.com"; fe_date := Some 1700000000000%Z;
     fe_snippet := "Hello"; fe_body := "Hello, see attached.";
     fe_htmlBody := Some "<p>Hello, see attached.</p>" |}.

(** ** [lib/gemini.ts]: the other helpers *)

(** [`${n}`] for a natural number: its decimal digits. *)
Definition Number_toString (n : nat) : string :=
  NilEmpty.string_of_uint (Nat.to_uint n).

Definition newline : string := String (ascii_of_nat 10) EmptyString.

(** [strings.join(separator)] *)
Fixpoint join (separator : string) (strings : list string) : string :=
  match strings with
  | [] => ""
  | [s] => s
  | s :: rest => s +:+ separator +:+ join separator rest
  end.

Definition category_line (idx : nat) (c : Category) : string :=
  Number_toString (idx + 1) +:+ ". " +:+ cat_name c +:+ " (ID: " +:+ cat_id c +:+ "): "
    +:+ cat_description c.

Definition categorize_prompt (email : EmailInput) (categories : list Category) : string :=
  "You are an email categorization assistant. Analyze the email below and determine which category best matches it.

Categories:
" +:+ join newline (imap category_line categories) +:+ "

Email Details:
Subject: " +:+ in_subject email +:+ "
From: " +:+ display_from email +:+ "
Snippet: " +:+ in_snippet email +:+ "

Respond with ONLY the category ID that best matches. If none match well, respond with "
  +:+ dq +:+ "none" +:+ dq +:+ ".".

Definition categorizeEmail (email : EmailInput) (categories : list Category)
    : Prog (option string) :=
  if Nat.eqb (length categories) 0 then Ret None
  else
    let prompt := categorize_prompt email categories in
    try_catch
      (let* text := perform (GenerateContent prompt) in
       let response := trim text in
       let validCategory := List.find (fun c => includes (cat_id c) response) categories in
       Ret (match validCategory with
            | Some c => Some (cat_id c)
            | None => None
            end))
      (fun error => Ret None).

Definition summary_prompt (body subject : string) : string :=
  "Summarize this email in 1-2 concise sentences. Focus on the key message and any action items.

Subject: " +:+ subject +:+ "

Body:
" +:+ String.substring 0 2000 body +:+ "

Provide a clear, actionable summary:".

Definition summarizeEmail (body subject : string) : Prog string :=
  let prompt := summary_prompt body subject in
  try_catch
    (let* text := perform (GenerateContent prompt) in
     Ret (trim text))
    (fun error => Ret "Unable to generate summary").

(** An element of the argument of [analyzeBulkDeleteSafety]. *)
Record BulkEmail := {
  be_id : string;
  be_subject : string;
  be_from : string;
  be_snippet : string;
  be_body : string;
}.

Definition bulk_line (idx : nat) (e : BulkEmail) : string :=
  Number_toString (idx + 1) +:+ ". [ID: " +:+ be_id e +:+ "] From: " +:+ be_from e
    +:+ " | Subject: " +:+ be_subject e +:+ " | Snippet: "
    +:+ String.substring 0 100 (be_snippet e).

Definition bulk_prompt (emails : list BulkEmail) : string :=
  let emailList := join newline (imap bulk_line emails) in
  "You are a safety assistant helping prevent accidental deletion of important emails. Analyze this list of emails the user wants to delete.

Identify which emails might be important to keep because they contain:
- Order confirmations or tracking information
- Meeting invitations or calendar events
- Messages from important contacts (managers, clients, family)
- Account or password information
- Bills or financial documents
- Anything time-sensitive or with deadlines

Emails to analyze:
" +:+ emailList +:+ "

Respond in JSON format:
{
  " +:+ dq +:+ "safeToDelete" +:+ dq +:+ ": [" +:+ dq +:+ "id1" +:+ dq +:+ ", "
  +:+ dq +:+ "id2" +:+ dq +:+ "],
  " +:+ dq +:+ "shouldReview" +:+ dq +:+ ": [
    {" +:+ dq +:+ "id" +:+ dq +:+ ": " +:+ dq +:+ "id3" +:+ dq +:+ ", "
  +:+ dq +:+ "reason" +:+ dq +:+ ": " +:+ dq +:+ "Contains order confirmation" +:+ dq +:+ "},
    {" +:+ dq +:+ "id" +:+ dq +:+ ": " +:+ dq +:+ "id4" +:+ dq +:+ ", "
  +:+ dq +:+ "reason" +:+ dq +:+ ": " +:+ dq +:+ "From your manager" +:+ dq +:+ "}
  ]
}".

(** The object [analyzeBulkDeleteSafety] returns. *)
Record BulkSafety := {
  safeToDelete : Json;
  shouldReview : Json;
}.

(** "Conservative default: flag all for review". *)
Definition review_all (emails : list BulkEmail) : BulkSafety :=
  {| safeToDelete := JArray [];
     shouldReview :=
       JArray (map (fun e => JObject [("id", JString (be_id e));
                                      ("reason", JString "Unable to analyze - please review manually")])
                   emails) |}.

Definition analyzeBulkDeleteSafety (emails : list BulkEmail) : Prog BulkSafety :=
  let prompt := bulk_prompt emails in
  let* returned :=
    try_catch
      (let* text := perform (GenerateContent prompt) in
       let response := trim text in
       match json_match response with
       | Some matched =>
           let* parsed := perform (JSONParse matched) in
           let* parsed_safeToDelete := of_outcome (js_get parsed "safeToDelete") in
           let* parsed_shouldReview := of_outcome (js_get parsed "shouldReview") in
           Ret (Some {| safeToDelete := js_or parsed_safeToDelete (JArray []);
                        shouldReview := js_or parsed_shouldReview (JArray []) |})
       | None => Ret None
       end)
      (fun error => Ret None) in
  match returned with
  | Some result => Ret result
  | None => Ret (review_all emails)
  end.

(** An element of [recentEmails]. *)
Record SenderEmail := {
  se_subject : string;
  se_snippet : string;
}.

Definition sample_line (idx : nat) (e : SenderEmail) : string :=
  Number_toString (idx + 1) +:+ ". " +:+ se_subject e +:+ " - "
    +:+ String.substring 0 100 (se_snippet e).

Definition sender_prompt (senderEmail : string) (recentEmails : list SenderEmail) : string :=
  let emailSamples := join newline (imap sample_line (take 5 recentEmails)) in
  "Based on these recent emails from " +:+ senderEmail +:+ ", write a 1-sentence description of what kind of sender this is and the value of their emails.

Recent emails:
" +:+ emailSamples +:+ "

Provide a concise, helpful description:".

Definition generateSenderSummary (senderEmail : string) (recentEmails : list SenderEmail)
    : Prog string :=
  let prompt := sender_prompt senderEmail recentEmails in
  try_catch
    (let* text := perform (GenerateContent prompt) in
     Ret (trim text))
    (fun error => Ret "Regular sender").

(** ** Sample prompts and answers *)

(** An environment whose model answers every prompt with [text]. *)
Definition answering_env (text : string) : Env :=
  {| env_random := fun _ => (1 # 2)%Q;
     env_analyze := fun _ _ _ => Resolved sample_analysis;
     env_generate := fun _ _ => Resolved text;
     env_JSON_parse := fun _ => Rejected (mkJsError "SyntaxError" (Some "Unexpected token"));
     env_extractUnsubscribeLink := fun _ _ => None;
     env_fault := fun _ => None;
     env_categories := fun _ => Resolved [];
     env_gmailAccounts := fun _ => Resolved [];
     env_gmailClient := fun account => Resolved (acct_id account);
     env_inboxOfClient := fun _ _ => Resolved [];
     env_inbox := fun _ _ => Resolved [];
     env_archive := fun _ => Resolved tt |}.

Definition work_category : Category :=
  {| cat_id := "cat-work"; cat_name := "Work"; cat_description := "From colleagues" |}.

Definition news_category : Category :=
  {| cat_id := "cat-news"; cat_name := "News"; cat_description := "Newsletters" |}.

(** One e-mail the user wants to delete, with the given body. *)
Definition sample_bulk (body : string) : list BulkEmail :=
  [ {| be_id := "e1"; be_subject := "Your order"; be_from := "shop@example.com";
       be_snippet := "Thank you for your order"; be_body := body |} ].

(** ** More about a run *)

Definition is_archive {X} (op : Op X) : bool :=
  match op with
  | ArchiveEmailWithClient _ _ | ArchiveEmail _ _ => true
  | _ => false
  end.

Definition is_archive_event (e : Origin * Event) : bool :=
  match snd e with EvArchive _ => true | _ => false end.

(** The events of a trace that are calls of the analysis service come from
    callbacks, for messages that have no row in [rows]. *)
Definition analyses_new (rows : list EmailRow) (tr : list (Origin * Event)) : Prop :=
  forall o email, In (o, EvAnalyze email) tr ->
    exists a gmailMsg, o = Task a /\ email = email_input gmailMsg
                       /\ find_email (msg_id gmailMsg) rows = None.

(** What a run for [userId] on day [today] may perform, the callbacks
    being those of messages that have no row in [rows]. *)
Definition new_run_pol (rows : list EmailRow) (userId : string) (today : Z)
    (o : Origin) (X : Type) (op : Op X) : Prop :=
  match o with
  | Main => run_pol userId today Main X op
  | Task _ =>
      exists gmailMsg, item_pol gmailMsg X op
                       /\ find_email (msg_id gmailMsg) rows = None
  end.

(** [env], with another answer to archiving. *)
Definition with_archive (env : Env) (archive : string -> Outcome unit) : Env :=
  {| env_random := env_random env;
     env_analyze := env_analyze env;
     env_generate := env_generate env;
     env_JSON_parse := env_JSON_parse env;
     env_extractUnsubscribeLink := env_extractUnsubscribeLink env;
     env_fault := env_fault env;
     env_categories := env_categories env;
     env_gmailAccounts := env_gmailAccounts env;
     env_gmailClient := env_gmailClient env;
     env_inboxOfClient := env_inboxOfClient env;
     env_inbox := env_inbox env;
     env_archive := archive |}.

(** The program goes on in the same way whatever an archive operation
    answers. *)
Fixpoint archive_blind {A} (p : Prog A) : Prop :=
  match p with
  | Await op k =>
      (is_archive op = true -> forall r r', k r = k r')
      /\ forall r, archive_blind (k r)
  | _ => True
  end.

(** The sum of the durations. *)
Definition total (durations : list Q) : Q := fold_right Qplus 0%Q durations.

(** * Properties *)

(** ** The interpreter *)

Section Exec.
Context (env : Env) (o : Origin).

Lemma exec_bind {A B} (p : Prog A) (f : A -> Prog B) (w : World) :
  exec env o (bind p f) w =
  match exec env o p w with
  | (Resolved a, w') => exec env o (f a) w'
  | (Rejected e, w') => (Rejected e, w')
  end.
Proof.
  revert w. induction p as [a|e|X op k IH]; intros w; simpl; try reflexivity.
  destruct (handle env o op w) as [r w']. apply IH.
Qed.

Lemma exec_try_catch {A} (p : Prog A) (h : JsError -> Prog A) (w : World) :
  exec env o (try_catch p h) w =
  match exec env o p w with
  | (Resolved a, w') => (Resolved a, w')
  | (Rejected e, w') => exec env o (h e) w'
  end.
Proof.
  revert w. induction p as [a|e|X op k IH]; intros w; simpl; try reflexivity.
  destruct (handle env o op w) as [r w']. apply IH.
Qed.

Lemma exec_perform {X} (op : Op X) (w : World) :
  exec env o (perform op) w = handle env o op w.
Proof.
  simpl. destruct (handle env o op w) as [[x|e] w']; reflexivity.
Qed.
End Exec.

(** ** The handler *)

Section Handler.
Context (env : Env) (o : Origin).

Lemma guarded_log {X} (w : World) (act : World -> Outcome X * World) :
  (forall w1, w_log (snd (act w1)) = w_log w1) ->
  w_log (snd (guarded env w act)) = w_log w.
Proof.
  intros H. unfold guarded. destruct (env_fault env (w_store w)); simpl; [done|].
  by rewrite H.
Qed.

Lemma create_email_log data w : w_log (snd (create_email data w)) = w_log w.
Proof. unfold create_email. by destruct (find_email _ _). Qed.

(** Every operation writes exactly one entry to the trace. *)
Lemma handle_log {X} (op : Op X) (w : World) :
  w_log (snd (handle env o op w)) = w_log w ++ [(o, event_of op)].
Proof.
  destruct op; simpl; try reflexivity;
    rewrite guarded_log; try reflexivity; intros w1; simpl; try reflexivity.
  apply create_email_log.
Qed.
End Handler.

(** ** [retryWithBackoff] *)

Section Retry.
Context (env : Env) (o : Origin) (email : EmailInput) (categories : list Category).

Lemma exec_fn (w : World) :
  exec env o (perform (AnalyzeEmailComplete email categories)) w =
  (env_analyze env (w_calls w) email categories,
   bump_calls (record_event o (EvAnalyze email) w)).
Proof. rewrite exec_perform. reflexivity. Qed.

(** One more iteration of the loop. *)
Lemma retry_from_S (maxRetries : nat) (base : Q) (remaining attempt : nat) (w : World) :
  exec env o (retry_from (perform (AnalyzeEmailComplete email categories)) maxRetries base (S remaining) attempt) w =
  let w1 := bump_calls (record_event o (EvAnalyze email) w) in
  match env_analyze env (w_calls w) email categories with
  | Resolved r => (Resolved r, w1)
  | Rejected error =>
      if negb (is429 error) || Nat.eqb attempt (maxRetries - 1)
      then (Rejected error, w1)
      else
        let d := (backoff base attempt + env_random env (w_draws w) * 1000)%Q in
        exec env o (retry_from (perform (AnalyzeEmailComplete email categories)) maxRetries base remaining (S attempt))
             (record_event o (EvSleep d) (bump_draws (record_event o EvRandom w1)))
  end.
Proof.
  cbn [retry_from]. rewrite exec_try_catch, exec_fn.
  destruct (env_analyze env (w_calls w) email categories) as [r|error]; [done|].
  cbv zeta. destruct (negb (is429 error) || Nat.eqb attempt (maxRetries - 1)); [done|].
  reflexivity.
Qed.
End Retry.

Lemma invocations_in_app (tr1 tr2 : list (Origin * Event)) :
  invocations_in (tr1 ++ tr2) = invocations_in tr1 + invocations_in tr2.
Proof. unfold invocations_in. by rewrite List.filter_app, length_app. Qed.

Lemma new_events_app (w w' : World) (tr : list (Origin * Event)) :
  w_log w' = w_log w ++ tr -> new_events w w' = tr.
Proof. intros H. unfold new_events. rewrite H. by rewrite drop_app_length. Qed.

Section RetryTrace.
Context (env : Env) (o : Origin) (email : EmailInput) (base : Q).

Lemma sleeps_backoff_trace (attempt draws k : nat) :
  sleeps_in (backoff_trace o env email base attempt draws k) =
  map (fun n => (backoff base (attempt + n) + env_random env (draws + n) * 1000)%Q)
      (seq 0 k).
Proof.
  revert attempt draws. induction k as [|k IH]; intros attempt draws; [done|].
  cbn [backoff_trace sleeps_in snd seq map]. rewrite IH, !Nat.add_0_r. f_equal.
  rewrite <- seq_shift, map_map. apply map_ext. intros n.
  by rewrite !Nat.add_succ_r.
Qed.

Lemma invocations_backoff_trace (attempt draws k : nat) :
  invocations_in (backoff_trace o env email base attempt draws k) = S k.
Proof.
  revert attempt draws. induction k as [|k IH]; intros attempt draws; [done|].
  change (invocations_in (backoff_trace o env email base attempt draws (S k)))
    with (S (invocations_in (backoff_trace o env email base (S attempt) (S draws) k))).
  by rewrite IH.
Qed.
End RetryTrace.

Section RetrySuccess.
Context (env : Env) (o : Origin) (email : EmailInput) (categories : list Category).
Context (maxRetries : nat) (base : Q).

(** [k] rate-limited failures, none of them on the last attempt, then a
    success: the loop returns it and leaves exactly the trace
    [backoff_trace]. *)
Lemma retry_from_backoff (k : nat) :
  forall (remaining attempt : nat) (w : World) (r : Analysis),
    k < remaining ->
    attempt + remaining = maxRetries ->
    (forall i, i < k ->
       exists e, env_analyze env (w_calls w + i) email categories = Rejected e /\
                 is429 e = true) ->
    env_analyze env (w_calls w + k) email categories = Resolved r ->
    exists w',
      exec env o (retry_from (perform (AnalyzeEmailComplete email categories)) maxRetries base remaining attempt) w = (Resolved r, w') /\
      w_log w' = w_log w ++ backoff_trace o env email base attempt (w_draws w) k /\
      w_calls w' = w_calls w + S k /\
      w_draws w' = w_draws w + k /\
      w_emails w' = w_emails w /\
      w_errors w' = w_errors w.
Proof.
  induction k as [|k IH]; intros remaining attempt w r Hk Hsum Hfail Hok.
  - destruct remaining as [|remaining]; [lia|].
    rewrite retry_from_S. rewrite Nat.add_0_r in Hok. rewrite Hok.
    eexists. split; [reflexivity|]. simpl. repeat split; lia.
  - destruct remaining as [|remaining]; [lia|].
    destruct (Hfail 0) as (e & He & H429); [lia|].
    rewrite Nat.add_0_r in He.
    rewrite retry_from_S, He, H429. simpl negb. simpl orb.
    assert (Nat.eqb attempt (maxRetries - 1) = false) as ->
      by (apply Nat.eqb_neq; lia).
    cbv zeta.
    set (w2 := record_event o _ _).
    destruct (IH remaining (S attempt) w2 r) as (w' & Hex & Hlog & Hc & Hd & Hem & Her).
    + lia.
    + lia.
    + intros i Hi. destruct (Hfail (S i)) as (e' & He' & H'); [lia|].
      exists e'. split; [|done]. rewrite <- He'. f_equal. simpl. lia.
    + rewrite <- Hok. f_equal. simpl. lia.
    + exists w'. split; [exact Hex|].
      rewrite Hlog, Hc, Hd, Hem, Her. simpl.
      repeat split; try lia.
      rewrite <- !app_assoc. reflexivity.
Qed.
End RetrySuccess.



Section RetryFailure.
Context (env : Env) (o : Origin) (email : EmailInput) (categories : list Category).
Context (maxRetries : nat) (base : Q).

(** The loop calls the operation at most once per iteration. *)
Lemma retry_from_invocations (remaining : nat) :
  forall (attempt : nat) (w : World),
    exists tr,
      w_log (snd (exec env o (retry_from (perform (AnalyzeEmailComplete email categories)) maxRetries base remaining attempt) w))
      = w_log w ++ tr /\
      invocations_in tr <= remaining.
Proof.
  induction remaining as [|remaining IH]; intros attempt w.
  - exists []. simpl. by rewrite app_nil_r.
  - rewrite retry_from_S. cbv zeta.
    destruct (env_analyze env (w_calls w) email categories) as [r|error].
    + exists [(o, EvAnalyze email)]. simpl. split; [done|]. cbv. lia.
    + destruct (negb (is429 error) || Nat.eqb attempt (maxRetries - 1)).
      * exists [(o, EvAnalyze email)]. simpl. split; [done|]. cbv. lia.
      * match goal with |- context [exec env o _ ?w2] =>
          destruct (IH (S attempt) w2) as (tr & Htr & Hle) end.
        eexists ([(o, EvAnalyze email); (o, EvRandom); (o, EvSleep _)] ++ tr).
        split.
        -- rewrite Htr. simpl. rewrite <- !app_assoc. reflexivity.
        -- rewrite invocations_in_app. change (invocations_in [_; _; _]) with 1. lia.
Qed.

(** An error that is not a rate limit is rethrown at once. *)
Lemma retry_from_fatal (remaining attempt : nat) (w : World) (e : JsError) :
  env_analyze env (w_calls w) email categories = Rejected e ->
  is429 e = false ->
  exec env o (retry_from (perform (AnalyzeEmailComplete email categories)) maxRetries base (S remaining) attempt) w =
  (Rejected e, bump_calls (record_event o (EvAnalyze email) w)).
Proof.
  intros He H429. rewrite retry_from_S, He, H429. reflexivity.
Qed.

(** Rate limited on every attempt: the error of the last attempt comes
    out. *)
Lemma retry_from_exhausted (remaining : nat) :
  forall (attempt : nat) (w : World) (e_last : JsError),
    attempt + S remaining = maxRetries ->
    (forall i, i < S remaining ->
       exists e, env_analyze env (w_calls w + i) email categories = Rejected e /\
                 is429 e = true) ->
    env_analyze env (w_calls w + remaining) email categories = Rejected e_last ->
    exists w',
      exec env o (retry_from (perform (AnalyzeEmailComplete email categories)) maxRetries base (S remaining) attempt) w
      = (Rejected e_last, w') /\
      w_log w' = w_log w ++ backoff_trace o env email base attempt (w_draws w) remaining.
Proof.
  induction remaining as [|remaining IH]; intros attempt w e_last Hsum Hall Hlast.
  - rewrite Nat.add_0_r in Hlast. rewrite retry_from_S, Hlast.
    assert (Nat.eqb attempt (maxRetries - 1) = true) as ->
      by (apply Nat.eqb_eq; lia).
    rewrite orb_true_r. eexists. split; reflexivity.
  - destruct (Hall 0) as (e & He & H429); [lia|]. rewrite Nat.add_0_r in He.
    rewrite retry_from_S, He, H429. simpl negb. simpl orb.
    assert (Nat.eqb attempt (maxRetries - 1) = false) as ->
      by (apply Nat.eqb_neq; lia).
    cbv zeta. set (w2 := record_event o _ _).
    destruct (IH (S attempt) w2 e_last) as (w' & Hex & Hlog).
    + lia.
    + intros i Hi. destruct (Hall (S i)) as (e' & He' & H'); [lia|].
      exists e'. split; [|done]. rewrite <- He'. f_equal. simpl. lia.
    + rewrite <- Hlast. f_equal. simpl. lia.
    + exists w'. split; [exact Hex|]. rewrite Hlog. simpl.
      rewrite <- !app_assoc. reflexivity.
Qed.
End RetryFailure.

(** C2.  [retryWithBackoff] invokes the operation at most [maxRetries]
    times; an error that is not rate limited on the first attempt ends the
    run after exactly one invocation and is propagated as it is; when all
    [maxRetries] invocations are rate limited, the error propagated is the
    one of the last invocation, not 'Max retries exceeded'. *)
Theorem retryWithBackoff_failures
    (env : Env) (o : Origin) (email : EmailInput) (categories : list Category)
    (maxRetries : nat) (base : Q) (w : World) :
  let run := exec env o (retryWithBackoff (perform (AnalyzeEmailComplete email categories))
                           maxRetries base) w in
  invocations_in (new_events w (snd run)) <= maxRetries /\
  (forall e,
     1 <= maxRetries ->
     env_analyze env (w_calls w) email categories = Rejected e ->
     is429 e = false ->
     fst run = Rejected e /\
     invocations_in (new_events w (snd run)) = 1 /\
     sleeps_in (new_events w (snd run)) = []) /\
  (forall e_last,
     1 <= maxRetries ->
     (forall i, i < maxRetries ->
        exists e, env_analyze env (w_calls w + i) email categories = Rejected e /\
                  is429 e = true) ->
     env_analyze env (w_calls w + (maxRetries - 1)) email categories = Rejected e_last ->
     fst run = Rejected e_last /\
     invocations_in (new_events w (snd run)) = maxRetries).
Proof.
  cbv zeta. unfold retryWithBackoff. split; [|split].
  - destruct (retry_from_invocations env o email categories maxRetries base
                maxRetries 0 w) as (tr & Htr & Hle).
    by rewrite (new_events_app _ _ _ Htr).
  - intros e Hmax He H429. destruct maxRetries as [|m]; [lia|].
    rewrite (retry_from_fatal env o email categories (S m) base m 0 w e He H429).
    simpl. rewrite (new_events_app w _ [(o, EvAnalyze email)]) by done. done.
  - intros e_last Hmax Hall Hlast. destruct maxRetries as [|m]; [lia|].
    replace (S m - 1) with m in Hlast by lia.
    destruct (retry_from_exhausted env o email categories (S m) base m 0 w e_last)
      as (w' & Hex & Hlog); [lia|done|done|].
    rewrite Hex. simpl. split; [done|].
    by rewrite (new_events_app _ _ _ Hlog), invocations_backoff_trace.
Qed.

Lemma retryWithBackoff_failures_witness :
  let fn := perform (AnalyzeEmailComplete (email_input (sample_message "m1" "Q3")) []) in
  let fatal := exec (sample_env (always_rejects server_error) (Resolved [])) Main
                 (retryWithBackoff fn 5 1000%Q) empty_world in
  let limited := exec (sample_env (always_rejects rate_limit_error) (Resolved [])) Main
                   (retryWithBackoff fn 5 1000%Q) empty_world in
  (fst fatal = Rejected server_error /\
   invocations_in (new_events empty_world (snd fatal)) = 1 /\
   sleeps_in (new_events empty_world (snd fatal)) = []) /\
  (fst limited = Rejected rate_limit_error /\
   invocations_in (new_events empty_world (snd limited)) = 5).
Proof.
  cbv zeta. split.
  - destruct (retryWithBackoff_failures
                (sample_env (always_rejects server_error) (Resolved [])) Main
                (email_input (sample_message "m1" "Q3")) [] 5 1000%Q empty_world)
      as (_ & Hfatal & _).
    apply Hfatal; [lia|reflexivity|reflexivity].
  - destruct (retryWithBackoff_failures
                (sample_env (always_rejects rate_limit_error) (Resolved [])) Main
                (email_input (sample_message "m1" "Q3")) [] 5 1000%Q empty_world)
      as (_ & _ & Hlimited).
    apply Hlimited; [lia| |reflexivity].
    intros i _. exists rate_limit_error. split; reflexivity.
Defined.

(** ** [calculatePriorityScore] and [detectImportantInfo] *)

(** C7.  The importance score is always an integer in [0, 100] and
    [calculatePriorityScore] never throws: a response that [parseInt] reads
    as [n] gives [min(100, max(0, n))]; a response it cannot read, or a
    failing call, gives 50. *)
Theorem calculatePriorityScore_clamped
    (env : Env) (o : Origin) (email : EmailInput) (w : World) :
  exists score w',
    exec env o (calculatePriorityScore email) w = (Resolved score, w') /\
    (0 <= score <= 100)%Z /\
    match env_generate env (w_calls w) (priority_prompt email) with
    | Resolved text =>
        match parseInt (trim text) with
        | Some n => score = Z.min 100 (Z.max 0 n)
        | None => score = 50%Z
        end
    | Rejected _ => score = 50%Z
    end.
Proof.
  unfold calculatePriorityScore. rewrite exec_try_catch, exec_bind, exec_perform.
  cbn [handle event_of]. set (w1 := record_event _ _ _).
  change (w_calls w1) with (w_calls w).
  destruct (env_generate env (w_calls w) (priority_prompt email)) as [text|e]; simpl.
  - destruct (parseInt (trim text)) as [n|]; do 2 eexists; (split; [reflexivity|]);
      split; try done; lia.
  - do 2 eexists. split; [reflexivity|]. split; [lia|done].
Qed.

Example priority_not_a_number :
  fst (exec (sample_env (limited_then_ok 0) (Resolved [])) Main
         (calculatePriorityScore (email_input (sample_message "m1" "Q3"))) empty_world)
  = Resolved 50%Z.
Proof. reflexivity. Qed.

Example parseInt_examples :
  parseInt "85" = Some 85%Z /\ parseInt "  150 points" = Some 150%Z /\
  parseInt "-5" = Some (-5)%Z /\ parseInt "0x1f" = Some 31%Z /\
  parseInt "not a number" = None /\ parseInt "" = None /\ parseInt "0x" = None.
Proof. repeat split. Qed.

(** C8.  [detectImportantInfo] never throws, and a response without a match
    for the JSON object, a failing [JSON.parse] or a failing call all give
    [{hasImportant: false, flags: []}]. *)
Theorem detectImportantInfo_never_throws
    (env : Env) (o : Origin) (body : string) (w : World) :
  exists info w',
    exec env o (detectImportantInfo body) w = (Resolved info, w') /\
    match env_generate env (w_calls w) (important_prompt body) with
    | Rejected _ => info = no_important_info
    | Resolved text =>
        match json_match (trim text) with
        | None => info = no_important_info
        | Some matched =>
            match env_JSON_parse env matched with
            | Rejected _ => info = no_important_info
            | Resolved parsed =>
                match js_get parsed "hasImportant", js_get parsed "flags" with
                | Resolved h, Resolved f =>
                    info = {| ii_hasImportant := js_or h (JBool false);
                              ii_flags := js_or f (JArray []) |}
                | _, _ => info = no_important_info
                end
            end
        end
    end.
Proof.
  unfold detectImportantInfo. rewrite exec_bind, exec_try_catch, exec_bind, exec_perform.
  cbn [handle event_of]. set (w1 := record_event _ _ _).
  change (w_calls w1) with (w_calls w).
  destruct (env_generate env (w_calls w) (important_prompt body)) as [text|e]; simpl;
    [|by do 2 eexists].
  destruct (json_match (trim text)) as [matched|]; simpl; [|by do 2 eexists].
  destruct (env_JSON_parse env matched) as [parsed|e]; simpl; [|by do 2 eexists].
  destruct parsed; simpl; by do 2 eexists.
Qed.

Example json_match_examples :
  json_match "Sure: {a} and {b}." = Some "{a} and {b}" /\
  json_match "} {" = None /\ json_match "no braces" = None.
Proof. repeat split. Qed.

(** ** Programs within a policy *)

Section Within.
Context (pol : forall X, Op X -> Prop).

Lemma Within_mono {A} (pol' : forall X, Op X -> Prop) (post post' : A -> Prop)
    (p : Prog A) :
  (forall X (op : Op X), pol X op -> pol' X op) ->
  (forall a, post a -> post' a) ->
  Within pol post p -> Within pol' post' p.
Proof.
  intros Hpol Hpost. induction p as [a|e|X op k IH]; simpl; auto.
  intros [Hop Hk]. split; auto.
Qed.

Lemma Within_bind {A B} (post : A -> Prop) (post' : B -> Prop)
    (p : Prog A) (f : A -> Prog B) :
  Within pol post p ->
  (forall a, post a -> Within pol post' (f a)) ->
  Within pol post' (bind p f).
Proof.
  intros Hp Hf. induction p as [a|e|X op k IH]; simpl in *; auto.
  destruct Hp as [Hop Hk]. split; auto.
Qed.

Lemma Within_try_catch {A} (post : A -> Prop) (p : Prog A) (h : JsError -> Prog A) :
  Within pol post p ->
  (forall e, Within pol post (h e)) ->
  Within pol post (try_catch p h).
Proof.
  intros Hp Hh. induction p as [a|e|X op k IH]; simpl in *; auto.
  destruct Hp as [Hop Hk]. split; auto.
Qed.

Lemma Within_perform {X} (post : X -> Prop) (op : Op X) :
  pol X op -> (forall x, post x) -> Within pol post (perform op).
Proof. intros Hop Hpost. simpl. split; [done|]. intros [x|e]; simpl; auto. Qed.

Lemma Within_retry_from {T} (post : T -> Prop) (fn : Prog T)
    (maxRetries : nat) (base : Q) (remaining attempt : nat) :
  pol _ MathRandom -> (forall ms, pol _ (Sleep ms)) ->
  Within pol post fn ->
  Within pol post (retry_from fn maxRetries base remaining attempt).
Proof.
  intros Hrandom Hsleep Hfn. revert attempt.
  induction remaining as [|remaining IH]; intros attempt; [done|].
  cbn [retry_from]. apply Within_try_catch; [done|]. intros e.
  destruct (negb (is429 e) || Nat.eqb attempt (maxRetries - 1)); [done|].
  eapply Within_bind; [apply Within_perform with (post := fun _ => True); done|].
  intros random _.
  eapply Within_bind; [apply Within_perform with (post := fun _ => True); done|].
  intros _ _. apply IH.
Qed.
End Within.

(** ** Invariants of the world *)

Section Respects.
Context (env : Env).

Context (pol : Origin -> forall X, Op X -> Prop) (I : World -> Prop).
Hypothesis Hrespects : respects env pol I.

Lemma exec_respects {A} (o : Origin) (post : A -> Prop) (p : Prog A) (w : World) :
  Within (pol o) post p -> I w -> I (snd (exec env o p w)).
Proof.
  revert w. induction p as [a|e|X op k IH]; intros w Hp Hw; simpl in *; auto.
  destruct Hp as [Hop Hk]. specialize (Hrespects o X op w Hop Hw).
  destruct (handle env o op w) as [r w']. simpl in *. by apply IH.
Qed.

End Respects.

(** ** Invariants of a pool of callbacks *)

Section Pool.
Context (env : Env) {A : Type}.

Lemma step_fst (j : Job A) (w : World) : fst (fst (step env j w)) = fst j.
Proof.
  unfold step. destruct j as [a [x|e|X op k]]; simpl; try done.
  by destruct (handle env (Task a) op w).
Qed.

Lemma step_nth_spec (n : nat) (pool : list (Job A)) (w : World) :
  (exists pre j post,
      pool = pre ++ j :: post /\
      step_nth env n pool w
      = (pre ++ fst (step env j w) :: post, snd (step env j w))) \/
  step_nth env n pool w = (pool, w).
Proof.
  revert n. induction pool as [|j pool IH]; intros n; [right; by destruct n|].
  destruct n as [|n]; simpl.
  - left. exists [], j, pool. split; [done|]. by destruct (step env j w).
  - destruct (IH n) as [(pre & j' & post & -> & Heq)| Heq]; rewrite Heq.
    + left. by exists (j :: pre), j', post.
    + by right.
Qed.

Lemma step_nth_tags (n : nat) (pool : list (Job A)) (w : World) :
  map fst (fst (step_nth env n pool w)) = map fst pool.
Proof.
  destruct (step_nth_spec n pool w) as [(pre & j & post & -> & ->)| ->]; [|done].
  simpl. by rewrite !map_app, !map_cons, step_fst.
Qed.

Lemma run_schedule_tags (sched : list nat) (pool : list (Job A)) (w : World) :
  map fst (fst (run_schedule env sched pool w)) = map fst pool.
Proof.
  revert pool w. induction sched as [|c sched IH]; intros pool w; [done|].
  simpl. pose proof (step_nth_tags c pool w) as Ht.
  destruct (step_nth env c pool w) as [pool' w']. simpl in Ht.
  by rewrite IH.
Qed.

Lemma settle_all_length (pool : list (Job A)) (w : World) :
  length (fst (settle_all env pool w)) = length pool.
Proof.
  revert w. induction pool as [|j pool IH]; intros w; [done|].
  simpl. destruct (exec env (Task (fst j)) (snd j) w) as [r w'].
  specialize (IH w'). destruct (settle_all env pool w') as [rs w''].
  simpl in *. by rewrite IH.
Qed.

Lemma zip_with_settle_tags (pool pool' : list (Job A)) (rs : list (Outcome A)) :
  map fst pool' = map fst pool ->
  zip_with settle pool' rs = zip_with settle pool rs.
Proof.
  revert pool rs. induction pool' as [|j' pool' IH]; intros [|j pool] rs Ht;
    try done.
  destruct rs as [|r rs]; [done|]. simpl in *.
  injection Ht as Hj Ht. unfold settle at 1 3. rewrite Hj. f_equal. by apply IH.
Qed.

Context (PI : World -> list (Job A) -> Prop).
Hypothesis PI_step : forall pre j post w,
  PI w (pre ++ j :: post) ->
  PI (snd (step env j w)) (pre ++ fst (step env j w) :: post).

Lemma step_nth_inv (n : nat) (pool : list (Job A)) (w : World) :
  PI w pool ->
  PI (snd (step_nth env n pool w)) (fst (step_nth env n pool w)).
Proof.
  intros H. destruct (step_nth_spec n pool w) as [(pre & j & post & -> & ->)| ->];
    [|done].
  by apply PI_step.
Qed.

Lemma run_schedule_inv (sched : list nat) (pool : list (Job A)) (w : World) :
  PI w pool ->
  PI (snd (run_schedule env sched pool w)) (fst (run_schedule env sched pool w)).
Proof.
  revert pool w. induction sched as [|c sched IH]; intros pool w H; [done|].
  simpl. pose proof (step_nth_inv c pool w H) as H'.
  destruct (step_nth env c pool w) as [pool' w']. by apply IH.
Qed.

Lemma settle_all_inv (pool : list (Job A)) :
  forall (pre : list (Job A)) (w : World),
    PI w (pre ++ pool) ->
    PI (snd (settle_all env pool w))
       (pre ++ zip_with settle pool (fst (settle_all env pool w))).
Proof.
  induction pool as [|[a p] pool IH]; intros pre w H; [done|].
  revert w H. induction p as [x|e|X op k IHp]; intros w H.
  - simpl. specialize (IH (pre ++ [(a, Ret x)]) w).
    rewrite <- !app_assoc in IH. specialize (IH H).
    destruct (settle_all env pool w) as [rs w'']. exact IH.
  - simpl. specialize (IH (pre ++ [(a, Throw e)]) w).
    rewrite <- !app_assoc in IH. specialize (IH H).
    destruct (settle_all env pool w) as [rs w'']. exact IH.
  - pose proof (PI_step pre (a, Await op k) pool w H) as H1.
    unfold step in H1. cbn [snd fst] in H1.
    cbn [settle_all fst snd exec].
    destruct (handle env (Task a) op w) as [r1 w1]. cbn [fst snd] in H1.
    specialize (IHp r1 w1 H1). cbn [settle_all fst snd] in IHp.
    destruct (exec env (Task a) (k r1) w1) as [r w'].
    destruct (settle_all env pool w') as [rs w'']. exact IHp.
Qed.

(** What holds of the pool when [Promise.all] starts holds of the settled
    callbacks when it ends. *)
Lemma settle_pool_inv (sched : list nat) (pool : list (Job A)) (w : World) :
  PI w pool ->
  PI (snd (settle_pool env sched pool w))
     (zip_with settle pool (fst (settle_pool env sched pool w))) /\
  length (fst (settle_pool env sched pool w)) = length pool.
Proof.
  intros H. unfold settle_pool.
  pose proof (run_schedule_inv sched pool w H) as H1.
  pose proof (run_schedule_tags sched pool w) as Ht.
  destruct (run_schedule env sched pool w) as [pool1 w1]. simpl in H1, Ht.
  pose proof (settle_all_inv pool1 [] w1 H1) as H2.
  pose proof (settle_all_length pool1 w1) as Hl.
  simpl in H2. split.
  - by rewrite <- (zip_with_settle_tags pool pool1).
  - rewrite Hl. apply (f_equal length) in Ht. by rewrite !length_map in Ht.
Qed.
End Pool.

(** ** What the operations change *)

Section HandlerFrames.
Context (env : Env) (o : Origin).

Lemma guarded_frame {X} {B} (f : World -> B) (w : World)
    (act : World -> Outcome X * World) :
  (forall w1, f (bump_store w1) = f w1) ->
  (forall w1, f (snd (act w1)) = f w1) ->
  f (snd (guarded env w act)) = f w.
Proof.
  intros Hb Ha. unfold guarded. destruct (env_fault env (w_store w)); simpl; [done|].
  by rewrite Ha.
Qed.

Lemma create_email_errors data w : w_errors (snd (create_email data w)) = w_errors w.
Proof. unfold create_email. by destruct (find_email _ _). Qed.

Lemma create_email_insights data w :
  w_insights (snd (create_email data w)) = w_insights w.
Proof. unfold create_email. by destruct (find_email _ _). Qed.

(** Only [errors.push] changes the [errors] array. *)
Lemma handle_errors {X} (op : Op X) (w : World) :
  is_push op = false -> w_errors (snd (handle env o op w)) = w_errors w.
Proof.
  destruct op; simpl; intros Hp; try discriminate; try reflexivity;
    rewrite (guarded_frame w_errors); try done.
  intros w1. apply create_email_errors.
Qed.

Lemma handle_push {X} (op : Op X) (w : World) :
  is_push op = true ->
  exists x line,
    fst (handle env o op w) = Resolved x /\
    event_of op = EvErrorsPush line /\
    w_errors (snd (handle env o op w)) = w_errors w ++ [line].
Proof. destruct op; simpl; intros Hp; try discriminate. by exists tt, line. Qed.

(** Only the insight upsert changes [prisma.emailInsight]. *)
Lemma handle_insights {X} (op : Op X) (w : World) :
  is_insight_upsert op = false -> w_insights (snd (handle env o op w)) = w_insights w.
Proof.
  destruct op; simpl; intros Hp; try discriminate; try reflexivity;
    rewrite (guarded_frame w_insights); try done.
  intros w1. apply create_email_insights.
Qed.

(** The table [prisma.email] changes only by a successful insert, which
    appends a row whose [messageId] was absent. *)
Lemma handle_emails {X} (op : Op X) (w : World) :
  w_emails (snd (handle env o op w)) = w_emails w \/
  exists data,
    created op = Some data /\
    find_email (row_messageId data) (w_emails w) = None /\
    w_emails (snd (handle env o op w)) = w_emails w ++ [data].
Proof.
  destruct op; simpl; try (by left);
    try (left; rewrite (guarded_frame w_emails); done).
  unfold guarded. destruct (env_fault env _); simpl; [by left|].
  unfold create_email. simpl.
  destruct (find_email (row_messageId data) (w_emails w)) eqn:Hfind; simpl;
    [by left|].
  right. by exists data.
Qed.
End HandlerFrames.

(** ** The callback of an item *)

Section ProcessItem.
Context (autoArchive : bool) (userId : string) (categories : list Category).
Context (item : FetchedItem).

Lemma Accounted_try_catch (body : Prog ItemResult) (h : JsError -> Prog ItemResult) :
  Within (body_pol (item_message item)) (fun r => res_success r = true) body ->
  (forall e, Accounted (h e)) ->
  Accounted (try_catch body h).
Proof.
  intros Hbody Hh. induction body as [r|e|X op k IH]; simpl in *; auto.
  destruct Hbody as [[_ Hpush] Hk]. rewrite Hpush. auto.
Qed.

Lemma Within_try_catch_body pol (body : Prog ItemResult)
    (h : JsError -> Prog ItemResult) :
  (forall X (op : Op X), body_pol (item_message item) X op -> pol X op) ->
  Within (body_pol (item_message item)) (fun r => res_success r = true) body ->
  (forall e, Within pol (fun _ => True) (h e)) ->
  Within pol (fun _ => True) (try_catch body h).
Proof.
  intros Hpol Hbody Hh. apply Within_try_catch; [|done].
  eapply Within_mono; [exact Hpol| |exact Hbody]. done.
Qed.

Local Ltac within_perform :=
  eapply Within_bind with (post := fun _ => True);
  [apply Within_perform; [by split | done]|].

Lemma processItem_split :
  exists body,
    processItem autoArchive userId categories item =
    try_catch body (catch_block (item_message item)) /\
    Within (body_pol (item_message item)) (fun r => res_success r = true) body.
Proof.
  eexists. split; [reflexivity|].
  eapply Within_bind with (post := fun _ => True).
  { apply Within_retry_from; [by split|by split|].
    apply Within_perform; [by split|done]. }
  intros analysis _.
  within_perform. intros unsubscribeLink _.
  within_perform. intros [existing|] _; [done|].
  within_perform. intros _ _.
  within_perform. intros _ _.
  eapply Within_bind with (post := fun _ => True); [|done].
  destruct autoArchive; [|done].
  apply Within_try_catch; [|done].
  destruct (item_gmailClient item); apply Within_perform; by split.
Qed.

(** The callback performs only the operations of its own item. *)
Lemma processItem_within :
  Within (item_pol (item_message item)) (fun _ => True)
         (processItem autoArchive userId categories item).
Proof.
  destruct processItem_split as (body & -> & Hbody).
  apply Within_try_catch_body; [by intros X op [H _]|done|].
  intros e. simpl. split; [done|]. by intros [[]|e'].
Qed.

(** The callback never throws, and reports a failure by exactly one
    [errors.push]. *)
Lemma processItem_accounted :
  Accounted (processItem autoArchive userId categories item).
Proof.
  destruct processItem_split as (body & -> & Hbody).
  apply Accounted_try_catch; [done|]. by intros e x.
Qed.
End ProcessItem.

(** ** Accounting of a batch *)

Lemma Accounted_not_failed (p : Prog ItemResult) : Accounted p -> failed p = false.
Proof. destruct p as [r|e|X op k]; simpl; try done. by intros ->. Qed.

Lemma count_partition (results : list ItemResult) :
  length (List.filter is_imported results) + length (List.filter is_skipped results)
  + length (List.filter is_failure results) = length results.
Proof.
  induction results as [|r results IH]; [done|].
  simpl. unfold is_imported, is_skipped, is_failure in *.
  destruct (res_success r), (res_skipped r); simpl; lia.
Qed.

Lemma batch_jobs_lookup autoArchive userId categories (i : nat)
    (batch : list FetchedItem) (n : nat) :
  batch_jobs autoArchive userId categories i batch !! n =
  (fun item => (i + n, processItem autoArchive userId categories item)) <$> batch !! n.
Proof. unfold batch_jobs. by rewrite list_lookup_imap. Qed.

Lemma batch_jobs_length autoArchive userId categories (i : nat)
    (batch : list FetchedItem) :
  length (batch_jobs autoArchive userId categories i batch) = length batch.
Proof. unfold batch_jobs. by rewrite length_imap. Qed.

Lemma batch_jobs_Forall autoArchive userId categories (i : nat)
    (batch : list FetchedItem) (P : Job ItemResult -> Prop) :
  (forall n item, batch !! n = Some item ->
     P (i + n, processItem autoArchive userId categories item)) ->
  Forall P (batch_jobs autoArchive userId categories i batch).
Proof.
  intros H. apply Forall_lookup. intros n j Hj.
  rewrite batch_jobs_lookup in Hj.
  destruct (batch !! n) as [item|] eqn:Hn; [|done].
  injection Hj as <-. by apply H.
Qed.

Section Accounting.
Context (env : Env).

Lemma PI_acct_step (E0 : nat) pre j post w :
  PI_acct E0 w (pre ++ j :: post) ->
  PI_acct E0 (snd (step env j w)) (pre ++ fst (step env j w) :: post).
Proof.
  intros [Hall Hlen]. destruct j as [a [r|e|X op k]]; try done.
  unfold step. cbn [fst snd].
  apply Forall_app in Hall as [Hpre Hrest].
  apply Forall_cons in Hrest as [Hj Hpost].
  destruct Hj as [Hacc|Hf]; [|done]. cbn [snd Accounted] in Hacc.
  rewrite List.filter_app in Hlen. cbn [List.filter] in Hlen.
  change (job_failed (a, Await op k)) with false in Hlen.
  destruct (is_push op) eqn:Hpush.
  - destruct (handle_push env (Task a) op w Hpush) as (x & line & Hres & _ & Herr).
    destruct (handle env (Task a) op w) as [r1 w1]. cbn [fst snd] in *. subst r1.
    split.
    + apply Forall_app. split; [done|]. apply Forall_cons. split; [|done].
      right. apply Hacc.
    + rewrite Herr, length_app, Hlen, List.filter_app. cbn [List.filter].
      change (job_failed (a, k (Resolved x))) with (failed (k (Resolved x))).
      rewrite Hacc, !length_app. simpl. lia.
  - pose proof (handle_errors env (Task a) op w Hpush) as Herr.
    destruct (handle env (Task a) op w) as [r1 w1]. cbn [fst snd] in *.
    split.
    + apply Forall_app. split; [done|]. apply Forall_cons. split; [|done].
      left. apply Hacc.
    + rewrite Herr, Hlen, List.filter_app. cbn [List.filter].
      change (job_failed (a, k r1)) with (failed (k r1)).
      by rewrite (Accounted_not_failed _ (Hacc r1)).
Qed.

(** Settled callbacks that are pending or failed have all resolved. *)
Lemma settled_results (pool : list (Job ItemResult)) :
  forall rs : list (Outcome ItemResult),
    length rs = length pool ->
    Forall pending_or_failed (zip_with settle pool rs) ->
    exists results,
      all_resolved rs = Resolved results /\
      length results = length pool /\
      length (List.filter job_failed (zip_with settle pool rs))
      = length (List.filter is_failure results).
Proof.
  induction pool as [|j pool IH]; intros [|r rs] Hlen Hall; try done.
  - by exists [].
  - simpl in Hlen, Hall. apply Forall_cons in Hall as [Hj Hall].
    destruct (IH rs) as (results & Hres & Hl & Hcount); [lia|done|].
    destruct r as [x|e]; [|by destruct Hj].
    exists (x :: results). simpl. rewrite Hres. split; [done|]. split; [lia|].
    unfold job_failed at 1. unfold is_failure at 1. simpl.
    destruct (res_success x); simpl; lia.
Qed.

(** [Promise.all] over callbacks that account for their failures
    resolves, with one result per callback and one new line in [errors]
    per failure. *)
Lemma promiseAll_accounted (sched : list nat) (pool : list (Job ItemResult))
    (w : World) :
  Forall (fun j => Accounted (snd j)) pool ->
  exists results w',
    promiseAll env sched pool w = (Resolved results, w') /\
    length results = length pool /\
    length (w_errors w') = length (w_errors w) + length (List.filter is_failure results).
Proof.
  intros Hacc.
  assert (PI_acct (length (w_errors w)) w pool) as HPI.
  { split.
    - eapply Forall_impl; [exact Hacc|]. intros j Hj. by left.
    - replace (List.filter job_failed pool) with (@nil (Job ItemResult));
        [simpl; lia|].
      symmetry. clear -Hacc. induction Hacc as [|j pool Hj _ IH]; [done|].
      simpl. unfold job_failed at 1. by rewrite (Accounted_not_failed _ Hj). }
  destruct (settle_pool_inv env (PI_acct (length (w_errors w)))
              (PI_acct_step (length (w_errors w))) sched pool w HPI)
    as [[Hall Hlen] Hrs].
  unfold promiseAll. destruct (settle_pool env sched pool w) as [rs w'].
  cbn [fst snd] in *.
  destruct (settled_results pool rs Hrs Hall) as (results & Hres & Hl & Hcount).
  exists results, w'. rewrite Hres. split; [done|]. split; [done|]. lia.
Qed.
End Accounting.

(** ** World invariants along a batch and along the batch loop *)

Section PoolRespects.
Context (env : Env) (pol : Origin -> forall X, Op X -> Prop) (I : World -> Prop).
Hypothesis Hrespects : respects env pol I.

Lemma settle_pool_respects {A} (sched : list nat) (pool : list (Job A)) (w : World) :
  Forall (job_within pol) pool -> I w -> I (snd (settle_pool env sched pool w)).
Proof.
  intros Hpool Hw.
  pose (PI := fun (w : World) (pool : list (Job A)) => I w /\ Forall (job_within pol) pool).
  assert (forall pre j post w,
             PI w (pre ++ j :: post) ->
             PI (snd (step env j w)) (pre ++ fst (step env j w) :: post)) as Hstep.
  { intros pre [a p] post w1 [HI Hall]. destruct p as [x|e|X op k]; try done.
    apply Forall_app in Hall as [Hpre Hrest].
    apply Forall_cons in Hrest as [[Hop Hk] Hpost].
    unfold step. cbn [fst snd] in *.
    pose proof (Hrespects (Task a) X op w1 Hop HI) as HI'.
    destruct (handle env (Task a) op w1) as [r1 w2]. cbn [fst snd] in *.
    split; [done|]. apply Forall_app. split; [done|].
    apply Forall_cons. split; [apply Hk|done]. }
  destruct (settle_pool_inv env PI Hstep sched pool w) as [[H _] _]; done.
Qed.

Lemma promiseAll_world {A} (sched : list nat) (pool : list (Job A)) (w : World) :
  snd (promiseAll env sched pool w) = snd (settle_pool env sched pool w).
Proof. unfold promiseAll. by destruct (settle_pool env sched pool w). Qed.
End PoolRespects.

Lemma slice_lookup {A} (l : list A) (i n : nat) (x : A) :
  slice l i (i + BATCH_SIZE) !! n = Some x -> l !! (i + n) = Some x.
Proof.
  unfold slice. intros H. apply lookup_take_Some in H as [H _].
  by rewrite lookup_drop in H.
Qed.

Lemma slice_length {A} (l : list A) (i : nat) :
  length (slice l i (i + BATCH_SIZE)) = Nat.min BATCH_SIZE (length l - i).
Proof.
  unfold slice. rewrite length_take, length_drop. f_equal. lia.
Qed.

Section BatchLoop.
Context (env : Env) (autoArchive : bool) (userId : string).
Context (categories : list Category) (newEmails : list FetchedItem).
Context (pol : Origin -> forall X, Op X -> Prop) (I : World -> Prop).
Hypothesis Hrespects : respects env pol I.
Hypothesis Hitems : forall a item,
  newEmails !! a = Some item ->
  Within (pol (Task a)) (fun _ => True)
         (processItem autoArchive userId categories item).
Hypothesis Hsleep : forall ms, pol Main _ (Sleep ms).
Hypothesis Hmarker : forall n t s, pol Main _ (ConsoleLogBatch n t s).

(** The loop never rejects, keeps [I], and puts every item from [i] on
    into exactly one of the three counts. *)
Lemma batch_loop_spec (fuel : nat) :
  forall (i imported skipped : nat) (scheds : list (list nat)) (w : World),
    length newEmails <= i + fuel ->
    I w ->
    exists imported' skipped' w',
      batch_loop env autoArchive userId categories newEmails scheds fuel i
                 imported skipped w
      = (Resolved (imported', skipped'), w') /\
      I w' /\
      skipped <= skipped' /\
      imported' + skipped' + length (w_errors w')
      = imported + skipped + length (w_errors w) + (length newEmails - i).
Proof.
  induction fuel as [|fuel IH]; intros i imported skipped scheds w Hfuel HI.
  - exists imported, skipped, w. simpl. split; [done|]. split; [done|]. lia.
  - cbn [batch_loop]. destruct (Nat.ltb_spec i (length newEmails)) as [Hlt|Hge];
      [|exists imported, skipped, w; split; [done|]; split; [done|]; lia].
    set (batch := slice newEmails i (i + BATCH_SIZE)).
    set (w1 := snd (handle env Main (ConsoleLogBatch _ _ _) w)).
    assert (I w1) as HI1 by (apply Hrespects; done).
    assert (w_errors w1 = w_errors w) as Herr1 by done.
    set (pool := batch_jobs autoArchive userId categories i batch).
    destruct (promiseAll_accounted env (hd [] scheds) pool w1)
      as (results & w2 & Hpa & Hlen & Herr2).
    { apply batch_jobs_Forall. intros n item _. apply processItem_accounted. }
    assert (I w2) as HI2.
    { replace w2 with (snd (promiseAll env (hd [] scheds) pool w1))
        by (by rewrite Hpa).
      rewrite promiseAll_world. apply (settle_pool_respects env pol I Hrespects);
        [|done].
      apply batch_jobs_Forall. intros n item Hn. apply Hitems.
      by apply slice_lookup. }
    rewrite Hpa.
    set (w3 := if Nat.ltb (i + BATCH_SIZE) (length newEmails)
               then snd (handle env Main (Sleep BATCH_DELAY_MS) w2) else w2).
    assert (I w3 /\ w_errors w3 = w_errors w2) as [HI3 Herr3].
    { unfold w3. destruct (Nat.ltb _ _); [|done]. split; [|done].
      by apply Hrespects. }
    destruct (IH (i + BATCH_SIZE)
                (imported + length (List.filter is_imported results))
                (skipped + length (List.filter is_skipped results))
                (tl scheds) w3)
      as (imported' & skipped' & w' & Hloop & HI' & Hmono & Hsum);
      [unfold BATCH_SIZE; lia|done|].
    exists imported', skipped', w'. split; [exact Hloop|]. split; [done|].
    split; [lia|].
    rewrite Hsum, Herr3, Herr2, Herr1.
    pose proof (count_partition results) as Hpart.
    unfold pool in Hlen. rewrite batch_jobs_length in Hlen. unfold batch in Hlen.
    rewrite slice_length in Hlen. unfold BATCH_SIZE in *. lia.
Qed.
End BatchLoop.

(** ** The sequential phases of [POST] *)

Lemma Within_fetch_accounts (gmailAccounts : list GmailAccount) (maxEmails : Z) :
  forall allGmailMessages,
    Within setup_pol (fun _ => True)
           (fetch_accounts gmailAccounts maxEmails allGmailMessages).
Proof.
  induction gmailAccounts as [|account rest IH]; intros allGmailMessages; [done|].
  cbn [fetch_accounts].
  eapply Within_bind with (post := fun _ => True); [|intros; apply IH].
  apply Within_try_catch; [|done].
  eapply Within_bind with (post := fun _ => True);
    [by apply Within_perform|intros gmailClient _].
  eapply Within_bind with (post := fun _ => True);
    [by apply Within_perform|done].
Qed.

Lemma Within_fetch_all (userId : string) (maxEmails : Z) :
  Within setup_pol (fun _ => True) (fetch_all userId maxEmails).
Proof.
  unfold fetch_all.
  eapply Within_bind with (post := fun _ => True);
    [by apply Within_perform|intros categories _].
  eapply Within_bind with (post := fun _ => True);
    [by apply Within_perform|intros gmailAccounts _].
  eapply Within_bind with (post := fun _ => True); [|done].
  destruct (Nat.ltb 0 (length gmailAccounts)); [apply Within_fetch_accounts|].
  eapply Within_bind with (post := fun _ => True); [by apply Within_perform|done].
Qed.

Lemma Within_filter_new (allGmailMessages : list FetchedItem) :
  forall skipped newEmails,
    Within find_pol (fun _ => True) (filter_new allGmailMessages skipped newEmails).
Proof.
  induction allGmailMessages as [|item rest IH]; intros skipped newEmails; [done|].
  cbn [filter_new].
  eapply Within_bind with (post := fun _ => True); [by apply Within_perform|].
  intros [existing|] _; apply IH.
Qed.

Lemma Within_finish_run (userId : string) (today : Z) (imported : nat) :
  Within (finish_pol userId today) (fun _ => True) (finish_run userId today imported).
Proof.
  unfold finish_run.
  eapply Within_bind with (post := fun _ => True); [by apply Within_perform|].
  intros _ _. destruct (Nat.ltb 0 imported); [|done].
  eapply Within_bind with (post := fun _ => True); [by apply Within_perform|].
  intros _ _.
  eapply Within_bind with (post := fun _ => True); [by apply Within_perform|done].
Qed.

Section FilterNew.
Context (env : Env).

(** When the dedup filter completes, the table is as before, every item
    with a row has been counted as skipped, and the others, in order, are
    the new items. *)
Lemma filter_new_spec (allGmailMessages : list FetchedItem) :
  forall (skipped : nat) (newEmails : list FetchedItem) (w : World)
         (skipped' : nat) (newEmails' : list FetchedItem) (w' : World),
    exec env Main (filter_new allGmailMessages skipped newEmails) w
    = (Resolved (skipped', newEmails'), w') ->
    w_emails w' = w_emails w /\
    w_errors w' = w_errors w /\
    newEmails' = newEmails ++ List.filter (is_new (w_emails w)) allGmailMessages /\
    skipped' = skipped + length (List.filter (has_row (w_emails w)) allGmailMessages).
Proof.
  induction allGmailMessages as [|item rest IH];
    intros skipped newEmails w skipped' newEmails' w' Hex.
  - simpl in Hex. injection Hex as <- <- <-. rewrite app_nil_r. simpl.
    repeat split; lia.
  - cbn [filter_new] in Hex. rewrite exec_bind, exec_perform in Hex.
    cbn [handle event_of] in Hex. unfold guarded in Hex.
    set (w1 := record_event Main _ w) in Hex.
    change (w_store w1) with (w_store w) in Hex.
    destruct (env_fault env (w_store w)) as [e|]; [done|].
    change (w_emails (bump_store w1)) with (w_emails w) in Hex.
    destruct (find_email (msg_id (item_message item)) (w_emails w)) as [row|] eqn:Hf.
    + assert (is_new (w_emails w) item = false) as Hn
        by (unfold is_new; by rewrite Hf).
      apply IH in Hex as (Hem & Her & Hnew & Hsk).
      cbn [List.filter]. unfold has_row at 1. rewrite Hn. simpl in *.
      repeat split; try done. rewrite Hsk. lia.
    + assert (is_new (w_emails w) item = true) as Hn
        by (unfold is_new; by rewrite Hf).
      apply IH in Hex as (Hem & Her & Hnew & Hsk).
      cbn [List.filter]. unfold has_row at 1. rewrite Hn. simpl in *.
      repeat split; try done. by rewrite Hnew, <- app_assoc.
Qed.
End FilterNew.

Lemma filter_partition (rows : list EmailRow) (items : list FetchedItem) :
  length (List.filter (is_new rows) items) + length (List.filter (has_row rows) items)
  = length items.
Proof.
  induction items as [|item items IH]; [done|].
  simpl. unfold has_row in *. destruct (is_new rows item); simpl; lia.
Qed.

Lemma Within_any {A} (p : Prog A) : Within (fun _ _ => True) (fun _ => True) p.
Proof. induction p as [a|e|X op k IH]; simpl; auto. Qed.

Section Phases.
Context (env : Env) (run : Run) (request : Request) (w : World).
Context (Q : Response -> World -> Prop).

(** Every run of [POST] ends in one of these ways. *)
Lemma POST_phases :
  (forall e, req_session request = Rejected e -> Q (response_500 e) w) ->
  (req_session request = Resolved None -> Q response_401 w) ->
  (forall userId e,
     req_session request = Resolved (Some userId) ->
     req_json request = Rejected e -> Q (response_500 e) w) ->
  (forall userId json e w1,
     req_session request = Resolved (Some userId) ->
     req_json request = Resolved json ->
     exec env Main (fetch_all userId (default 20%Z json)) w = (Rejected e, w1) ->
     Q (response_500 e) w1) ->
  (forall userId json categories allGmailMessages w1 e w2,
     req_session request = Resolved (Some userId) ->
     req_json request = Resolved json ->
     exec env Main (fetch_all userId (default 20%Z json)) w
     = (Resolved (categories, allGmailMessages), w1) ->
     exec env Main (filter_new allGmailMessages 0 []) (set_errors [] w1)
     = (Rejected e, w2) ->
     Q (response_500 e) w2) ->
  (forall userId json categories allGmailMessages w1 skipped0 newEmails w2
          imported skipped w3 r w4,
     req_session request = Resolved (Some userId) ->
     req_json request = Resolved json ->
     exec env Main (fetch_all userId (default 20%Z json)) w
     = (Resolved (categories, allGmailMessages), w1) ->
     exec env Main (filter_new allGmailMessages 0 []) (set_errors [] w1)
     = (Resolved (skipped0, newEmails), w2) ->
     batch_loop env (auto_archive run) userId categories newEmails
                (run_schedules run) (length newEmails) 0 0 skipped0 w2
     = (Resolved (imported, skipped), w3) ->
     exec env Main (finish_run userId (run_today run) imported) w3 = (r, w4) ->
     Q (match r with
        | Resolved _ => response_200 imported skipped (w_errors w4)
        | Rejected e => response_500 e
        end) w4) ->
  Q (fst (POST env run request w)) (snd (POST env run request w)).
Proof.
  intros Hsession H401 Hjson Hfetch Hfilter Hrun.
  unfold POST, POST_try, and_then.
  destruct (req_session request) as [[userId|]|e] eqn:Es; [| by apply H401 | by apply Hsession].
  destruct (req_json request) as [json|e] eqn:Ej; [|by eapply Hjson].
  destruct (exec env Main (fetch_all userId (default 20%Z json)) w)
    as [[[categories allGmailMessages]|e] w1] eqn:Ef; [|by eapply Hfetch].
  destruct (exec env Main (filter_new allGmailMessages 0 []) (set_errors [] w1))
    as [[[skipped0 newEmails]|e] w2] eqn:Eg; [|by eapply Hfilter].
  destruct (batch_loop_spec env (auto_archive run) userId categories newEmails
              (fun _ _ _ => True) (fun _ => True)
              ltac:(by intros ? ? ? ? ? ?)
              ltac:(by intros; apply Within_any) ltac:(done) ltac:(done)
              (length newEmails) 0 0 skipped0 (run_schedules run) w2)
    as (imported & skipped & w3 & Eb & _); [lia|done|].
  rewrite Eb.
  destruct (exec env Main (finish_run userId (run_today run) imported) w3)
    as [r w4] eqn:Eh.
  specialize (Hrun userId json categories allGmailMessages w1 skipped0 newEmails w2
                imported skipped w3 r w4 eq_refl eq_refl Ef Eg Eb Eh).
  by destruct r as [[]|e].
Qed.
End Phases.

(** ** Invariants of a whole run *)

Lemma setup_pol_facts (X : Type) (op : Op X) :
  setup_pol X op ->
  is_push op = false /\ is_insight_upsert op = false /\ created op = None.
Proof. by destruct op. Qed.

Lemma find_pol_facts (X : Type) (op : Op X) :
  find_pol X op ->
  is_push op = false /\ is_insight_upsert op = false /\ created op = None.
Proof. by destruct op. Qed.

Lemma finish_pol_facts (userId : string) (today : Z) (X : Type) (op : Op X) :
  finish_pol userId today X op -> is_push op = false /\ created op = None.
Proof. by destruct op. Qed.

Lemma respects_emails_exact (env : Env) (rows : list EmailRow) :
  respects env (fun _ X op => created op = None) (fun w => w_emails w = rows).
Proof.
  intros o X op w Hop Hw.
  destruct (handle_emails env o op w) as [->|(data & Hc & _)]; [done|congruence].
Qed.

Lemma fetch_all_emails (env : Env) (userId : string) (maxEmails : Z) (w : World) :
  w_emails (snd (exec env Main (fetch_all userId maxEmails) w)) = w_emails w.
Proof.
  apply (exec_respects env (fun _ X op => created op = None)
           (fun w' => w_emails w' = w_emails w) (respects_emails_exact env _)
           Main (fun _ => True)); [|done].
  eapply Within_mono; [| |apply Within_fetch_all]; [|done].
  intros X op H. by destruct (setup_pol_facts X op H) as (_ & _ & ?).
Qed.

Lemma lookup_filter_true {A} (f : A -> bool) (l : list A) (n : nat) (x : A) :
  List.filter f l !! n = Some x -> f x = true.
Proof.
  intros H. apply list_elem_of_lookup_2, list_elem_of_In, List.filter_In in H.
  by destruct H.
Qed.

Section RunRespects.
Context (env : Env) (run : Run) (request : Request) (w : World).
Context (pol : Origin -> forall X, Op X -> Prop) (I : World -> Prop).
Hypothesis Hrespects : respects env pol I.
Hypothesis Hmain : forall userId X (op : Op X),
  req_session request = Resolved (Some userId) ->
  run_pol userId (run_today run) Main X op -> pol Main X op.
Hypothesis Htask : forall userId categories a item,
  req_session request = Resolved (Some userId) ->
  is_new (w_emails w) item = true ->
  Within (pol (Task a)) (fun _ => True)
         (processItem (auto_archive run) userId categories item).
Hypothesis Hreset : forall w, I w -> I (set_errors [] w).

Lemma fetch_all_respects (userId : string) (maxEmails : Z) :
  req_session request = Resolved (Some userId) ->
  I w -> I (snd (exec env Main (fetch_all userId maxEmails) w)).
Proof.
  intros Es HI. eapply (exec_respects env pol I Hrespects); [|done].
  eapply Within_mono; [| |apply Within_fetch_all]; [|done].
  intros X op H. apply (Hmain userId); [done|]. by left.
Qed.

Lemma filter_new_respects (userId : string) (all : list FetchedItem) (w1 : World) :
  req_session request = Resolved (Some userId) ->
  I w1 -> I (snd (exec env Main (filter_new all 0 []) (set_errors [] w1))).
Proof.
  intros Es HI. eapply (exec_respects env pol I Hrespects); [|by apply Hreset].
  eapply Within_mono; [| |apply Within_filter_new]; [|done].
  intros X op H. apply (Hmain userId); [done|]. right. by left.
Qed.

Lemma finish_run_respects (userId : string) (imported : nat) (w3 : World) :
  req_session request = Resolved (Some userId) ->
  I w3 -> I (snd (exec env Main (finish_run userId (run_today run) imported) w3)).
Proof.
  intros Es HI. eapply (exec_respects env pol I Hrespects); [|done].
  eapply Within_mono; [| |apply Within_finish_run]; [|done].
  intros X op H. apply (Hmain userId); [done|]. right; right. by left.
Qed.

(** An invariant that survives every operation of the request handler and
    of the callbacks of new items survives [POST]. *)
Lemma POST_respects : I w -> I (snd (POST env run request w)).
Proof.
  intros HI.
  apply (POST_phases env run request w (fun _ w' => I w')); try done.
  - intros userId json e w1 Es Ej Ef.
    replace w1 with (snd (exec env Main (fetch_all userId (default 20%Z json)) w))
      by (by rewrite Ef).
    by apply fetch_all_respects.
  - intros userId json categories allGmailMessages w1 e w2 Es Ej Ef Eg.
    pose proof (fetch_all_respects userId (default 20%Z json) Es HI) as HI1.
    rewrite Ef in HI1.
    replace w2 with
      (snd (exec env Main (filter_new allGmailMessages 0 []) (set_errors [] w1)))
      by (by rewrite Eg).
    by apply (filter_new_respects userId).
  - intros userId json categories allGmailMessages w1 skipped0 newEmails w2
           imported skipped w3 r w4 Es Ej Ef Eg Eb Eh.
    pose proof (fetch_all_respects userId (default 20%Z json) Es HI) as HI1.
    pose proof (fetch_all_emails env userId (default 20%Z json) w) as Hem1.
    rewrite Ef in HI1, Hem1. cbn [snd] in HI1, Hem1.
    pose proof (filter_new_respects userId allGmailMessages w1 Es HI1) as HI2.
    rewrite Eg in HI2. cbn [snd] in HI2.
    apply filter_new_spec in Eg as (_ & _ & Hnew & _).
    cbn [w_emails set_errors app] in Hnew. rewrite Hem1 in Hnew.
    assert (I w3) as HI3.
    { destruct (batch_loop_spec env (auto_archive run) userId categories newEmails
                  pol I Hrespects) with
        (fuel := length newEmails) (i := 0) (imported := 0) (skipped := skipped0)
        (scheds := run_schedules run) (w := w2)
        as (imported' & skipped' & w' & Eb' & HI' & _); try done.
      - intros a item Ha. apply Htask; [done|].
        rewrite Hnew in Ha. by apply lookup_filter_true in Ha.
      - intros ms. apply (Hmain userId); [done|]. by right; right; right.
      - intros n t s. apply (Hmain userId); [done|]. by right; right; right.
      - rewrite Eb in Eb'. by injection Eb' as _ _ <-. }
    replace w4 with
      (snd (exec env Main (finish_run userId (run_today run) imported) w3))
      by (by rewrite Eh).
    by apply finish_run_respects.
Qed.
End RunRespects.

Lemma respects_errors (env : Env) (E : list string) :
  respects env (fun _ X op => is_push op = false) (fun w => w_errors w = E).
Proof. intros o X op w Hop Hw. by rewrite handle_errors. Qed.

Section RunCounts.
Context (env : Env) (run : Run).

Lemma batch_loop_counts (userId : string) (categories : list Category)
    (newEmails : list FetchedItem) (skipped0 imported skipped : nat) (w2 w3 : World) :
  batch_loop env (auto_archive run) userId categories newEmails
             (run_schedules run) (length newEmails) 0 0 skipped0 w2
  = (Resolved (imported, skipped), w3) ->
  skipped0 <= skipped /\
  imported + skipped + length (w_errors w3)
  = skipped0 + length (w_errors w2) + length newEmails.
Proof.
  intros Eb.
  destruct (batch_loop_spec env (auto_archive run) userId categories newEmails
              (fun _ _ _ => True) (fun _ => True)
              ltac:(by intros ? ? ? ? ? ?)
              ltac:(by intros; apply Within_any) ltac:(done) ltac:(done)
              (length newEmails) 0 0 skipped0 (run_schedules run) w2)
    as (imported' & skipped' & w' & Eb' & _ & Hmono & Hsum); [lia|done|].
  rewrite Eb in Eb'. injection Eb' as <- <- <-. split; [done|]. lia.
Qed.

Lemma finish_run_errors (userId : string) (imported : nat) (w3 : World) :
  w_errors (snd (exec env Main (finish_run userId (run_today run) imported) w3))
  = w_errors w3.
Proof.
  apply (exec_respects env (fun _ X op => is_push op = false)
           (fun w => w_errors w = w_errors w3) (respects_errors env _)
           Main (fun _ => True)); [|done].
  eapply Within_mono; [| |apply Within_finish_run]; [|done].
  intros X op H. by destruct (finish_pol_facts _ _ X op H).
Qed.
End RunCounts.

(** C10.  In the summary of a run, every fetched message is in exactly one
    of the three buckets: [imported + skipped + errors.length] is the number
    of fetched messages. *)
Theorem import_accounts_for_every_fetched_message
    (env : Env) (run : Run) (request : Request) (w : World)
    (imported skipped : nat) (errors : list string) :
  body (fst (POST env run request w)) = SummaryBody imported skipped errors ->
  exists userId json categories fetched w1,
    req_session request = Resolved (Some userId) /\
    req_json request = Resolved json /\
    exec env Main (fetch_all userId (default 20%Z json)) w
    = (Resolved (categories, fetched), w1) /\
    imported + skipped + length errors = length fetched.
Proof.
  apply (POST_phases env run request w
           (fun resp _ =>
              body resp = SummaryBody imported skipped errors ->
              exists userId json categories fetched w1,
                req_session request = Resolved (Some userId) /\
                req_json request = Resolved json /\
                exec env Main (fetch_all userId (default 20%Z json)) w
                = (Resolved (categories, fetched), w1) /\
                imported + skipped + length errors = length fetched)); try done.
  intros userId json categories allGmailMessages w1 skipped0 newEmails w2
         imp skp w3 r w4 Es Ej Ef Eg Eb Eh Hbody.
  destruct r as [[]|e]; [|done]. simpl in Hbody. injection Hbody as -> -> <-.
  exists userId, json, categories, allGmailMessages, w1.
  repeat split; try done.
  apply filter_new_spec in Eg as (Hem & Her & Hnew & Hsk).
  apply batch_loop_counts in Eb as [_ Hsum].
  pose proof (finish_run_errors env run userId imported w3) as Hfin.
  rewrite Eh in Hfin. simpl in Hfin, Her, Hnew, Hsk.
  pose proof (filter_partition (w_emails w1) allGmailMessages) as Hpart.
  rewrite Hfin. rewrite Her in Hsum. subst newEmails skipped0. simpl in Hsum. lia.
Qed.

Lemma import_accounts_for_every_fetched_message_witness :
  exists userId json categories fetched w1,
    req_session sample_request = Resolved (Some userId) /\
    req_json sample_request = Resolved json /\
    exec (sample_env rejects_invoice (Resolved sample_inbox)) Main
         (fetch_all userId (default 20%Z json)) sample_world
    = (Resolved (categories, fetched), w1) /\
    3 + 2 + length ["Failed to process email: Invoice"] = length fetched.
Proof.
  apply (import_accounts_for_every_fetched_message
           (sample_env rejects_invoice (Resolved sample_inbox))
           sample_run sample_request sample_world).
  reflexivity.
Defined.

(** ** The daily insight *)

Section Insights.
Context (env : Env).

Lemma respects_insights_exact (ins0 : gmap (string * Z) EmailInsight) :
  respects env (fun _ X op => is_insight_upsert op = false)
           (fun w => w_insights w = ins0).
Proof. intros o X op w Hop Hw. by rewrite handle_insights. Qed.

Lemma respects_insights_other (userId : string) (today : Z)
    (ins0 : gmap (string * Z) EmailInsight) :
  respects env (fun _ X op => insight_key_ok userId today op)
           (fun w => forall key, key <> (userId, today) ->
                                 w_insights w !! key = ins0 !! key).
Proof.
  intros o X op w Hop Hw key Hkey.
  destruct (is_insight_upsert op) eqn:Hup; [|rewrite handle_insights; auto].
  destruct op; try discriminate. destruct Hop as [-> ->].
  simpl. unfold guarded. destruct (env_fault env _); simpl; [by apply Hw|].
  rewrite lookup_insert_ne by done. by apply Hw.
Qed.

Lemma run_pol_insight_key_ok (userId : string) (today : Z) (o : Origin)
    (X : Type) (op : Op X) :
  run_pol userId today o X op -> insight_key_ok userId today op.
Proof.
  destruct o as [|a]; simpl.
  - intros [H|[H|[H|H]]]; by destruct op.
  - intros [gmailMsg H]. by destruct op.
Qed.

(** When the last phase completes, the day's row has been upserted. *)
Lemma finish_run_spec (userId : string) (today : Z) (imported : nat) (w3 w4 : World) :
  exec env Main (finish_run userId today imported) w3 = (Resolved tt, w4) ->
  w_insights w4 = w_insights (upsert_insight userId today imported w3).
Proof.
  unfold finish_run. rewrite exec_bind, exec_perform. cbn [handle event_of].
  unfold guarded. set (w3' := record_event Main _ w3).
  destruct (env_fault env (w_store w3')); [done|]. cbn [snd fst].
  set (w5 := upsert_insight _ _ _ _). intros Hex.
  change (w_insights (upsert_insight userId today imported w3))
    with (w_insights w5).
  replace w4 with (snd (exec env Main
    (if Nat.ltb 0 imported
     then let* _ := perform (EmailFindMany true) in
          let* _ := perform (EmailFindMany false) in Ret tt
     else Ret tt) w5)) by (by rewrite Hex).
  apply (exec_respects env (fun _ X op => is_insight_upsert op = false)
           (fun w => w_insights w = w_insights w5)
           (respects_insights_exact _) Main (fun _ => True)); [|done].
  destruct (Nat.ltb 0 imported); [|done].
  simpl. split; [done|]. intros [[]|e]; simpl; [|done]. split; [done|].
  by intros [[]|e].
Qed.
End Insights.



(** ** No second row for a source identifier *)

Lemma find_email_None (id : string) (rows : list EmailRow) :
  find_email id rows = None -> id ∉ message_ids rows.
Proof.
  induction rows as [|r rows IH]; simpl; [intros _; apply not_elem_of_nil|].
  destruct (String.eqb_spec (row_messageId r) id) as [Heq|Hne]; [done|].
  intros H. apply not_elem_of_cons. split; [congruence|by apply IH].
Qed.

Section Emails.
Context (env : Env).

Lemma respects_nodup :
  respects env (fun _ _ _ => True) (fun w => NoDup (message_ids (w_emails w))).
Proof.
  intros o X op w _ Hw.
  destruct (handle_emails env o op w) as [->|(data & _ & Hfind & ->)]; [done|].
  unfold message_ids. rewrite map_app. apply NoDup_app. split; [done|]. split.
  - intros id Hid Hin. apply list_elem_of_singleton in Hin as ->.
    by apply find_email_None in Hfind.
  - apply NoDup_singleton.
Qed.

Lemma respects_prefix (rows : list EmailRow) :
  respects env (fun _ _ _ => True) (fun w => rows `prefix_of` w_emails w).
Proof.
  intros o X op w _ Hw.
  destruct (handle_emails env o op w) as [->|(data & _ & _ & ->)]; [done|].
  by apply prefix_app_r.
Qed.

Lemma event_create {X} (op : Op X) (id : string) :
  event_of op = EvCreate id ->
  exists data, created op = Some data /\ row_messageId data = id.
Proof. destruct op; simpl; intros H; try discriminate. injection H as <-. eauto. Qed.

Lemma respects_creates (rows : list EmailRow) (log0 : list (Origin * Event)) :
  respects env
    (fun _ X op => forall data, created op = Some data ->
                                find_email (row_messageId data) rows = None)
    (fun w => exists tr, w_log w = log0 ++ tr /\ creates_only_absent rows tr).
Proof.
  intros o X op w Hop (tr & Hlog & Htr).
  exists (tr ++ [(o, event_of op)]). rewrite handle_log, Hlog, app_assoc.
  split; [done|]. apply Forall_app. split; [done|].
  apply Forall_singleton. intros id Hev. simpl in Hev.
  destruct (event_create op id Hev) as (data & Hc & <-). by apply Hop.
Qed.
End Emails.

Lemma run_pol_main_created (userId : string) (today : Z) (X : Type) (op : Op X) :
  run_pol userId today Main X op -> created op = None.
Proof. intros [H|[H|[H|H]]]; by destruct op. Qed.

Lemma item_pol_created (gmailMsg : GmailMessage) (X : Type) (op : Op X)
    (data : EmailRow) :
  item_pol gmailMsg X op -> created op = Some data ->
  row_messageId data = msg_id gmailMsg.
Proof. destruct op; simpl; try done. intros H Hc. by injection Hc as <-. Qed.

(** C4.  A run never removes or rewrites a row of [prisma.email], keeps
    "at most one row per [messageId]", never asks to insert a row for an
    identifier that had one when the run started, and its summary counts
    every fetched item that had a row as skipped and none of them as
    imported. *)
Theorem import_never_duplicates
    (env : Env) (run : Run) (request : Request) (w : World) :
  let w' := snd (POST env run request w) in
  w_emails w `prefix_of` w_emails w' /\
  (NoDup (message_ids (w_emails w)) -> NoDup (message_ids (w_emails w'))) /\
  creates_only_absent (w_emails w) (new_events w w') /\
  (forall imported skipped errors,
     body (fst (POST env run request w)) = SummaryBody imported skipped errors ->
     exists userId json categories fetched w1,
       req_session request = Resolved (Some userId) /\
       req_json request = Resolved json /\
       exec env Main (fetch_all userId (default 20%Z json)) w
       = (Resolved (categories, fetched), w1) /\
       length (List.filter (has_row (w_emails w)) fetched) <= skipped /\
       imported + length errors <= length (List.filter (is_new (w_emails w)) fetched)).
Proof.
  cbv zeta. split; [|split; [|split]].
  - apply (POST_respects env run request w (fun _ _ _ => True)
             (fun w' => w_emails w `prefix_of` w_emails w'));
      [apply respects_prefix|done| |done|done].
    intros. apply Within_any.
  - intros Hnodup.
    apply (POST_respects env run request w (fun _ _ _ => True)
             (fun w' => NoDup (message_ids (w_emails w'))));
      [apply respects_nodup|done| |done|done].
    intros. apply Within_any.
  - assert (exists tr, w_log (snd (POST env run request w)) = w_log w ++ tr /\
                       creates_only_absent (w_emails w) tr) as (tr & Hlog & Htr).
    { apply (POST_respects env run request w
               (fun _ X op => forall data, created op = Some data ->
                                find_email (row_messageId data) (w_emails w) = None)
               (fun w' => exists tr, w_log w' = w_log w ++ tr /\
                                     creates_only_absent (w_emails w) tr));
        [apply respects_creates| | |done|].
      - intros userId X op _ H data Hc.
        by rewrite (run_pol_main_created _ _ X op H) in Hc.
      - intros userId categories a item _ Hnew.
        eapply Within_mono; [| |apply processItem_within]; [|done].
        intros X op H data Hc. rewrite (item_pol_created _ X op data H Hc).
        unfold is_new in Hnew. by destruct (find_email _ _).
      - exists []. split; [by rewrite app_nil_r|constructor]. }
    by rewrite (new_events_app _ _ _ Hlog).
  - intros imported skipped errors.
    apply (POST_phases env run request w
             (fun resp _ =>
                body resp = SummaryBody imported skipped errors ->
                exists userId json categories fetched w1,
                  req_session request = Resolved (Some userId) /\
                  req_json request = Resolved json /\
                  exec env Main (fetch_all userId (default 20%Z json)) w
                  = (Resolved (categories, fetched), w1) /\
                  length (List.filter (has_row (w_emails w)) fetched) <= skipped /\
                  imported + length errors
                  <= length (List.filter (is_new (w_emails w)) fetched))); try done.
    intros userId json categories allGmailMessages w1 skipped0 newEmails w2
           imp skp w3 r w4 Es Ej Ef Eg Eb Eh Hbody.
    destruct r as [[]|e]; [|done]. simpl in Hbody. injection Hbody as -> -> <-.
    exists userId, json, categories, allGmailMessages, w1.
    split; [done|]. split; [done|]. split; [done|].
    pose proof (fetch_all_emails env userId (default 20%Z json) w) as Hem1.
    rewrite Ef in Hem1. cbn [snd] in Hem1.
    apply filter_new_spec in Eg as (Hem & Her & Hnew & Hsk).
    apply batch_loop_counts in Eb as [Hmono Hsum].
    pose proof (finish_run_errors env run userId imported w3) as Hfin.
    rewrite Eh in Hfin. cbn [snd] in Hfin.
    cbn [w_emails w_errors set_errors app] in Hem, Her, Hnew, Hsk.
    rewrite Hem1 in Hnew, Hsk. rewrite Her in Hsum. rewrite Hfin.
    subst newEmails skipped0. simpl in Hsum, Hmono. lia.
Qed.

(** The same identifier twice in one batch: when the look-ups race, the
    second insert hits the unique index and the item is reported as failed;
    when the callbacks run in turn, the second one skips. *)
Example duplicate_in_one_batch :
  let env := sample_env (limited_then_ok 0) (Resolved twin_inbox) in
  let racing := POST env racing_run sample_request empty_world in
  let in_turn := POST env sequential_run sample_request empty_world in
  body (fst racing) = SummaryBody 1 0 ["Failed to process email: Welcome"] /\
  message_ids (w_emails (snd racing)) = ["m1"] /\
  body (fst in_turn) = SummaryBody 1 1 [] /\
  message_ids (w_emails (snd in_turn)) = ["m1"].
Proof. repeat split. Qed.

Example import_never_duplicates_sample :
  let out := POST (sample_env rejects_invoice (Resolved sample_inbox))
                  sample_run sample_request sample_world in
  body (fst out) = SummaryBody 3 2 ["Failed to process email: Invoice"] /\
  message_ids (w_emails (snd out)) = ["m3"; "m4"; "m1"; "m5"].
Proof. split; reflexivity. Qed.

(** ** Failures of the set-up *)


Section Setup.
Context (env : Env).

(** The per-account loop swallows every failure. *)
Lemma fetch_accounts_resolves (gmailAccounts : list GmailAccount) (maxEmails : Z) :
  forall (allGmailMessages : list FetchedItem) (w : World),
    is_resolved (fst (exec env Main
                        (fetch_accounts gmailAccounts maxEmails allGmailMessages) w)).
Proof.
  induction gmailAccounts as [|account rest IH]; intros allGmailMessages w; [done|].
  cbn [fetch_accounts]. rewrite exec_bind, exec_try_catch, exec_bind, exec_perform.
  cbn [handle event_of]. set (w1 := record_event Main _ w).
  destruct (env_gmailClient env account) as [client|e]; [|apply IH].
  rewrite exec_bind, exec_perform. cbn [handle event_of].
  destruct (env_inboxOfClient env client maxEmails) as [messages|e]; apply IH.
Qed.

Lemma setup_failure (userId : string) (maxEmails : Z) (e : JsError) (w : World) :
  setup_fails env userId maxEmails e ->
  exists tr,
    exec env Main (fetch_all userId maxEmails) w
    = (Rejected e, mkWorld (w_emails w) (w_senders w) (w_insights w) (w_errors w)
                          (w_log w ++ tr) (w_calls w) (w_draws w) (w_store w)) /\
    Forall (fun ev => fst ev = Main) tr.
Proof.
  unfold fetch_all. rewrite exec_bind, exec_perform. cbn [handle event_of].
  intros [Hc|[[Hc Ha]|(Hc & Ha & Hi)]].
  - rewrite Hc. exists [(Main, EvCategoryFindMany)].
    split; [reflexivity|]. by repeat constructor.
  - destruct (env_categories env userId) as [categories|]; [|done].
    rewrite exec_bind, exec_perform. cbn [handle event_of]. rewrite Ha.
    exists [(Main, EvCategoryFindMany); (Main, EvAccountFindMany)].
    split; [|by repeat constructor].
    unfold record_event. simpl. by rewrite <- app_assoc.
  - destruct (env_categories env userId) as [categories|]; [|done].
    rewrite exec_bind, exec_perform. cbn [handle event_of]. rewrite Ha.
    cbn [length Nat.ltb Nat.leb]. rewrite exec_bind, exec_bind, exec_perform.
    cbn [handle event_of]. rewrite Hi.
    exists [(Main, EvCategoryFindMany); (Main, EvAccountFindMany); (Main, EvFetch)].
    split; [|by repeat constructor].
    unfold record_event. simpl. by rewrite <- !app_assoc.
Qed.
End Setup.



(** ** The trace of the batch loop *)

Lemma item_pol_event (gmailMsg : GmailMessage) (X : Type) (op : Op X) :
  item_pol gmailMsg X op -> item_event gmailMsg (event_of op).
Proof. by destruct op. Qed.

Lemma processItem_first_event autoArchive userId categories (item : FetchedItem) :
  first_event (processItem autoArchive userId categories item)
  = Some (EvAnalyze (email_input (item_message item))).
Proof. reflexivity. Qed.

Section BatchTrace.
Context (env : Env) (autoArchive : bool) (userId : string).
Context (categories : list Category) (newEmails : list FetchedItem).

Lemma started_mono (seg seg' : list (Origin * Event)) (j : Job ItemResult) :
  started autoArchive userId categories newEmails seg j ->
  started autoArchive userId categories newEmails (seg ++ seg') j.
Proof.
  intros (item & Hitem & Hwithin & Hstart). exists item.
  split; [done|]. split; [done|].
  destruct Hstart as [Hinit|Hin]; [by left|right].
  apply elem_of_app. by left.
Qed.

Lemma PI_batch_step (lo hi : nat) (log1 : list (Origin * Event)) pre j post w :
  PI_batch autoArchive userId categories newEmails lo hi log1 w (pre ++ j :: post) ->
  PI_batch autoArchive userId categories newEmails lo hi log1
           (snd (step env j w)) (pre ++ fst (step env j w) :: post).
Proof.
  intros (seg & Hlog & Hseg & Hpool). destruct j as [a [r|e|X op k]];
    try (by exists seg).
  apply Forall_app in Hpool as [Hpre Hrest].
  apply Forall_cons in Hrest as [[Hrange (item & Hitem & [Hop Hk] & Hstart)] Hpost].
  cbn [fst snd] in *. unfold step. cbn [fst snd].
  pose proof (handle_log env (Task a) op w) as Hlog'.
  destruct (handle env (Task a) op w) as [r1 w1]. cbn [fst snd] in *.
  exists (seg ++ [(Task a, event_of op)]). split; [by rewrite Hlog', Hlog, app_assoc|].
  split.
  - apply Forall_app. split; [done|]. apply Forall_singleton.
    exists a, item. repeat split; try done; try lia. by apply item_pol_event.
  - apply Forall_app. split.
    { eapply Forall_impl; [exact Hpre|]. intros j [? ?]. split; [done|].
      by apply started_mono. }
    apply Forall_cons. split.
    + split; [done|]. exists item. split; [done|]. split; [apply Hk|].
      right. apply elem_of_app. destruct Hstart as [Hinit|Hin]; [right|by left].
      apply list_elem_of_singleton.
      apply (f_equal first_event) in Hinit.
      rewrite processItem_first_event in Hinit. simpl in Hinit.
      by injection Hinit as ->.
    + eapply Forall_impl; [exact Hpost|]. intros j [? ?]. split; [done|].
      by apply started_mono.
Qed.

(** One batch: the callbacks write only entries of their own items, and
    each of them calls the analysis. *)
Lemma batch_trace (i : nat) (sched : list nat) (w1 : World) :
  let batch := slice newEmails i (i + BATCH_SIZE) in
  let pool := batch_jobs autoArchive userId categories i batch in
  exists seg,
    w_log (snd (settle_pool env sched pool w1)) = w_log w1 ++ seg /\
    Forall (callback_entry newEmails i (i + BATCH_SIZE)) seg /\
    (forall a item,
       i <= a < i + BATCH_SIZE -> newEmails !! a = Some item ->
       (Task a, EvAnalyze (email_input (item_message item))) ∈ seg).
Proof.
  cbv zeta.
  set (batch := slice newEmails i (i + BATCH_SIZE)).
  set (pool := batch_jobs autoArchive userId categories i batch).
  assert (PI_batch autoArchive userId categories newEmails i (i + BATCH_SIZE)
                   (w_log w1) w1 pool) as HPI.
  { exists []. split; [by rewrite app_nil_r|]. split; [constructor|].
    apply batch_jobs_Forall. intros n item Hn. cbn [fst snd].
    pose proof (lookup_lt_Some _ _ _ Hn) as Hlt.
    unfold batch in Hlt. rewrite slice_length in Hlt.
    split; [lia|]. exists item. split; [by apply slice_lookup|].
    split; [apply processItem_within|by left]. }
  destruct (settle_pool_inv env _ (PI_batch_step i (i + BATCH_SIZE) (w_log w1))
              sched pool w1 HPI) as [(seg & Hlog & Hseg & Hpool) Hlen].
  exists seg. split; [done|]. split; [done|].
  intros a item Ha Hitem.
  assert (a - i < length pool) as Hn.
  { unfold pool, batch. rewrite batch_jobs_length, slice_length.
    apply lookup_lt_Some in Hitem. unfold BATCH_SIZE in *. lia. }
  destruct (lookup_lt_is_Some_2 pool (a - i) Hn) as [j Hj].
  destruct (lookup_lt_is_Some_2 (settle_pool env sched pool w1).1 (a - i))
    as [r Hr]; [lia|].
  assert (zip_with settle pool (settle_pool env sched pool w1).1 !! (a - i)
          = Some (settle j r)) as Hz.
  { rewrite lookup_zip_with, Hj. simpl. by rewrite Hr. }
  rewrite Forall_lookup in Hpool.
  destruct (Hpool _ _ Hz) as [_ (item' & Hitem' & _ & Hstart)].
  unfold pool in Hj. rewrite batch_jobs_lookup in Hj.
  destruct (batch !! (a - i)) as [item0|] eqn:Hb; [|done].
  injection Hj as <-. cbn [settle fst snd] in Hitem', Hstart.
  replace (i + (a - i)) with a in * by lia.
  rewrite Hitem in Hitem'. injection Hitem' as <-.
  destruct Hstart as [Habs|Hin]; [|done].
  apply (f_equal first_event) in Habs.
  rewrite processItem_first_event in Habs. by destruct r.
Qed.

(** The loop from item [i] on leaves a batched trace. *)
Lemma batch_loop_trace (fuel : nat) :
  forall (i imported skipped : nat) (scheds : list (list nat)) (w : World),
    length newEmails <= i + fuel ->
    exists tr,
      w_log (snd (batch_loop env autoArchive userId categories newEmails scheds
                             fuel i imported skipped w))
      = w_log w ++ tr /\
      batched newEmails i tr.
Proof.
  induction fuel as [|fuel IH]; intros i imported skipped scheds w Hfuel.
  - exists []. simpl. split; [by rewrite app_nil_r|]. constructor. lia.
  - cbn [batch_loop]. destruct (Nat.ltb_spec i (length newEmails)) as [Hlt|Hge];
      [|exists []; simpl; split; [by rewrite app_nil_r|by constructor]].
    set (batch := slice newEmails i (i + BATCH_SIZE)).
    set (w1 := snd (handle env Main (ConsoleLogBatch _ _ _) w)).
    set (pool := batch_jobs autoArchive userId categories i batch).
    destruct (promiseAll_accounted env (hd [] scheds) pool w1)
      as (results & w2 & Hpa & _).
    { apply batch_jobs_Forall. intros n item _. apply processItem_accounted. }
    destruct (batch_trace i (hd [] scheds) w1) as (seg & Hlog2 & Hseg & Hall).
    fold batch pool in Hlog2. rewrite <- promiseAll_world, Hpa in Hlog2.
    cbn [snd] in Hlog2. rewrite Hpa.
    set (w3 := if Nat.ltb (i + BATCH_SIZE) (length newEmails)
               then snd (handle env Main (Sleep BATCH_DELAY_MS) w2) else w2).
    destruct (IH (i + BATCH_SIZE)
                (imported + length (List.filter is_imported results))
                (skipped + length (List.filter is_skipped results))
                (tl scheds) w3) as (rest & Hlog' & Hrest);
      [unfold BATCH_SIZE; lia|].
    eexists. split; [|by apply (batched_batch newEmails i seg rest)].
    rewrite Hlog'. unfold w3.
    destruct (Nat.ltb (i + BATCH_SIZE) (length newEmails)).
    + rewrite handle_log, Hlog2. unfold w1. rewrite handle_log. cbn [event_of].
      by rewrite <- !app_assoc.
    + rewrite Hlog2. unfold w1. rewrite handle_log. cbn [event_of].
      by rewrite <- !app_assoc.
Qed.
End BatchTrace.

Lemma callback_entry_not_main (newEmails : list FetchedItem) (lo hi : nat)
    (seg : list (Origin * Event)) :
  Forall (callback_entry newEmails lo hi) seg ->
  List.filter is_batch_marker seg = [] /\ List.filter is_pause seg = [].
Proof.
  induction 1 as [|[o ev] seg (a & item & Ho & _) _ [IH1 IH2]]; [done|].
  simpl in Ho. subst o. simpl. by rewrite IH1, IH2.
Qed.

Lemma ceil_div_step (n : nat) :
  0 < n -> ceil_div n BATCH_SIZE = S (ceil_div (n - BATCH_SIZE) BATCH_SIZE).
Proof.
  intros Hn. unfold ceil_div, BATCH_SIZE. simpl Nat.sub at 1 3.
  destruct (Nat.le_gt_cases 4 n) as [H4|H4].
  - replace (n + 3) with ((n - 4 + 3) + 1 * 4) by lia.
    rewrite Nat.div_add by lia. lia.
  - replace (n - 4) with 0 by lia.
    rewrite (Nat.div_small (0 + 3) 4) by lia.
    symmetry. apply (Nat.div_unique _ _ _ (n - 1)); lia.
Qed.

(** In a batched trace the announcements are [ceil(M / 4)] and the pauses
    one less, none for an empty list. *)
Lemma batched_counts (newEmails : list FetchedItem) (i : nat)
    (tr : list (Origin * Event)) :
  batched newEmails i tr ->
  batches_in tr = ceil_div (length newEmails - i) BATCH_SIZE /\
  pauses_in tr = ceil_div (length newEmails - i) BATCH_SIZE - 1.
Proof.
  induction 1 as [i Hge|i seg rest Hlt Hseg _ _ [IHb IHp]].
  - replace (length newEmails - i) with 0 by lia. done.
  - destruct (callback_entry_not_main _ _ _ _ Hseg) as [Hm Hp].
    unfold batches_in, pauses_in in *. cbn [List.filter is_batch_marker is_pause].
    rewrite !List.filter_app, Hm, Hp, !length_app. cbn [length app].
    rewrite (ceil_div_step (length newEmails - i)) by lia.
    replace (length newEmails - i - BATCH_SIZE)
      with (length newEmails - (i + BATCH_SIZE)) by lia.
    split.
    + destruct (Nat.ltb _ _); cbn [List.filter is_batch_marker app length];
        rewrite ?length_app, IHb; cbn [length]; lia.
    + destruct (Nat.ltb_spec (i + BATCH_SIZE) (length newEmails)) as [Hmore|Hlast];
        cbn [List.filter is_pause app length]; rewrite ?length_app, IHp;
        cbn [length Nat.add].
      * rewrite (ceil_div_step (length newEmails - (i + BATCH_SIZE))) by lia. lia.
      * replace (length newEmails - (i + BATCH_SIZE)) with 0 by lia. done.
Qed.

Lemma slice_shift {A} (l : list A) (k : nat) :
  slice l (S k * BATCH_SIZE) (S k * BATCH_SIZE + BATCH_SIZE)
  = slice (drop BATCH_SIZE l) (k * BATCH_SIZE) (k * BATCH_SIZE + BATCH_SIZE).
Proof.
  unfold slice. rewrite drop_drop.
  replace (S k * BATCH_SIZE + BATCH_SIZE - S k * BATCH_SIZE) with BATCH_SIZE by lia.
  replace (k * BATCH_SIZE + BATCH_SIZE - k * BATCH_SIZE) with BATCH_SIZE by lia.
  replace (S k * BATCH_SIZE) with (BATCH_SIZE + k * BATCH_SIZE) by lia.
  reflexivity.
Qed.

Lemma concat_slices {A} (n : nat) :
  forall l : list A,
    length l <= n * BATCH_SIZE ->
    concat (map (fun k => slice l (k * BATCH_SIZE) (k * BATCH_SIZE + BATCH_SIZE))
                (seq 0 n)) = l.
Proof.
  induction n as [|n IH]; intros l Hl.
  - destruct l; [done|simpl in Hl; lia].
  - cbn [seq map concat]. rewrite <- seq_shift, map_map.
    rewrite (map_ext _ (fun k => slice (drop BATCH_SIZE l) (k * BATCH_SIZE)
                                       (k * BATCH_SIZE + BATCH_SIZE)))
      by (intros k; apply slice_shift).
    rewrite IH by (rewrite length_drop; unfold BATCH_SIZE in *; lia).
    unfold slice. simpl. apply take_drop.
Qed.

Lemma ceil_div_covers (n : nat) : n <= ceil_div n BATCH_SIZE * BATCH_SIZE.
Proof.
  unfold ceil_div, BATCH_SIZE. simpl Nat.sub.
  pose proof (Nat.div_mod_eq (n + 3) 4) as H.
  pose proof (Nat.mod_upper_bound (n + 3) 4). lia.
Qed.

Lemma ceil_div_tight (n k : nat) : k < ceil_div n BATCH_SIZE -> k * BATCH_SIZE < n.
Proof.
  unfold ceil_div, BATCH_SIZE. simpl Nat.sub. intros Hk.
  pose proof (Nat.div_mod_eq (n + 3) 4) as H.
  pose proof (Nat.mod_upper_bound (n + 3) 4). lia.
Qed.

(** The groups are consecutive, in order, non-empty and of at most four
    items, and there are [ceil(M / 4)] of them. *)
Lemma batches_of_partition {A} (l : list A) :
  concat (batches_of l) = l /\
  Forall (fun b => 1 <= length b <= BATCH_SIZE) (batches_of l) /\
  length (batches_of l) = ceil_div (length l) BATCH_SIZE.
Proof.
  unfold batches_of. split; [|split].
  - apply concat_slices, ceil_div_covers.
  - apply Forall_map, Forall_forall. intros k Hk.
    apply list_elem_of_In, in_seq in Hk. cbn [Nat.add] in Hk.
    pose proof (ceil_div_tight (length l) k ltac:(lia)) as Hlt.
    cbn beta. rewrite slice_length. unfold BATCH_SIZE in *. lia.
  - by rewrite length_map, length_seq.
Qed.

(** C3, as stated, fails for the empty list: no batch runs and the loop
    pauses 0 times, which is not [ceil(0 / 4) - 1 = -1]. *)
Lemma empty_list_pauses_zero_times :
  let out := batch_loop (sample_env (limited_then_ok 0) (Resolved [])) false "user-1"
                        [] [] [] 0 0 0 0 empty_world in
  pauses_in (new_events empty_world (snd out)) = 0 /\
  Z.of_nat (pauses_in (new_events empty_world (snd out)))
  <> (Z.of_nat (ceil_div 0 BATCH_SIZE) - 1)%Z.
Proof. split; [reflexivity|discriminate]. Qed.

(** C3, amended.  For every list of [M] new items, whatever the
    collaborators do and however the callbacks of a batch interleave, the
    loop completes; it takes the items in consecutive groups of at most 4,
    in order, [ceil(M / 4)] groups in all; the callbacks of a group have all
    settled, each having called the analysis for its own item, before the
    pause and the next group's announcement; and the loop pauses
    [ceil(M / 4) - 1] times when [M >= 1], never when [M = 0]. *)
Theorem batch_loop_batches
    (env : Env) (autoArchive : bool) (userId : string) (categories : list Category)
    (newEmails : list FetchedItem) (scheds : list (list nat))
    (imported skipped : nat) (w : World) :
  let M := length newEmails in
  let out := batch_loop env autoArchive userId categories newEmails scheds
                        M 0 imported skipped w in
  let tr := new_events w (snd out) in
  is_resolved (fst out) /\
  (concat (batches_of newEmails) = newEmails /\
   Forall (fun b => 1 <= length b <= BATCH_SIZE) (batches_of newEmails) /\
   length (batches_of newEmails) = ceil_div M BATCH_SIZE) /\
  batched newEmails 0 tr /\
  batches_in tr = ceil_div M BATCH_SIZE /\
  (0 < M -> pauses_in tr + 1 = ceil_div M BATCH_SIZE) /\
  (M = 0 -> pauses_in tr = 0).
Proof.
  cbv zeta.
  destruct (batch_loop_spec env autoArchive userId categories newEmails
              (fun _ _ _ => True) (fun _ => True)
              ltac:(by intros ? ? ? ? ? ?)
              ltac:(by intros; apply Within_any) ltac:(done) ltac:(done)
              (length newEmails) 0 imported skipped scheds w)
    as (imported' & skipped' & w' & Eb & _); [lia|done|].
  destruct (batch_loop_trace env autoArchive userId categories newEmails
              (length newEmails) 0 imported skipped scheds w)
    as (tr & Hlog & Hbatched); [lia|].
  rewrite (new_events_app _ _ _ Hlog).
  destruct (batched_counts newEmails 0 tr Hbatched) as [Hb Hp].
  rewrite Nat.sub_0_r in Hb, Hp.
  split; [by rewrite Eb|]. split; [apply batches_of_partition|].
  split; [done|]. split; [done|]. split.
  - intros HM. rewrite Hp. rewrite (ceil_div_step (length newEmails)) by done. lia.
  - intros HM. rewrite Hp, HM. done.
Qed.

(** Nine new items: batches of 4, 4 and 1, and two pauses. *)
Example nine_items_three_batches :
  let out := batch_loop (sample_env (limited_then_ok 0) (Resolved [])) false "user-1"
                        [] nine_items [[1; 0; 3; 2; 2; 1]; []; [0; 0]] 9 0 0 0
                        empty_world in
  fst out = Resolved (9, 0) /\
  batch_sizes_in (new_events empty_world (snd out)) = [4; 4; 1] /\
  pauses_in (new_events empty_world (snd out)) = 2 /\
  map length (batches_of nine_items) = [4; 4; 1].
Proof. repeat split. Qed.

(** ** A message whose analysis fails *)

Section Failing.
Context (env : Env) (autoArchive : bool) (userId : string).
Context (categories : list Category) (item_of : nat -> option FetchedItem).

Lemma handle_errors_mono (o : Origin) {X} (op : Op X) (w : World) (line : string) :
  line ∈ w_errors w -> line ∈ w_errors (snd (handle env o op w)).
Proof.
  intros Hin. destruct (is_push op) eqn:Hpush.
  - destruct (handle_push env o op w Hpush) as (x & line' & _ & _ & ->).
    apply elem_of_app. by left.
  - by rewrite handle_errors.
Qed.

Lemma step_errors_mono (j : Job ItemResult) (w : World) (line : string) :
  line ∈ w_errors w -> line ∈ w_errors (snd (step env j w)).
Proof.
  intros Hin. destruct j as [a [r|e|X op k]]; try done.
  unfold step. cbn [fst snd].
  pose proof (handle_errors_mono (Task a) op w line Hin) as H.
  by destruct (handle env (Task a) op w).
Qed.

Lemma failing_state_mono (item : FetchedItem) (w w' : World) (p : Prog ItemResult) :
  (forall line, line ∈ w_errors w -> line ∈ w_errors w') ->
  failing_state autoArchive userId categories item w p ->
  failing_state autoArchive userId categories item w' p.
Proof.
  intros Hmono [H|[H|(e & H & Hin)]]; [by left|by right; left|].
  right; right. exists e. split; [done|by apply Hmono].
Qed.

(** The first step of the callback when the analysis is rejected with an
    error that is not a rate limit: straight to the [catch] block. *)
Lemma step_processItem_fail (a : nat) (item : FetchedItem) (w : World) (e : JsError) :
  env_analyze env (w_calls w) (email_input (item_message item)) categories
  = Rejected e ->
  is429 e = false ->
  step env (a, processItem autoArchive userId categories item) w
  = ((a, catch_block (item_message item) e),
     bump_calls (record_event (Task a)
                   (EvAnalyze (email_input (item_message item))) w)).
Proof.
  intros He H429. unfold step. cbn. rewrite He. cbn. by rewrite H429.
Qed.

Lemma step_catch_block (a : nat) (gmailMsg : GmailMessage) (e : JsError) (w : World) :
  step env (a, catch_block gmailMsg e) w
  = ((a, Ret (failure_result e)),
     set_errors (w_errors w ++ [failure_line gmailMsg])
                (record_event (Task a) (EvErrorsPush (failure_line gmailMsg)) w)).
Proof. reflexivity. Qed.

Lemma failing_state_step (a : nat) (item : FetchedItem) (p : Prog ItemResult)
    (w : World) :
  always_fails env categories (item_message item) ->
  failing_state autoArchive userId categories item w p ->
  failing_state autoArchive userId categories item
                (snd (step env (a, p) w)) (snd (fst (step env (a, p) w))).
Proof.
  intros Haf [->|[(e & ->)|(e & -> & Hin)]].
  - destruct (Haf (w_calls w)) as (e & He & H429).
    rewrite (step_processItem_fail a item w e He H429). right; left. by exists e.
  - rewrite step_catch_block. right; right. exists e. split; [done|].
    cbn. apply elem_of_app. right. by apply list_elem_of_singleton.
  - right; right. by exists e.
Qed.

Lemma PI_state_step pre j post w :
  PI_state env autoArchive userId categories item_of w (pre ++ j :: post) ->
  PI_state env autoArchive userId categories item_of
           (snd (step env j w)) (pre ++ fst (step env j w) :: post).
Proof.
  unfold PI_state. intros Hpool.
  apply Forall_app in Hpool as [Hpre Hrest].
  apply Forall_cons in Hrest as [Hj Hpost].
  apply Forall_app. split; [|apply Forall_cons; split].
  - eapply Forall_impl; [exact Hpre|]. intros j' H item Hitem Haf.
    eapply failing_state_mono; [|by apply H]. intros line. apply step_errors_mono.
  - intros item Hitem Haf. rewrite step_fst in Hitem. destruct j as [a p].
    apply failing_state_step; [done|]. by apply Hj.
  - eapply Forall_impl; [exact Hpost|]. intros j' H item Hitem Haf.
    eapply failing_state_mono; [|by apply H]. intros line. apply step_errors_mono.
Qed.

(** A settled callback in a failing state resolved to a failure, reported
    in [errors]. *)
Lemma failing_state_settled (item : FetchedItem) (w : World)
    (r : Outcome ItemResult) :
  failing_state autoArchive userId categories item w (of_outcome r) ->
  exists e,
    r = Resolved (failure_result e) /\
    failure_line (item_message item) ∈ w_errors w.
Proof.
  intros [H|[(e & H)|(e & H & Hin)]].
  - apply (f_equal first_event) in H. rewrite processItem_first_event in H.
    by destruct r.
  - apply (f_equal first_event) in H. by destruct r.
  - exists e. split; [|done]. destruct r as [x|e']; [|done].
    simpl in H. by injection H as ->.
Qed.
End Failing.

Lemma all_resolved_lookup {A} (rs : list (Outcome A)) :
  forall (results : list A) (n : nat) (x : A),
    all_resolved rs = Resolved results ->
    rs !! n = Some (Resolved x) -> results !! n = Some x.
Proof.
  induction rs as [|[a|e] rs IH]; intros results n x Hall Hn; try done.
  simpl in Hall. destruct (all_resolved rs) as [l|e] eqn:Hrs; [|done].
  injection Hall as <-. destruct n as [|n]; simpl in *.
  - by injection Hn as ->.
  - by apply IH.
Qed.

Section FailingBatch.
Context (env : Env) (autoArchive : bool) (userId : string).
Context (categories : list Category).

(** Whatever the batch, the position and the schedule: the callback of a
    message whose analysis fails resolves to a failure and the line is in
    [errors]. *)
Lemma batch_failing_result (batch : list FetchedItem) (i n : nat)
    (item : FetchedItem) (sched : list nat) (w : World) :
  batch !! n = Some item ->
  always_fails env categories (item_message item) ->
  exists results w' e,
    promiseAll env sched (batch_jobs autoArchive userId categories i batch) w
    = (Resolved results, w') /\
    results !! n = Some (failure_result e) /\
    failure_line (item_message item) ∈ w_errors w'.
Proof.
  intros Hn Haf.
  set (pool := batch_jobs autoArchive userId categories i batch).
  destruct (promiseAll_accounted env sched pool w) as (results & w' & Hpa & Hlen & _).
  { apply batch_jobs_Forall. intros n' item' _. apply processItem_accounted. }
  pose (item_of := fun a => if Nat.leb i a then batch !! (a - i) else None).
  assert (PI_state env autoArchive userId categories item_of w pool) as HPI.
  { apply batch_jobs_Forall. intros n' item' Hn' item'' Hitem'' _. left.
    unfold item_of in Hitem''. cbn [fst snd] in *.
    destruct (Nat.leb_spec i (i + n')); [|lia].
    replace (i + n' - i) with n' in Hitem'' by lia. congruence. }
  destruct (settle_pool_inv env _
              (PI_state_step env autoArchive userId categories item_of)
              sched pool w HPI) as [Hfinal Hrs].
  pose proof Hpa as Hpa0. unfold promiseAll in Hpa.
  destruct (settle_pool env sched pool w) as [rs w2]. cbn [fst snd] in *.
  injection Hpa as Hall Hw. subst w2.
  assert (n < length pool) as Hlt.
  { unfold pool. rewrite batch_jobs_length. by apply lookup_lt_Some in Hn. }
  destruct (lookup_lt_is_Some_2 rs n) as [r Hr]; [lia|].
  assert (zip_with settle pool rs !! n = Some (i + n, of_outcome r)) as Hz.
  { rewrite lookup_zip_with. unfold pool. rewrite batch_jobs_lookup, Hn. simpl.
    by rewrite Hr. }
  unfold PI_state in Hfinal. rewrite Forall_lookup in Hfinal.
  specialize (Hfinal _ _ Hz item). cbn [fst snd] in Hfinal.
  destruct (failing_state_settled autoArchive userId categories item w' r)
    as (e & -> & Hin).
  { apply Hfinal; [|done]. unfold item_of.
    destruct (Nat.leb_spec i (i + n)); [|lia].
    by replace (i + n - i) with n by lia. }
  exists results, w', e. split; [exact Hpa0|]. split; [|done].
  by apply (all_resolved_lookup rs).
Qed.
End FailingBatch.

Lemma find_email_app_ne (id : string) (rows : list EmailRow) (data : EmailRow) :
  find_email id rows = None -> row_messageId data <> id ->
  find_email id (rows ++ [data]) = None.
Proof.
  intros Hnone Hne. unfold find_email in *.
  induction rows as [|r rows IH]; simpl in *.
  - by destruct (String.eqb_spec (row_messageId data) id).
  - destruct (String.eqb (row_messageId r) id); [done|]. by apply IH.
Qed.

Lemma created_event {X} (op : Op X) (data : EmailRow) :
  created op = Some data -> event_of op = EvCreate (row_messageId data).
Proof. destruct op; simpl; intros H; try discriminate. by injection H as ->. Qed.

Section FailingRun.
Context (env : Env) (autoArchive : bool) (userId : string).
Context (categories : list Category) (newEmails : list FetchedItem) (id : string).
Hypothesis Hid : forall a item,
  newEmails !! a = Some item ->
  msg_id (item_message item) = id ->
  always_fails env categories (item_message item).

(** A callback in a failing state is not about to insert a row. *)
Lemma failing_state_no_create (item : FetchedItem) (w : World) {X} (op : Op X)
    (k : Outcome X -> Prog ItemResult) (data : EmailRow) :
  failing_state autoArchive userId categories item w (Await op k) ->
  created op = Some data -> False.
Proof.
  intros Hfs Hc. apply created_event in Hc.
  destruct Hfs as [H|[(e & H)|(e & H & _)]]; [| |done];
    apply (f_equal first_event) in H; simpl in H; congruence.
Qed.

Lemma PI_fail_step (i : nat) pre j post w :
  PI_fail env autoArchive userId categories newEmails id i w (pre ++ j :: post) ->
  PI_fail env autoArchive userId categories newEmails id i
          (snd (step env j w)) (pre ++ fst (step env j w) :: post).
Proof.
  intros (Hnorow & Hrep & Hwithin & Hstate).
  split; [|split; [|split]].
  - destruct j as [a [r|e|X op k]]; try done.
    unfold step. cbn [fst snd].
    pose proof (handle_emails env (Task a) op w) as Hem.
    destruct (handle env (Task a) op w) as [r1 w1]. cbn [fst snd] in *.
    destruct Hem as [->|(data & Hc & _ & ->)]; [done|].
    apply find_email_app_ne; [done|]. intros Heq.
    apply Forall_app in Hwithin as [_ Hrest].
    apply Forall_cons in Hrest as [(item & Hitem & [Hop _]) _].
    apply Forall_app in Hstate as [_ Hrest].
    apply Forall_cons in Hrest as [Hj _]. cbn [fst snd] in *.
    pose proof (item_pol_created _ X op data Hop Hc) as Hrow.
    eapply (failing_state_no_create item w op k data); [|done].
    apply Hj; [done|]. apply (Hid a); [done|congruence].
  - intros a item Ha Hitem Haf. apply step_errors_mono. by apply (Hrep a).
  - apply Forall_app in Hwithin as [Hpre Hrest].
    apply Forall_cons in Hrest as [(item & Hitem & Hj) Hpost].
    apply Forall_app. split; [done|]. apply Forall_cons. split; [|done].
    exists item. rewrite step_fst. split; [done|].
    destruct j as [a [r|e|X op k]]; try done.
    unfold step. cbn [fst snd] in *. destruct Hj as [_ Hk].
    destruct (handle env (Task a) op w) as [r1 w1]. apply Hk.
  - by apply PI_state_step.
Qed.

(** The loop keeps the table free of a row for [id] and reports the
    failure of every failing item it has passed. *)
Lemma batch_loop_failing (fuel : nat) :
  forall (i imported skipped : nat) (scheds : list (list nat)) (w : World),
    length newEmails <= i + fuel ->
    find_email id (w_emails w) = None ->
    failures_reported env categories newEmails i w ->
    let w' := snd (batch_loop env autoArchive userId categories newEmails scheds
                              fuel i imported skipped w) in
    find_email id (w_emails w') = None /\
    failures_reported env categories newEmails (length newEmails) w'.
Proof.
  induction fuel as [|fuel IH]; intros i imported skipped scheds w Hfuel Hnorow Hrep.
  - cbv zeta. simpl. split; [done|]. intros a item Ha. apply (Hrep a). lia.
  - cbv zeta. cbn [batch_loop].
    destruct (Nat.ltb_spec i (length newEmails)) as [Hlt|Hge];
      [|simpl; split; [done|]; intros a item Ha; apply (Hrep a); lia].
    set (batch := slice newEmails i (i + BATCH_SIZE)).
    set (w1 := snd (handle env Main (ConsoleLogBatch _ _ _) w)).
    set (pool := batch_jobs autoArchive userId categories i batch).
    destruct (promiseAll_accounted env (hd [] scheds) pool w1)
      as (results & w2 & Hpa & Hlen & _).
    { apply batch_jobs_Forall. intros n item _. apply processItem_accounted. }
    assert (PI_fail env autoArchive userId categories newEmails id i w1 pool) as HPI.
    { split; [done|]. split; [done|]. split.
      - apply batch_jobs_Forall. intros n item Hn. exists item. cbn [fst snd].
        split; [by apply slice_lookup|apply processItem_within].
      - apply batch_jobs_Forall. intros n item Hn item' Hitem' _. left.
        cbn [fst snd] in *. apply slice_lookup in Hn. congruence. }
    destruct (settle_pool_inv env _ (PI_fail_step i) (hd [] scheds) pool w1 HPI)
      as [(Hnorow2 & Hrep2 & _ & Hstate2) Hrs].
    rewrite <- promiseAll_world, Hpa in Hnorow2, Hrep2, Hstate2.
    rewrite Hpa. clear Hpa.
    set (rs := fst (settle_pool env (hd [] scheds) pool w1)) in *.
    cbn [fst snd] in *.
    set (w3 := if Nat.ltb (i + BATCH_SIZE) (length newEmails)
               then snd (handle env Main (Sleep BATCH_DELAY_MS) w2) else w2).
    assert (w_emails w3 = w_emails w2 /\ w_errors w3 = w_errors w2) as [Hem3 Her3]
      by (unfold w3; by destruct (Nat.ltb _ _)).
    apply IH; [unfold BATCH_SIZE; lia|by rewrite Hem3|].
    intros a item Ha Hitem Haf. rewrite Her3.
    destruct (Nat.lt_ge_cases a i) as [Hold|Hnew]; [by apply (Hrep2 a)|].
    assert (a - i < length pool) as Hn.
    { unfold pool, batch. rewrite batch_jobs_length, slice_length.
      apply lookup_lt_Some in Hitem. unfold BATCH_SIZE in *. lia. }
    destruct (lookup_lt_is_Some_2 rs (a - i)) as [r Hr]; [lia|].
    destruct (lookup_lt_is_Some_2 pool (a - i) Hn) as [j Hj].
    assert (zip_with settle pool rs !! (a - i) = Some (settle j r)) as Hz.
    { rewrite lookup_zip_with, Hj. simpl. by rewrite Hr. }
    unfold pool in Hj. rewrite batch_jobs_lookup in Hj.
    destruct (batch !! (a - i)) as [item0|] eqn:Hb; [|done].
    injection Hj as <-. cbn [settle fst snd] in Hz.
    replace (i + (a - i)) with a in Hz by lia.
    unfold PI_state in Hstate2. rewrite Forall_lookup in Hstate2.
    specialize (Hstate2 _ _ Hz item Hitem Haf). cbn [snd] in Hstate2.
    by destruct (failing_state_settled autoArchive userId categories item w2 r Hstate2)
      as (e & _ & Hin).
Qed.
End FailingRun.

Section NoFault.
Context (env : Env).
Hypothesis Hnofault : forall n, env_fault env n = None.

Lemma filter_new_resolves (allGmailMessages : list FetchedItem) :
  forall (skipped : nat) (newEmails : list FetchedItem) (w : World),
    is_resolved (fst (exec env Main (filter_new allGmailMessages skipped newEmails) w)).
Proof.
  induction allGmailMessages as [|item rest IH]; intros skipped newEmails w; [done|].
  cbn [filter_new]. rewrite exec_bind, exec_perform. cbn [handle event_of].
  unfold guarded. rewrite Hnofault. cbn [fst snd].
  destruct (find_email _ _); apply IH.
Qed.

Lemma finish_run_resolves (userId : string) (today : Z) (imported : nat) (w : World) :
  is_resolved (fst (exec env Main (finish_run userId today imported) w)).
Proof.
  unfold finish_run. rewrite exec_bind, exec_perform. cbn [handle event_of].
  unfold guarded. rewrite Hnofault. cbn [fst snd].
  destruct (Nat.ltb 0 imported); [|done].
  rewrite exec_bind, exec_perform. cbn [handle event_of].
  unfold guarded. rewrite Hnofault. cbn [fst snd].
  rewrite exec_bind, exec_perform. cbn [handle event_of].
  unfold guarded. by rewrite Hnofault.
Qed.
End NoFault.

Lemma filter_new_emails (env : Env) (all : list FetchedItem) (w : World) :
  w_emails (snd (exec env Main (filter_new all 0 []) w)) = w_emails w.
Proof.
  apply (exec_respects env (fun _ X op => created op = None)
           (fun w' => w_emails w' = w_emails w) (respects_emails_exact env _)
           Main (fun _ => True)); [|done].
  eapply Within_mono; [| |apply Within_filter_new]; [|done].
  intros X op H. by destruct (find_pol_facts X op H) as (_ & _ & ?).
Qed.

Lemma finish_run_emails (env : Env) (userId : string) (today : Z) (imported : nat)
    (w : World) :
  w_emails (snd (exec env Main (finish_run userId today imported) w)) = w_emails w.
Proof.
  apply (exec_respects env (fun _ X op => created op = None)
           (fun w' => w_emails w' = w_emails w) (respects_emails_exact env _)
           Main (fun _ => True)); [|done].
  eapply Within_mono; [| |apply Within_finish_run]; [|done].
  intros X op H. by destruct (finish_pol_facts _ _ X op H).
Qed.



(** * The mailbox and the other helpers: properties *)

(** ** Strings *)

Lemma app_cons_s (c : ascii) (a b : string) : String c a +:+ b = String c (a +:+ b).
Proof. reflexivity. Qed.

Lemma app_nil_s (b : string) : "" +:+ b = b.
Proof. reflexivity. Qed.

Lemma app_empty_r (s : string) : s +:+ "" = s.
Proof. induction s as [|c s IH]; [done|]. by rewrite app_cons_s, IH. Qed.

Lemma app_assoc_s (a b c : string) : (a +:+ b) +:+ c = a +:+ b +:+ c.
Proof. induction a as [|x a IH]; [done|]. by rewrite !app_cons_s, IH. Qed.

Lemma length_app_s (a b : string) :
  String.length (a +:+ b) = String.length a + String.length b.
Proof. induction a as [|x a IH]; [done|]. rewrite app_cons_s; simpl. by rewrite IH. Qed.

Lemma substring_app_length (a b : string) :
  String.substring 0 (String.length a) (a +:+ b) = a.
Proof.
  induction a as [|x a IH]; [by destruct b|]. rewrite app_cons_s; simpl. by rewrite IH.
Qed.

(** ** The matcher *)

Lemma match_ends_seq_of (r : Regex) (rs : list Regex) (st : MatchState) :
  match_ends (seq_of (r :: rs)) st
  = flat_map (match_ends (seq_of rs)) (match_ends r st).
Proof. reflexivity. Qed.

Lemma match_ends_seq_nil (st : MatchState) : match_ends (seq_of []) st = [st].
Proof. reflexivity. Qed.

Lemma match_ends_star_set (g : bool) (p : ascii -> bool) (st : MatchState) :
  match_ends (RStar g (RSet p)) st
  = match remaining st with
    | String c _ =>
        if p c then
          if g then match_ends (RStar g (RSet p)) (advance st) ++ [st]
          else st :: match_ends (RStar g (RSet p)) (advance st)
        else [st]
    | EmptyString => [st]
    end.
Proof.
  destruct st as [i s caps]. destruct s as [|c rest]; cbn -[Nat.ltb].
  - by destruct g.
  - destruct (p c); cbn -[Nat.ltb]; [|by destruct g].
    assert (Nat.ltb i (S i) = true) as -> by (apply Nat.ltb_lt; lia).
    rewrite app_nil_r. reflexivity.
Qed.

Lemma in_flat_map_s {A B} (f : A -> list B) (l : list A) (y : B) :
  In y (flat_map f l) -> exists x, In x l /\ In y (f x).
Proof. intros H. by apply in_flat_map in H. Qed.

Lemma match_ends_sound (r : Regex) :
  forall st st', In st' (match_ends r st) ->
  exists t, remaining st = t +:+ remaining st'
            /\ at_index st' = at_index st + String.length t
            /\ Matches r (at_index st) t (remaining st').
Proof.
  induction r as [|p|r1 IH1 r2 IH2|r1 IH1|g r1 IH1|n r1 IH1| |]; intros st st' Hin.
  - destruct Hin as [<-|[]]. exists "". by rewrite Nat.add_0_r.
  - simpl in Hin. destruct st as [i s caps]. simpl in *.
    destruct s as [|c rest]; [done|]. destruct (p c) eqn:Hp; [|done].
    destruct Hin as [<-|[]]. exists (String c ""). simpl.
    split; [done|]. split; [lia|]. by exists c.
  - simpl in Hin. apply in_flat_map_s in Hin as (st1 & H1 & H2).
    apply IH1 in H1 as (t1 & E1 & I1 & M1). apply IH2 in H2 as (t2 & E2 & I2 & M2).
    exists (t1 +:+ t2). rewrite app_assoc_s, length_app_s. rewrite E1, E2.
    split; [done|]. split; [lia|]. exists t1, t2.
    rewrite <- E2. rewrite <- I1. done.
  - simpl in Hin. apply in_app_or in Hin as [Hin|[<-|[]]].
    + apply filter_In in Hin as [Hin _]. apply IH1 in Hin as (t & E & I & M).
      exists t. split; [done|]. split; [done|]. by right.
    + exists "". rewrite Nat.add_0_r. split; [done|]. split; [done|]. by left.
  - cbn [match_ends] in Hin. revert Hin. generalize (S (String.length (remaining st))).
    intros fuel. revert st. induction fuel as [|fuel IHf]; intros st Hin.
    + destruct Hin as [<-|[]]. exists "". rewrite Nat.add_0_r.
      split; [done|]. split; [done|]. by exists 0.
    + assert (In st'
        (flat_map (fun st1 => if Nat.ltb (at_index st) (at_index st1)
                              then iterate (match_ends r1) g fuel st1 else [])
                  (match_ends r1 st)) \/ st' = st) as [Hmore| ->].
      { simpl in Hin.
        destruct g; [apply in_app_or in Hin as [?|[<-|[]]]|destruct Hin as [<-|?]]; auto. }
      * apply in_flat_map_s in Hmore as (st1 & H1 & H2).
        destruct (Nat.ltb (at_index st) (at_index st1)); [|done].
        apply IH1 in H1 as (t1 & E1 & I1 & M1). apply IHf in H2 as (t2 & E2 & I2 & [n M2]).
        exists (t1 +:+ t2). rewrite app_assoc_s, length_app_s, E1, E2.
        split; [done|]. split; [lia|]. exists (S n), t1, t2.
        rewrite <- E2, <- I1. done.
      * exists "". rewrite Nat.add_0_r. split; [done|]. split; [done|]. by exists 0.
  - simpl in Hin. apply in_map_iff in Hin as (st1 & <- & Hin).
    apply IH1 in Hin as (t & E & I & M). by exists t.
  - simpl in Hin. destruct (Nat.eqb (at_index st) 0) eqn:E; [|done].
    destruct Hin as [<-|[]]. apply Nat.eqb_eq in E. exists "".
    rewrite Nat.add_0_r. done.
  - simpl in Hin. destruct (remaining st) eqn:E; [|done].
    destruct Hin as [<-|[]]. exists "". rewrite Nat.add_0_r, E. done.
Qed.

Lemma head_In {A} (l : list A) (x : A) : head l = Some x -> In x l.
Proof. destruct l; [done|]. intros [= ->]. by left. Qed.

Lemma regex_exec_eq (r : Regex) (i : nat) (s : string) :
  regex_exec r i s
  = match head (match_ends r (start_state i s)) with
    | Some st => Some (match_of i s st)
    | None =>
        match s with
        | EmptyString => None
        | String _ rest => regex_exec r (S i) rest
        end
    end.
Proof. by destruct s. Qed.

Lemma attempt_sound (r : Regex) (i : nat) (s : string) (st : MatchState) :
  In st (match_ends r (start_state i s)) ->
  s = m_text (match_of i s st) +:+ remaining st
  /\ Matches r i (m_text (match_of i s st)) (remaining st).
Proof.
  intros Hin. apply match_ends_sound in Hin as (t & E & I & M).
  unfold match_of; cbn [m_text start_state remaining at_index] in *.
  rewrite I. replace (i + String.length t - i) with (String.length t) by lia.
  subst s. by rewrite substring_app_length.
Qed.

Lemma regex_exec_sound (r : Regex) (s : string) :
  forall i m, regex_exec r i s = Some m ->
  exists pre, s = pre +:+ m_text m +:+ m_after m
              /\ m_index m = i + String.length pre
              /\ Matches r (m_index m) (m_text m) (m_after m).
Proof.
  induction s as [|c rest IH]; intros i m H; rewrite regex_exec_eq in H.
  - destruct (head _) as [st|] eqn:Hh; [|done]. injection H as <-.
    apply head_In, attempt_sound in Hh as [E M].
    exists "". rewrite Nat.add_0_r. done.
  - destruct (head _) as [st|] eqn:Hh.
    + injection H as <-. apply head_In, attempt_sound in Hh as [E M].
      exists "". rewrite Nat.add_0_r. done.
    + apply IH in H as (pre & E & I & M). exists (String c pre).
      rewrite app_cons_s, <- E. simpl. split; [done|]. split; [lia|done].
Qed.

(** ** Texts that match *)

Lemma toLowerCase_app (a b : string) :
  toLowerCase (a +:+ b) = toLowerCase a +:+ toLowerCase b.
Proof. induction a as [|c a IH]; [done|]. rewrite app_cons_s; simpl. by rewrite IH. Qed.

Lemma every_app (p : ascii -> bool) (a b : string) :
  every p (a +:+ b) = every p a && every p b.
Proof.
  induction a as [|c a IH]; [done|]. rewrite app_cons_s; simpl.
  by rewrite IH, andb_assoc.
Qed.

Lemma chr_i_lower (c x : ascii) : chr_i c x = true -> lower_unit x = lower_unit c.
Proof.
  unfold chr_i. intros H. apply orb_true_iff in H as [H|H].
  - apply Ascii.eqb_eq in H. by subst.
  - apply andb_true_iff in H as [H1 H2]. apply Ascii.eqb_eq in H2. subst c.
    revert H1. destruct x as [[] [] [] [] [] [] [] []]; vm_compute; congruence.
Qed.

Lemma Matches_lit_i (k : string) :
  forall i t after, Matches (lit true k) i t after -> toLowerCase t = toLowerCase k.
Proof.
  induction k as [|c k IH]; intros i t after H; simpl in H.
  - by subst.
  - destruct H as (t1 & t2 & -> & (x & -> & Hx) & H2).
    apply IH in H2. apply chr_i_lower in Hx. rewrite app_cons_s, app_nil_s. simpl.
    by rewrite Hx, H2.
Qed.

Lemma Iterated_set (p : ascii -> bool) (after : string) (n : nat) :
  forall i t, Iterated (Matches (RSet p)) after n i t -> every p t = true.
Proof.
  induction n as [|n IH]; intros i t H; simpl in H.
  - by subst.
  - destruct H as (t1 & t2 & -> & (x & -> & Hx) & H2). apply IH in H2.
    rewrite app_cons_s, app_nil_s. simpl. by rewrite Hx, H2.
Qed.

Lemma Matches_star_set (g : bool) (p : ascii -> bool) i t after :
  Matches (RStar g (RSet p)) i t after -> every p t = true.
Proof. intros [n H]. by eapply Iterated_set. Qed.

Lemma Matches_plus_set (g : bool) (p : ascii -> bool) i t after :
  Matches (RPlus g (RSet p)) i t after -> t <> "" /\ every p t = true.
Proof.
  intros (t1 & t2 & -> & (x & -> & Hx) & H2). apply Matches_star_set in H2.
  rewrite app_cons_s, app_nil_s. split; [done|]. simpl. by rewrite Hx, H2.
Qed.

Lemma Matches_seq_cons (r : Regex) (rs : list Regex) i t after :
  Matches (seq_of (r :: rs)) i t after ->
  exists t1 t2, t = t1 +:+ t2 /\ Matches r i t1 (t2 +:+ after)
                /\ Matches (seq_of rs) (i + String.length t1) t2 after.
Proof. done. Qed.

Lemma Matches_seq_nil i t after : Matches (seq_of []) i t after -> t = "".
Proof. done. Qed.

Lemma Matches_opt_set (p : ascii -> bool) i t after :
  Matches (ROpt (RSet p)) i t after ->
  t = "" \/ exists c, t = String c "" /\ p c = true.
Proof. done. Qed.

Ltac split_seq H t1 H1 :=
  apply Matches_seq_cons in H as (t1 & ? & -> & H1 & H).

(** The shape of a text matched by one of the URL patterns. *)
Lemma url_pattern_shape (keyword : string) i t after :
  Matches (url_pattern keyword) i t after ->
  exists scheme host k tail,
    t = scheme +:+ host +:+ k +:+ tail
    /\ (toLowerCase scheme = "http://" \/ toLowerCase scheme = "https://")
    /\ host <> "" /\ every url_unit host = true
    /\ toLowerCase k = toLowerCase keyword
    /\ every url_unit tail = true.
Proof.
  unfold url_pattern. intros H.
  split_seq H t1 H1. split_seq H t2 H2. split_seq H t3 H3. split_seq H t4 H4.
  split_seq H t5 H5. split_seq H t6 H6. apply Matches_seq_nil in H as ->.
  apply Matches_lit_i in H1. apply Matches_lit_i in H3. apply Matches_lit_i in H5.
  apply Matches_star_set in H6. apply Matches_plus_set in H4 as [H4 H4'].
  apply Matches_opt_set in H2.
  exists (t1 +:+ t2 +:+ t3), t4, t5, t6. rewrite app_empty_r, !app_assoc_s.
  split; [done|]. rewrite !toLowerCase_app, H1, H3.
  split; [|done].
  destruct H2 as [->|(x & -> & Hx)]; [by left|right].
  apply chr_i_lower in Hx. simpl. by rewrite Hx.
Qed.

(** ** Cleaning the end of a link *)

Lemma flat_map_singleton {A} (l : list A) : flat_map (fun x => [x]) l = l.
Proof. induction l as [|x l IH]; [done|]. simpl. by rewrite IH. Qed.

Lemma star_then_eol (p : ascii -> bool) (caps : list (nat * string)) (s : string) :
  forall i,
  flat_map (match_ends REol)
    (match_ends (RStar true (RSet p))
       {| at_index := i; remaining := s; captures := caps |})
  = if every p s
    then [{| at_index := i + String.length s; remaining := ""; captures := caps |}]
    else [].
Proof.
  induction s as [|c rest IH]; intros i; rewrite match_ends_star_set;
    cbn [remaining].
  - simpl. by rewrite Nat.add_0_r.
  - simpl every. destruct (p c); [|done]. rewrite flat_map_app.
    unfold advance; cbn [remaining at_index captures]. rewrite IH. simpl.
    rewrite app_nil_r. by replace (S (i + String.length rest)) with (i + S (String.length rest)) by lia.
Qed.

Lemma match_ends_seq (r1 r2 : Regex) (st : MatchState) :
  match_ends (RSeq r1 r2) st = flat_map (match_ends r2) (match_ends r1 st).
Proof. reflexivity. Qed.

Lemma match_ends_set (p : ascii -> bool) (st : MatchState) :
  match_ends (RSet p) st
  = match remaining st with
    | EmptyString => []
    | String c _ => if p c then [advance st] else []
    end.
Proof. reflexivity. Qed.

Lemma match_ends_last (r : Regex) (st : MatchState) :
  match_ends (seq_of [r]) st = match_ends r st.
Proof.
  rewrite match_ends_seq_of.
  rewrite (flat_map_ext _ (fun x => [x])) by done. apply flat_map_singleton.
Qed.

Lemma trailing_attempt (s : string) (i : nat) :
  match_ends trailing_pattern (start_state i s)
  = match s with
    | EmptyString => []
    | String _ _ =>
        if every (one_of ")>]") s
        then [{| at_index := i + String.length s; remaining := ""; captures := [] |}]
        else []
    end.
Proof.
  unfold trailing_pattern, RPlus. rewrite match_ends_seq_of, match_ends_seq, match_ends_set.
  rewrite (flat_map_ext _ (match_ends REol)) by apply match_ends_last.
  destruct s as [|c rest]; [done|]. cbn [start_state remaining].
  simpl every. destruct (one_of ")>]" c); [|done].
  cbn [flat_map]. rewrite app_nil_r.
  unfold advance, start_state; cbn [remaining at_index captures].
  rewrite star_then_eol. simpl.
  by replace (S (i + String.length rest)) with (i + S (String.length rest)) by lia.
Qed.

Lemma regex_exec_index (r : Regex) (s : string) (i : nat) (m : Match) :
  regex_exec r i s = Some m -> i <= m_index m.
Proof. intros H. apply regex_exec_sound in H as (pre & _ & -> & _). lia. Qed.

Lemma trailing_exec (s : string) :
  forall i,
  match regex_exec trailing_pattern i s with
  | Some m => String.substring 0 (m_index m - i) s = strip_closers s /\ m_after m = ""
  | None => strip_closers s = s
  end.
Proof.
  induction s as [|c rest IH]; intros i; rewrite regex_exec_eq, trailing_attempt.
  - done.
  - cbn [strip_closers]. destruct (every (one_of ")>]") (String c rest)).
    + cbn [head match_of m_index m_after remaining]. by rewrite Nat.sub_diag.
    + cbn [head]. specialize (IH (S i)).
      destruct (regex_exec trailing_pattern (S i) rest) as [m|] eqn:E.
      * destruct IH as [IH ->]. apply regex_exec_index in E.
        replace (m_index m - i) with (S (m_index m - S i)) by lia.
        simpl. by rewrite IH.
      * by rewrite IH.
Qed.

Lemma substring_0_0 (s : string) : String.substring 0 0 s = "".
Proof. by destruct s. Qed.

Lemma replace_first_trailing (s : string) :
  replace_first trailing_pattern "" s = strip_closers s.
Proof.
  unfold replace_first, regex_match. pose proof (trailing_exec s 0) as H.
  destruct (regex_exec trailing_pattern 0 s) as [m|]; [|done].
  destruct H as [H ->]. rewrite Nat.sub_0_r in H. by rewrite H, app_nil_s, app_empty_r.
Qed.

Lemma strip_closers_split (s : string) :
  exists z, s = strip_closers s +:+ z /\ every (one_of ")>]") z = true.
Proof.
  induction s as [|c rest (z & E & Hz)]; [by exists ""|].
  cbn [strip_closers]. destruct (every (one_of ")>]") (String c rest)) eqn:Hs.
  - by exists (String c rest).
  - exists z. by rewrite app_cons_s, <- E.
Qed.

Lemma strip_closers_last (s l : string) (c : ascii) :
  strip_closers s = l +:+ String c "" -> one_of ")>]" c = false.
Proof.
  revert l. induction s as [|x rest IH]; intros l; cbn [strip_closers].
  - by destruct l.
  - destruct (every (one_of ")>]") (String x rest)) eqn:Hs; [by destruct l|].
    destruct l as [|y l].
    + rewrite app_nil_s. intros [= -> Hrest].
      simpl in Hs. destruct (one_of ")>]" c); [|done]. simpl in Hs.
      destruct rest as [|r rest]; [done|]. cbn [strip_closers] in Hrest.
      by rewrite Hs in Hrest.
    + rewrite app_cons_s. intros [= -> Hrest]. by eapply IH.
Qed.

Lemma strip_closers_app (x y : string) :
  x <> "" -> every (fun c => negb (one_of ")>]" c)) x = true ->
  strip_closers (x +:+ y) = x +:+ strip_closers y.
Proof.
  induction x as [|c x IH]; [done|]. intros _ Hx. simpl in Hx.
  apply andb_true_iff in Hx as [Hc Hx]. apply negb_true_iff in Hc.
  rewrite app_cons_s. cbn [strip_closers every]. rewrite Hc. cbn [andb].
  destruct x as [|c' x]; [by rewrite app_nil_s|]. by rewrite IH.
Qed.

Lemma strip_closers_keep (x y : string) :
  every (one_of ")>]") y = false -> strip_closers (x +:+ y) = x +:+ strip_closers y.
Proof.
  intros Hy. induction x as [|c x IH]; [done|].
  rewrite !app_cons_s. cbn [strip_closers]. rewrite <- app_cons_s, every_app, Hy, andb_false_r.
  by rewrite IH.
Qed.

(** ** Substrings *)

Lemma prefix_split (k t : string) :
  String.prefix k t = true <-> exists b, t = k +:+ b.
Proof.
  revert t. induction k as [|c k IH]; intros t.
  - split; [by exists t|by destruct t].
  - destruct t as [|x t]; simpl.
    + split; [done|by intros [b ?]].
    + destruct (ascii_dec c x) as [->|Hne].
      * rewrite IH. split; intros [b E]; exists b.
        -- by rewrite app_cons_s, E.
        -- rewrite app_cons_s in E. by injection E.
      * split; [done|]. intros [b E]. rewrite app_cons_s in E. by injection E as ->.
Qed.

Lemma includes_eq (k t : string) :
  includes k t
  = String.prefix k t
    || match t with EmptyString => false | String _ rest => includes k rest end.
Proof. by destruct t. Qed.

Lemma includes_split (k t : string) :
  includes k t = true <-> exists a b, t = a +:+ k +:+ b.
Proof.
  induction t as [|x t IH]; rewrite includes_eq.
  - rewrite orb_false_r, prefix_split. split.
    + intros [b E]. by exists "", b.
    + intros (a & b & E). destruct a; [by exists b|done].
  - rewrite orb_true_iff, IH, prefix_split. split.
    + intros [[b E]|(a & b & E)]; [by exists "", b|].
      exists (String x a), b. by rewrite app_cons_s, E.
    + intros (a & b & E). destruct a as [|y a].
      * left. by exists b.
      * right. rewrite app_cons_s in E. injection E as -> E. by exists a, b.
Qed.

Lemma includes_mid (k a b : string) : includes k (a +:+ k +:+ b) = true.
Proof. apply includes_split. by exists a, b. Qed.

Lemma includes_within (k t a b : string) :
  includes k t = true -> includes k (a +:+ t +:+ b) = true.
Proof.
  rewrite !includes_split. intros (x & y & ->). exists (a +:+ x), (y +:+ b).
  by rewrite !app_assoc_s.
Qed.

Lemma prefix_lower (k s : string) :
  String.prefix k s = true -> String.prefix (toLowerCase k) (toLowerCase s) = true.
Proof.
  rewrite !prefix_split. intros [b ->]. exists (toLowerCase b). apply toLowerCase_app.
Qed.

Lemma every_lower (p : ascii -> bool) (s : string) :
  (forall c, p (lower_unit c) = p c) -> every p (toLowerCase s) = every p s.
Proof. intros Hp. induction s as [|c s IH]; [done|]. simpl. by rewrite Hp, IH. Qed.

Lemma url_unit_lower (c : ascii) : url_unit (lower_unit c) = url_unit c.
Proof. by destruct c as [[] [] [] [] [] [] [] []]. Qed.

Lemma closer_lower (c : ascii) :
  negb (one_of ")>]" (lower_unit c)) = negb (one_of ")>]" c).
Proof. by destruct c as [[] [] [] [] [] [] [] []]. Qed.

(** ** [extractUnsubscribeLink]: what a link found in the text looks like *)

Lemma url_keywords_plain (kw : string) :
  In kw url_keywords ->
  toLowerCase kw = kw /\ kw <> ""
  /\ every url_unit kw = true
  /\ every (fun c => negb (one_of ")>]" c)) kw = true.
Proof. intros [<-|[<-|[<-|[<-|[]]]]]; by vm_compute. Qed.

Lemma first_url_sound (kws : list string) (text link : string) :
  (forall kw, In kw kws -> In kw url_keywords) ->
  first_url (map url_pattern kws) text = Some link ->
  exists kw pre post scheme host k tail,
    In kw url_keywords
    /\ text = pre +:+ (scheme +:+ host +:+ k +:+ tail) +:+ post
    /\ link = scheme +:+ host +:+ k +:+ strip_closers tail
    /\ (toLowerCase scheme = "http://" \/ toLowerCase scheme = "https://")
    /\ every url_unit host = true
    /\ toLowerCase k = kw
    /\ every url_unit tail = true.
Proof.
  induction kws as [|kw kws IH]; intros Hkws; [done|]. cbn [map first_url].
  destruct (regex_match (url_pattern kw) text) as [m|] eqn:Hm.
  - intros [= <-]. apply regex_exec_sound in Hm as (pre & E & _ & M).
    apply url_pattern_shape in M as (scheme & host & k & tail & Et & Hs & Hh & Hh' & Hk & Ht).
    assert (In kw url_keywords) as Hin by (apply Hkws; by left).
    destruct (url_keywords_plain kw Hin) as (Hl & Hne & _ & Hnc). rewrite Hl in Hk.
    exists kw, pre, (m_after m), scheme, host, k, tail. rewrite <- Et.
    split; [done|]. split; [done|]. split; [|done].
    rewrite replace_first_trailing, Et.
    assert (every (fun c => negb (one_of ")>]" c)) k = true) as Hk'.
    { rewrite <- (every_lower _ k) by apply closer_lower. by rewrite Hk. }
    assert (k <> "") as Hk0 by (intros ->; by rewrite <- Hk in Hne).
    assert (every (one_of ")>]") (k +:+ tail) = false) as Hkt.
    { destruct k as [|c k]; [done|]. rewrite app_cons_s. simpl in *.
      apply andb_true_iff in Hk' as [Hc _]. apply negb_true_iff in Hc. by rewrite Hc. }
    rewrite <- (app_assoc_s scheme host), (strip_closers_keep _ _ Hkt).
    by rewrite (strip_closers_app _ _ Hk0 Hk'), app_assoc_s.
  - intros H. apply IH in H; [done|]. intros kw' ?. apply Hkws. by right.
Qed.

Lemma link_facts (kw scheme host k tail : string) :
  In kw url_keywords ->
  (toLowerCase scheme = "http://" \/ toLowerCase scheme = "https://") ->
  every url_unit host = true -> toLowerCase k = kw -> every url_unit tail = true ->
  let link := scheme +:+ host +:+ k +:+ strip_closers tail in
  String.prefix "http" (toLowerCase link) = true
  /\ every url_unit link = true
  /\ includes kw (toLowerCase link) = true
  /\ (forall l c, link = l +:+ String c "" -> one_of ")>]" c = false).
Proof.
  intros Hin Hs Hh Hk Ht link.
  destruct (url_keywords_plain kw Hin) as (Hl & Hne & Hu & Hnc).
  destruct (strip_closers_split tail) as (z & Ez & Hz).
  assert (every url_unit (strip_closers tail) = true) as Ht'.
  { rewrite Ez, every_app in Ht. by apply andb_true_iff in Ht as [? _]. }
  assert (every url_unit scheme = true) as Hs'.
  { rewrite <- (every_lower _ scheme) by apply url_unit_lower. by destruct Hs as [-> | ->]. }
  assert (every url_unit k = true) as Hk'.
  { rewrite <- (every_lower _ k) by apply url_unit_lower. by rewrite Hk. }
  subst link. repeat split.
  - rewrite toLowerCase_app. by destruct Hs as [-> | ->].
  - by rewrite !every_app, Hs', Hh, Hk', Ht'.
  - rewrite !toLowerCase_app, Hk. rewrite <- (app_assoc_s (toLowerCase scheme)).
    apply includes_mid.
  - intros l c E.
    assert (every (fun c => negb (one_of ")>]" c)) k = true) as Hkc.
    { rewrite <- (every_lower _ k) by apply closer_lower. by rewrite Hk. }
    assert (k <> "") as Hk0 by (intros ->; by rewrite <- Hk in Hne).
    rewrite <- strip_closers_app in E by done.
    rewrite <- (app_assoc_s scheme) in E.
    assert (every (one_of ")>]") (k +:+ tail) = false) as Hkt.
    { destruct k as [|x k]; [done|]. rewrite app_cons_s. simpl in *.
      apply andb_true_iff in Hkc as [Hc _]. apply negb_true_iff in Hc. by rewrite Hc. }
    rewrite <- strip_closers_keep in E by done. by eapply strip_closers_last.
Qed.

Lemma anchor_link_http (fuel : nat) :
  forall lastIndex s link, anchor_link fuel lastIndex s = Some link ->
  String.prefix "http" link = true.
Proof.
  induction fuel as [|fuel IH]; intros lastIndex s link; [done|].
  cbn [anchor_link]. destruct (regex_exec anchorPattern lastIndex s) as [m|]; [|done].
  destruct (existsb _ unsubscribeKeywords); [|by apply IH].
  destruct (String.prefix "http" (trim _)) eqn:Hp; [|by apply IH].
  by intros [= <-].
Qed.

(** X1.  A link that [extractUnsubscribeLink] finds without an HTML body is a
    piece of the body; it begins with http (in either case), holds no blank,
    angle bracket or double quote, carries one of the four URL keywords (in
    either case) and does not end in a closing bracket. *)
Theorem plain_link_sound (body : string) (htmlBody : option string) (link : string) :
  truthy_string htmlBody = false ->
  extractUnsubscribeLink body htmlBody = Some link ->
  (exists pre post, body = pre +:+ link +:+ post)
  /\ String.prefix "http" (toLowerCase link) = true
  /\ every url_unit link = true
  /\ existsb (fun keyword => includes keyword (toLowerCase link))
       ["unsubscribe"; "optout"; "opt-out"; "preferences"] = true
  /\ (forall l c, link = l +:+ String c "" -> one_of ")>]" c = false).
Proof.
  intros Hhtml. unfold extractUnsubscribeLink. rewrite Hhtml. intros H.
  apply (first_url_sound url_keywords) in H
    as (kw & pre & post & scheme & host & k & tail & Hin & E & -> & Hs & Hh & Hk & Ht);
    [|done].
  destruct (link_facts kw scheme host k tail Hin Hs Hh Hk Ht) as (F1 & F2 & F3 & F4).
  split; [|split; [done|split; [done|split; [|done]]]].
  - destruct (strip_closers_split tail) as (z & Ez & _).
    exists pre, (z +:+ post). rewrite E. rewrite Ez at 1. by rewrite !app_assoc_s.
  - apply existsb_exists. by exists kw.
Qed.

Lemma plain_link_sound_witness :
  (exists pre post,
     sample_text = pre +:+ "https://example.com/lists/unsubscribe?u=17" +:+ post)
  /\ every url_unit "https://example.com/lists/unsubscribe?u=17" = true.
Proof.
  destruct (plain_link_sound sample_text None "https://example.com/lists/unsubscribe?u=17")
    as (H1 & _ & H3 & _); [reflexivity|by vm_compute|].
  split; [exact H1|exact H3].
Defined.

(** X3.  Without an HTML body, a body in which none of the four URL keywords
    occurs, in either case, gives [null]. *)
Theorem no_keyword_no_link (body : string) (htmlBody : option string) :
  truthy_string htmlBody = false ->
  existsb (fun keyword => includes keyword (toLowerCase body))
    ["unsubscribe"; "optout"; "opt-out"; "preferences"] = false ->
  extractUnsubscribeLink body htmlBody = None.
Proof.
  intros Hhtml Hno. unfold extractUnsubscribeLink. rewrite Hhtml.
  destruct (first_url urlPatterns body) as [link|] eqn:H; [|done].
  apply (first_url_sound url_keywords) in H
    as (kw & pre & post & scheme & host & k & tail & Hin & E & -> & Hs & Hh & Hk & Ht);
    [|done].
  assert (existsb (fun keyword => includes keyword (toLowerCase body)) url_keywords = true)
    as Hyes; [|unfold url_keywords in Hyes; congruence].
  apply existsb_exists. exists kw. split; [done|].
  rewrite E, !toLowerCase_app, Hk. apply includes_split.
  exists (toLowerCase pre +:+ toLowerCase scheme +:+ toLowerCase host),
         (toLowerCase tail +:+ toLowerCase post).
  by rewrite !app_assoc_s.
Qed.

Lemma no_keyword_no_link_witness :
  extractUnsubscribeLink "See http://example.com/news for more." None = None.
Proof. apply no_keyword_no_link; [reflexivity|by vm_compute]. Defined.

(** X4.  Whichever strategy finds it, a link that [extractUnsubscribeLink]
    returns begins with [http], in either case. *)
Theorem link_begins_with_http (body : string) (htmlBody : option string) (link : string) :
  extractUnsubscribeLink body htmlBody = Some link ->
  String.prefix "http" (toLowerCase link) = true.
Proof.
  unfold extractUnsubscribeLink.
  set (text := if truthy_string htmlBody then or_empty htmlBody else body).
  destruct (if truthy_string htmlBody then anchor_link _ 0 _ else None) as [href|] eqn:Ha.
  - intros [= <-]. destruct (truthy_string htmlBody); [|done].
    apply anchor_link_http in Ha. by apply (prefix_lower "http").
  - intros H. apply (first_url_sound url_keywords) in H
      as (kw & pre & post & scheme & host & k & tail & Hin & E & -> & Hs & Hh & Hk & Ht);
      [|done].
    by destruct (link_facts kw scheme host k tail Hin Hs Hh Hk Ht) as (F1 & _).
Qed.

Lemma link_begins_with_http_witness :
  String.prefix "http" (toLowerCase "https://example.com/u?id=1&t=2") = true.
Proof.
  apply (link_begins_with_http "" (Some sample_html)). by vm_compute.
Defined.

(** ** Following the matcher on a given text *)

Lemma flat_map_map {A B C} (f : B -> list C) (g : A -> B) (l : list A) :
  flat_map f (map g l) = flat_map (fun x => f (g x)) l.
Proof. induction l as [|x l IH]; [done|]. simpl. by rewrite IH. Qed.

Lemma match_ends_group (n : nat) (r : Regex) (st : MatchState) :
  match_ends (RGroup n r) st = map (capture n st) (match_ends r st).
Proof. reflexivity. Qed.

(** The leftmost match does not start where the first code unit is not
    the one the pattern begins with. *)
Lemma exec_skip (p : ascii -> bool) (rs : list Regex) (skipped s : string) :
  every (fun c => negb (p c)) skipped = true ->
  forall i,
  regex_exec (seq_of (RSet p :: rs)) i (skipped +:+ s)
  = regex_exec (seq_of (RSet p :: rs)) (i + String.length skipped) s.
Proof.
  induction skipped as [|c skipped IH]; intros H i.
  - by rewrite app_nil_s, Nat.add_0_r.
  - simpl in H. apply andb_true_iff in H as [Hc H]. apply negb_true_iff in Hc.
    rewrite app_cons_s, regex_exec_eq, match_ends_seq_of, match_ends_set.
    cbn [start_state remaining]. rewrite Hc. cbn [flat_map head].
    rewrite IH by done. f_equal. simpl. lia.
Qed.

(** A lazy quantifier goes on as long as the rest of the pattern fails. *)
Lemma lazy_star_skip (p : ascii -> bool) (K : MatchState -> list MatchState)
    (caps : list (nat * string)) (a rest : string) :
  every p a = true ->
  forall i,
  (forall a1 a2, a = a1 +:+ a2 -> a2 <> "" ->
     K {| at_index := i + String.length a1; remaining := a2 +:+ rest; captures := caps |} = []) ->
  flat_map K (match_ends (RStar false (RSet p))
                {| at_index := i; remaining := a +:+ rest; captures := caps |})
  = flat_map K (match_ends (RStar false (RSet p))
                  {| at_index := i + String.length a; remaining := rest; captures := caps |}).
Proof.
  induction a as [|c a IH]; intros Hp i HK.
  - by rewrite app_nil_s, Nat.add_0_r.
  - simpl in Hp. apply andb_true_iff in Hp as [Hc Hp].
    rewrite match_ends_star_set. cbn [remaining]. rewrite app_cons_s, Hc.
    cbn [flat_map]. rewrite <- app_cons_s.
    pose proof (HK "" (String c a) eq_refl ltac:(done)) as H0.
    cbn [String.length] in H0. rewrite Nat.add_0_r in H0. rewrite H0. cbn [app].
    unfold advance. cbn [remaining at_index captures]. rewrite app_cons_s.
    rewrite IH; [|done|].
    + by replace (S i + String.length a) with (i + String.length (String c a))
        by (simpl; lia).
    + intros a1 a2 E Hne.
      replace (S i + String.length a1) with (i + String.length (String c a1))
        by (simpl; lia).
      apply HK; [|done]. by rewrite app_cons_s, E.
Qed.

Lemma match_ends_set_hit (p : ascii -> bool) (i : nat) (c : ascii) (r : string)
    (caps : list (nat * string)) :
  p c = true ->
  match_ends (RSet p) {| at_index := i; remaining := String c r; captures := caps |}
  = [{| at_index := S i; remaining := r; captures := caps |}].
Proof. intros H. rewrite match_ends_set. cbn [remaining]. by rewrite H. Qed.

Lemma match_ends_set_miss (p : ascii -> bool) (i : nat) (c : ascii) (r : string)
    (caps : list (nat * string)) :
  p c = false ->
  match_ends (RSet p) {| at_index := i; remaining := String c r; captures := caps |} = [].
Proof. intros H. rewrite match_ends_set. cbn [remaining]. by rewrite H. Qed.

Lemma every_cons (p : ascii -> bool) (c : ascii) (s : string) :
  every p (String c s) = p c && every p s.
Proof. reflexivity. Qed.

Lemma flat_map_one {A B} (f : A -> list B) (x : A) : flat_map f [x] = f x.
Proof. simpl. apply app_nil_r. Qed.

(** X5.  [extractEmailAddress] gives what stands between the first [<] and the
    first [>] after it: for a header [name <addr> rest] with no [<] in [name]
    and neither [>] nor a line terminator in the non-empty [addr], the result
    is [addr]. *)
Theorem address_in_brackets (name addr rest : string) :
  lacks "<" name = true -> addr <> "" ->
  every dot addr = true -> lacks ">" addr = true ->
  extractEmailAddress (name +:+ "<" +:+ addr +:+ ">" +:+ rest) = addr.
Proof.
  intros Hname Hne Hdot Hgt. unfold extractEmailAddress, regex_match, address_pattern.
  change (name +:+ "<" +:+ addr +:+ ">" +:+ rest)
    with (name +:+ String "<" (addr +:+ String ">" rest)).
  rewrite (exec_skip _ _ _ _ Hname), regex_exec_eq. unfold start_state.
  rewrite match_ends_seq_of, match_ends_set_hit, flat_map_one by done.
  rewrite match_ends_seq_of, match_ends_group, flat_map_map.
  unfold RPlus. rewrite match_ends_seq.
  destruct addr as [|c a]; [done|]. unfold lacks in Hgt. rewrite every_cons in Hdot, Hgt.
  apply andb_true_iff in Hdot as [Hc Hdot]. apply andb_true_iff in Hgt as [_ Hgt].
  rewrite app_cons_s, match_ends_set_hit, flat_map_one by done.
  rewrite lazy_star_skip; [|done|].
  - rewrite match_ends_star_set. cbn [remaining]. change (dot ">") with true.
    cbn [flat_map]. rewrite match_ends_last. unfold capture at 1.
    cbn [remaining at_index captures]. rewrite match_ends_set_hit by done.
    cbn [app head]. unfold or_empty, group, match_of. cbn [m_groups captures List.find fst snd Nat.eqb fmap option_fmap option_map default].
    replace (S (S (0 + String.length name)) + String.length a - S (0 + String.length name))
      with (String.length (String c a)) by (simpl; lia).
    apply (substring_app_length (String c a) (String ">" rest)).
  - intros a1 a2 -> Hne2. rewrite every_app in Hgt. apply andb_true_iff in Hgt as [_ Hgt].
    destruct a2 as [|x a2]; [done|]. rewrite every_cons in Hgt.
    apply andb_true_iff in Hgt as [Hx _]. apply negb_true_iff in Hx.
    rewrite match_ends_last. unfold capture. cbn [remaining]. rewrite app_cons_s.
    by rewrite match_ends_set_miss.
Qed.

Lemma address_in_brackets_witness :
  extractEmailAddress "Alice Smith <alice@example.com>, Bob <bob@example.com>"
  = "alice@example.com".
Proof.
  apply (address_in_brackets "Alice Smith " "alice@example.com" ", Bob <bob@example.com>");
    [reflexivity|done|reflexivity|reflexivity].
Defined.

Lemma match_ends_opt (r : Regex) (st : MatchState) :
  match_ends (ROpt r) st
  = List.filter (fun st' => Nat.ltb (at_index st) (at_index st')) (match_ends r st) ++ [st].
Proof. reflexivity. Qed.

Lemma match_ends_opt_miss (p : ascii -> bool) (i : nat) (c : ascii) (r : string)
    (caps : list (nat * string)) :
  p c = false ->
  match_ends (ROpt (RSet p)) {| at_index := i; remaining := String c r; captures := caps |}
  = [{| at_index := i; remaining := String c r; captures := caps |}].
Proof. intros H. by rewrite match_ends_opt, match_ends_set_miss. Qed.

Lemma match_ends_opt_hit (p : ascii -> bool) (i : nat) (c : ascii) (r : string)
    (caps : list (nat * string)) :
  p c = true ->
  match_ends (ROpt (RSet p)) {| at_index := i; remaining := String c r; captures := caps |}
  = [{| at_index := S i; remaining := r; captures := caps |};
     {| at_index := i; remaining := String c r; captures := caps |}].
Proof.
  intros H. rewrite match_ends_opt, match_ends_set_hit by done.
  cbn [List.filter at_index].
  assert (Nat.ltb i (S i) = true) as -> by (apply Nat.ltb_lt; lia). done.
Qed.

Lemma lazy_star_head (p : ascii -> bool) (st : MatchState) :
  exists more, match_ends (RStar false (RSet p)) st = st :: more.
Proof.
  rewrite match_ends_star_set. destruct (remaining st) as [|c r]; [by exists []|].
  destruct (p c); by eexists.
Qed.

Lemma blank_not_bracket (c : ascii) : is_white_space c = true -> chr "<" c = false.
Proof. by destruct c as [[] [] [] [] [] [] [] []]. Qed.

(** [\s*<] where blanks are followed by the bracket. *)
Lemma blanks_hit (caps : list (nat * string)) (w r : string) :
  every is_white_space w = true ->
  forall i,
  flat_map (match_ends (seq_of [RSet (chr "<")]))
    (match_ends (RStar true (RSet is_white_space))
       {| at_index := i; remaining := w +:+ String "<" r; captures := caps |})
  = [{| at_index := S (i + String.length w); remaining := r; captures := caps |}].
Proof.
  induction w as [|x w IH]; intros Hw i; rewrite match_ends_star_set; cbn [remaining].
  - rewrite app_nil_s. change (is_white_space "<") with false. cbv beta iota.
    rewrite flat_map_one, match_ends_last, match_ends_set_hit by done.
    by rewrite Nat.add_0_r.
  - rewrite every_cons in Hw. apply andb_true_iff in Hw as [Hx Hw].
    rewrite app_cons_s, Hx, flat_map_app, flat_map_one.
    rewrite match_ends_last, match_ends_set_miss by by apply blank_not_bracket.
    unfold advance. cbn [remaining at_index captures]. rewrite IH by done.
    rewrite app_nil_r. do 2 f_equal. simpl. lia.
Qed.

(** [\s*<] where blanks are followed by something else. *)
Lemma blanks_miss (caps : list (nat * string)) (w : string) (x : ascii) (r : string) :
  every is_white_space w = true -> is_white_space x = false -> chr "<" x = false ->
  forall i,
  flat_map (match_ends (seq_of [RSet (chr "<")]))
    (match_ends (RStar true (RSet is_white_space))
       {| at_index := i; remaining := w +:+ String x r; captures := caps |})
  = [].
Proof.
  intros Hw Hx Hx'. induction w as [|y w IH]; intros i; rewrite match_ends_star_set;
    cbn [remaining].
  - rewrite app_nil_s, Hx, flat_map_one, match_ends_last. by rewrite match_ends_set_miss.
  - rewrite every_cons in Hw. apply andb_true_iff in Hw as [Hy Hw].
    rewrite app_cons_s, Hy, flat_map_app, flat_map_one.
    rewrite match_ends_last, match_ends_set_miss by by apply blank_not_bracket.
    unfold advance. cbn [remaining at_index captures]. rewrite IH by done. done.
Qed.

Lemma ends_in_suffix (p : ascii -> bool) (a1 a2 : string) :
  a2 <> "" -> ends_in p (a1 +:+ a2) = ends_in p a2.
Proof.
  intros Hne. induction a1 as [|c a1 IH]; [done|]. rewrite app_cons_s.
  cbn [ends_in]. destruct (a1 +:+ a2) eqn:E; [|done].
  destruct a1; [|done]. by rewrite app_nil_s in E.
Qed.

(** A text that does not end in a blank has, after its leading blanks, a
    code unit that is not one. *)
Lemma split_blanks (s : string) :
  s <> "" -> ends_in is_white_space s = false ->
  exists w x r, s = w +:+ String x r /\ every is_white_space w = true
                /\ is_white_space x = false.
Proof.
  induction s as [|c s IH]; [done|]. intros _ He.
  destruct (is_white_space c) eqn:Hc.
  - destruct s as [|c' s]; [simpl in He; congruence|].
    destruct IH as (w & x & r & E & Hw & Hx); [done|done|].
    exists (String c w), x, r. rewrite app_cons_s, <- E, every_cons, Hc, Hw. done.
  - by exists "", c, s.
Qed.

Lemma every_ends_in (p : ascii -> bool) (s : string) :
  s <> "" -> every p s = true -> ends_in p s = true.
Proof.
  induction s as [|c s IH]; [done|]. intros _ H. rewrite every_cons in H.
  apply andb_true_iff in H as [Hc H]. destruct s as [|c' s]; [done|].
  cbn [ends_in]. by apply IH.
Qed.

Lemma name_tail_miss (caps : list (nat * string)) (a T : string) (i : nat) :
  a <> "" -> lacks "<" a = true -> lacks dquote a = true ->
  ends_in is_white_space a = false ->
  match_ends (seq_of name_tail)
    {| at_index := i; remaining := a +:+ T; captures := caps |} = [].
Proof.
  intros Hne Hlt Hq He. destruct (split_blanks a Hne He) as (w & x & r & -> & Hw & Hx).
  assert (chr "<" x = false) as Hx'.
  { unfold lacks in Hlt. rewrite every_app, every_cons in Hlt.
    apply andb_true_iff in Hlt as [_ Hlt]. apply andb_true_iff in Hlt as [Hlt _].
    by apply negb_true_iff in Hlt. }
  assert (exists c s, (w +:+ String x r) +:+ T = String c s /\ chr dquote c = false)
    as (c & s & E & Hc).
  { unfold lacks in Hq. destruct w as [|y w].
    - rewrite app_nil_s, every_cons in Hq. apply andb_true_iff in Hq as [Hq _].
      apply negb_true_iff in Hq. by exists x, (r +:+ T).
    - rewrite app_cons_s, every_cons in Hq. apply andb_true_iff in Hq as [Hq _].
      apply negb_true_iff in Hq. by exists y, ((w +:+ String x r) +:+ T). }
  unfold name_tail. rewrite match_ends_seq_of, E, match_ends_opt_miss, flat_map_one by done.
  rewrite <- E, app_assoc_s, app_cons_s, match_ends_seq_of. by apply blanks_miss.
Qed.

Lemma name_tail_hit (caps : list (nat * string)) (quoted : bool) (blanks rest : string)
    (i : nat) :
  every is_white_space blanks = true ->
  exists j l,
    match_ends (seq_of name_tail)
      {| at_index := i;
         remaining := (if quoted then String dquote "" else "")
                      +:+ blanks +:+ String "<" rest;
         captures := caps |}
    = {| at_index := j; remaining := rest; captures := caps |} :: l.
Proof.
  intros Hw. unfold name_tail. rewrite match_ends_seq_of. destruct quoted.
  - rewrite app_cons_s, app_nil_s, match_ends_opt_hit by done.
    cbn [flat_map]. rewrite match_ends_seq_of, blanks_hit by done.
    eexists _, _. reflexivity.
  - rewrite app_nil_s.
    assert (exists c s, blanks +:+ String "<" rest = String c s /\ chr dquote c = false)
      as (c & s & E & Hc).
    { destruct blanks as [|y w]; [by exists "<"%char, rest|].
      rewrite every_cons in Hw. apply andb_true_iff in Hw as [Hy _].
      exists y, (w +:+ String "<" rest). split; [done|].
      revert Hy. by destruct y as [[] [] [] [] [] [] [] []]. }
    rewrite E, match_ends_opt_miss, flat_map_one, <- E by done.
    rewrite match_ends_seq_of, blanks_hit by done. by eexists _, _.
Qed.

Lemma name_group (quoted : bool) (name blanks rest : string) (i : nat) :
  name <> "" -> every dot name = true ->
  lacks "<" name = true -> lacks dquote name = true ->
  ends_in is_white_space name = false -> every is_white_space blanks = true ->
  exists j l,
    match_ends (seq_of (RGroup 1 (RPlus false (RSet dot)) :: name_tail))
      {| at_index := i;
         remaining := name +:+ (if quoted then String dquote "" else "")
                      +:+ blanks +:+ String "<" rest;
         captures := [] |}
    = {| at_index := j; remaining := rest; captures := [(1, name)] |} :: l.
Proof.
  intros Hne Hdot Hlt Hq He Hw.
  set (T := (if quoted then String dquote "" else "") +:+ blanks +:+ String "<" rest).
  rewrite match_ends_seq_of, match_ends_group, flat_map_map.
  unfold RPlus. rewrite match_ends_seq.
  destruct name as [|c a]; [done|]. rewrite every_cons in Hdot.
  apply andb_true_iff in Hdot as [Hc Hdot].
  rewrite app_cons_s, match_ends_set_hit, flat_map_one by done.
  rewrite lazy_star_skip; [|done|].
  - destruct (lazy_star_head dot
      {| at_index := S i + String.length a; remaining := T; captures := [] |})
      as [more ->].
    cbn [flat_map]. unfold capture at 1. cbn [remaining at_index captures].
    unfold T at 1.
    destruct (name_tail_hit
      [(1, String.substring 0 (S i + String.length a - i) (String c (a +:+ T)))]
      quoted blanks rest (S i + String.length a) Hw) as (j & l & ->).
    replace (S i + String.length a - i) with (String.length (String c a))
      by (simpl; lia).
    rewrite <- app_cons_s, substring_app_length. by eexists _, _.
  - intros a1 a2 E Hne2. unfold capture. cbn [remaining at_index captures].
    apply name_tail_miss; [done| | |].
    + unfold lacks in *. rewrite every_cons, E, every_app in Hlt.
      apply andb_true_iff in Hlt as [_ Hlt]. by apply andb_true_iff in Hlt as [_ ?].
    + unfold lacks in *. rewrite every_cons, E, every_app in Hq.
      apply andb_true_iff in Hq as [_ Hq]. by apply andb_true_iff in Hq as [_ ?].
    + rewrite <- He. rewrite E. symmetry.
      by apply (ends_in_suffix _ (String c a1)).
Qed.

Lemma match_ends_bol (s : string) (caps : list (nat * string)) :
  match_ends RBol {| at_index := 0; remaining := s; captures := caps |}
  = [{| at_index := 0; remaining := s; captures := caps |}].
Proof. reflexivity. Qed.

(** X6.  [extractName] gives the display name: for a header that is the name,
    between double quotes or not, then blanks and [<], the result is the name,
    provided the name is not empty, holds no line terminator, [<] or double
    quote and does not end in a blank. *)
Theorem name_before_bracket (quoted : bool) (name blanks rest : string) :
  name <> "" -> every dot name = true ->
  lacks "<" name = true -> lacks dquote name = true ->
  ends_in is_white_space name = false -> every is_white_space blanks = true ->
  let q := if quoted then String dquote "" else "" in
  extractName (q +:+ name +:+ q +:+ blanks +:+ "<" +:+ rest) = Some name.
Proof.
  intros Hne Hdot Hlt Hq He Hw q. unfold extractName, regex_match, name_pattern.
  change (seq_of [RBol; ROpt (RSet (chr dquote)); RGroup 1 (RPlus false (RSet dot));
                  ROpt (RSet (chr dquote)); RStar true (RSet is_white_space);
                  RSet (chr "<")])
    with (seq_of (RBol :: ROpt (RSet (chr dquote))
                    :: RGroup 1 (RPlus false (RSet dot)) :: name_tail)).
  change (blanks +:+ "<" +:+ rest) with (blanks +:+ String "<" rest).
  rewrite regex_exec_eq. unfold start_state.
  rewrite match_ends_seq_of, match_ends_bol, flat_map_one, match_ends_seq_of.
  assert (exists j l,
    flat_map
      (match_ends (seq_of (RGroup 1 (RPlus false (RSet dot)) :: name_tail)))
      (match_ends (ROpt (RSet (chr dquote)))
         {| at_index := 0;
            remaining := q +:+ name +:+ q +:+ blanks +:+ String "<" rest;
            captures := [] |})
    = {| at_index := j; remaining := rest; captures := [(1, name)] |} :: l)
    as (j & l & ->); [|done].
  subst q. destruct quoted.
  - rewrite app_cons_s, app_nil_s, match_ends_opt_hit by done. cbn [flat_map].
    destruct (name_group true name blanks rest 1 Hne Hdot Hlt Hq He Hw) as (j & l & ->).
    by eexists _, _.
  - rewrite !app_nil_s. destruct name as [|c a] eqn:En; [done|].
    assert (chr dquote c = false) as Hc.
    { unfold lacks in Hq. rewrite every_cons in Hq. apply andb_true_iff in Hq as [Hq _].
      by apply negb_true_iff in Hq. }
    rewrite app_cons_s, match_ends_opt_miss, flat_map_one, <- app_cons_s by done.
    rewrite <- En in *.
    destruct (name_group false name blanks rest 0 Hne Hdot Hlt Hq He Hw) as (j & l & E).
    rewrite app_nil_s in E. rewrite E. by eexists _, _.
Qed.

Lemma name_before_bracket_witness :
  extractName "Alice Smith  <alice@example.com>" = Some "Alice Smith".
Proof.
  apply (name_before_bracket false "Alice Smith" "  " "alice@example.com>");
    [done|reflexivity|reflexivity|reflexivity|reflexivity|reflexivity].
Defined.

Lemma Matches_set_chr (c : ascii) i t after :
  Matches (RSet (chr c)) i t after -> t = String c "".
Proof. intros (x & -> & Hx). apply Ascii.eqb_eq in Hx. by subst. Qed.

Lemma Matches_name_pattern i t after :
  Matches name_pattern i t after ->
  i = 0 /\ exists c a, t = String c a +:+ "<".
Proof.
  unfold name_pattern. intros H.
  split_seq H t1 H1. split_seq H t2 H2. split_seq H t3 H3. split_seq H t4 H4.
  split_seq H t5 H5. split_seq H t6 H6. apply Matches_seq_nil in H as ->.
  destruct H1 as [-> ->]. split; [done|].
  apply Matches_plus_set in H3 as [H3 _]. apply Matches_set_chr in H6 as ->.
  rewrite app_nil_s, app_empty_r, <- !app_assoc_s.
  destruct (((t2 +:+ t3) +:+ t4) +:+ t5) as [|c a] eqn:E; [|by exists c, a].
  destruct t2; [|done]. destruct t3; [done|done].
Qed.

Lemma no_name_without_bracket (c : ascii) (rest : string) :
  lacks "<" rest = true -> extractName (String c rest) = None.
Proof.
  intros Hl. unfold extractName.
  destruct (regex_match name_pattern (String c rest)) as [m|] eqn:Hm; [|done].
  apply regex_exec_sound in Hm as (pre & E & I & M).
  apply Matches_name_pattern in M as (I0 & x & a & Et).
  rewrite I0 in I. destruct pre; [|done]. rewrite app_nil_s, Et in E.
  rewrite app_cons_s in E. injection E as _ ->.
  unfold lacks in Hl. rewrite app_assoc_s, every_app in Hl.
  apply andb_true_iff in Hl as [_ Hl]. done.
Qed.

(** X7.  A header with no [<] after its first code unit has no display name
    ([extractName] gives [undefined]), and a header without any [<] is its own
    address. *)
Theorem header_without_name (c : ascii) (rest : string) :
  lacks "<" rest = true ->
  extractName (String c rest) = None
  /\ (chr "<" c = false -> extractEmailAddress (String c rest) = String c rest).
Proof.
  intros Hl. split; [by apply no_name_without_bracket|]. intros Hc.
  unfold extractEmailAddress, regex_match, address_pattern.
  rewrite <- (app_empty_r (String c rest)) at 1.
  rewrite exec_skip by (unfold lacks in Hl; by rewrite every_cons, Hc, Hl).
  by rewrite regex_exec_eq.
Qed.

Lemma header_without_name_witness :
  extractName "alice@example.com" = None
  /\ extractEmailAddress "alice@example.com" = "alice@example.com".
Proof.
  destruct (header_without_name "a" "lice@example.com") as [H1 H2]; [reflexivity|].
  split; [exact H1|apply H2; reflexivity].
Defined.

(** ** [getBody] *)

Lemma Payload_nested_ind (P : Payload -> Prop) :
  (forall mimeType headers data, P (mkPayload mimeType headers data None)) ->
  (forall mimeType headers data parts,
     Forall P parts -> P (mkPayload mimeType headers data (Some parts))) ->
  forall payload, P payload.
Proof.
  intros Hleaf Hnode. fix IH 1. intros [mimeType headers data [parts|]]; [|apply Hleaf].
  apply Hnode. induction parts as [|part parts IHparts]; constructor; [apply IH|done].
Qed.

Lemma comes_from_mono (decode : string -> string) (mime : string)
    (l1 l2 : list Payload) (text : string) :
  (forall p, In p l1 -> In p l2) ->
  comes_from decode mime l1 text -> comes_from decode mime l2 text.
Proof. intros Hsub (p & Hin & Hp & E). exists p. auto. Qed.

Section GetBody.
Variable decode : string -> string.

Lemma each_part_provenance (nested : Payload -> Bodies) (L : list Payload) :
  forall parts body htmlBody,
  (forall p, In p parts -> In p L /\ (forall q, In q (all_parts p) -> In q L)) ->
  Forall (fun p => (pl_parts p <> None -> body_ok decode (all_parts p) (b_body (nested p)))
                   /\ html_ok decode (all_parts p) (b_htmlBody (nested p))) parts ->
  body_ok decode L body -> html_ok decode L htmlBody ->
  body_ok decode L (b_body (each_part decode nested parts body htmlBody))
  /\ html_ok decode L (b_htmlBody (each_part decode nested parts body htmlBody)).
Proof.
  induction parts as [|p parts IH]; intros body htmlBody Hsub Hnested Hb Hh; [done|].
  apply Forall_cons in Hnested as [[Hnb Hnh] Hnested].
  assert (forall q, In q parts -> In q L /\ (forall r, In r (all_parts q) -> In r L))
    as Hsub' by (intros q ?; apply Hsub; by right).
  destruct (Hsub p) as [HpL HpS]; [by left|].
  simpl. destruct (is_part "text/plain" p) eqn:Hplain.
  { apply IH; [done|done| |done]. intros _. by exists p. }
  destruct (is_part "text/html" p) eqn:Hhtml.
  { apply IH; [done|done|done|]. intros h [= <-]. by exists p. }
  destruct (pl_parts p) eqn:Hparts; [|by apply IH].
  apply IH; [done|done| |].
  - destruct (String.eqb body ""); [|done].
    intros Hne. eapply comes_from_mono; [|by apply Hnb]. done.
  - destruct (truthy_string htmlBody); [done|].
    intros h Hh'. eapply comes_from_mono; [|by apply Hnh]. done.
Qed.

Lemma getBody_provenance_aux (payload : Payload) :
  (pl_parts payload <> None ->
     body_ok decode (all_parts payload) (b_body (getBody decode payload)))
  /\ html_ok decode (all_parts payload) (b_htmlBody (getBody decode payload)).
Proof.
  induction payload as [m h d|m h d parts IH] using Payload_nested_ind.
  - split; [done|]. simpl. by destruct (truthy_string d).
  - cbn [getBody pl_parts all_parts].
    destruct (each_part_provenance (getBody decode)
                (flat_map (fun part => part :: all_parts part) parts) parts "" None)
      as [Hb Hh]; [| |by intros ?|by intros ? ?|by split].
    + intros p Hp. split.
      * apply in_flat_map. exists p. split; [done|by left].
      * intros q Hq. apply in_flat_map. exists p. split; [done|by right].
    + exact IH.
Qed.

(** X9.  What [getBody] returns comes from the parts of the message, at any
    depth: an HTML body is the decoded data of a part of type text/html and,
    for a message with parts, a plain body that is not empty is the decoded
    data of a part of type text/plain. *)
Theorem getBody_reads_parts (payload : Payload) :
  (forall h, b_htmlBody (getBody decode payload) = Some h ->
     comes_from decode "text/html" (all_parts payload) h)
  /\ (pl_parts payload <> None -> b_body (getBody decode payload) <> "" ->
        comes_from decode "text/plain" (all_parts payload)
          (b_body (getBody decode payload))).
Proof. destruct (getBody_provenance_aux payload) as [Hb Hh]. by split. Qed.

Lemma each_part_app (nested : Payload -> Bodies) (l1 l2 : list Payload) :
  forall body htmlBody,
  each_part decode nested (l1 ++ l2) body htmlBody
  = each_part decode nested l2
      (b_body (each_part decode nested l1 body htmlBody))
      (b_htmlBody (each_part decode nested l1 body htmlBody)).
Proof.
  induction l1 as [|p l1 IH]; intros body htmlBody; [done|]. simpl.
  destruct (is_part "text/plain" p); [apply IH|].
  destruct (is_part "text/html" p); [apply IH|].
  destruct (pl_parts p); apply IH.
Qed.

Lemma each_part_keeps_body (nested : Payload -> Bodies) (l : list Payload) :
  forall body htmlBody,
  body <> "" -> Forall (fun q => is_part "text/plain" q = false) l ->
  b_body (each_part decode nested l body htmlBody) = body.
Proof.
  induction l as [|p l IH]; intros body htmlBody Hne Hl; [done|].
  apply Forall_cons in Hl as [Hp Hl]. simpl. rewrite Hp.
  destruct (is_part "text/html" p); [by apply IH|].
  destruct (pl_parts p); [|by apply IH].
  apply String.eqb_neq in Hne. rewrite Hne. apply IH; [|done]. by apply String.eqb_neq.
Qed.

(** X10.  The last text/plain part among the parts of the message itself, when
    it decodes to a text that is not empty, is the body, whatever the parts
    before it hold and whatever the parts after it, none of them a text/plain
    part with data, nest. *)
Theorem top_level_plain_part_wins (mimeType : option string)
    (headers : option (list Header)) (data : option string)
    (before after : list Payload) (part : Payload) :
  is_part "text/plain" part = true ->
  decode (or_empty (pl_data part)) <> "" ->
  Forall (fun q => is_part "text/plain" q = false) after ->
  b_body (getBody decode (mkPayload mimeType headers data (Some (before ++ part :: after))))
  = decode (or_empty (pl_data part)).
Proof.
  intros Hp Hne Hafter. cbn [getBody pl_parts]. rewrite each_part_app.
  cbn [each_part]. rewrite Hp. by apply each_part_keeps_body.
Qed.

End GetBody.

Lemma top_level_plain_part_wins_witness :
  b_body (getBody sample_decode sample_payload) = "Hello, see attached.".
Proof.
  apply (top_level_plain_part_wins sample_decode (Some "multipart/alternative")
           (Some sample_headers) None [] [html_part] plain_part);
    [reflexivity|done|].
  constructor; [reflexivity|constructor].
Defined.

(** ** [fetchRecentEmailsFromClient] *)

Section Fetch.
Variable decode : string -> string.
Variable gmail : GmailApi.

Lemma fetch_each_spec (ids : list (option string)) :
  forall n emails,
  fetch_each decode gmail n ids emails
  = emails ++ omap (fun x => x) (imap (fun k => fetched decode gmail (n + k)) ids).
Proof.
  induction ids as [|id ids IH]; intros n emails; [by rewrite app_nil_r|].
  cbn [fetch_each imap omap]. rewrite IH. unfold fetched at 2.
  rewrite Nat.add_0_r.
  assert (imap ((fun k => fetched decode gmail (n + k)) ∘ S) ids
          = imap (fun k => fetched decode gmail (S n + k)) ids) as ->.
  { apply imap_ext. intros k x _. simpl. f_equal. lia. }
  destruct (messages_get gmail n id) as [msg|e]; [|done].
  destruct (build_email decode msg) as [email|e]; [|done].
  by rewrite <- app_assoc.
Qed.

(** X11.  Once the listing has resolved, [fetchRecentEmailsFromClient]
    resolves: the messages that could be read come back in the listed order,
    and a message whose [get] rejects, or from which no e-mail can be built,
    is left out without ending the loop. *)
Theorem fetch_leaves_out_unreadable (maxResults : option Z) (query : option string)
    (listed : option (list (option string))) :
  messages_list gmail (default 20%Z maxResults) (default "in:inbox" query)
    = Resolved listed ->
  fetchRecentEmailsFromClient decode gmail maxResults query
  = Resolved (omap (fun x => x) (imap (fetched decode gmail) (default [] listed))).
Proof.
  intros Hl. unfold fetchRecentEmailsFromClient. rewrite Hl, fetch_each_spec.
  done.
Qed.

Lemma find_header_named (headers : list Header) (name : string) :
  all_named headers = true -> exists h, find_header headers name = Resolved h.
Proof.
  induction headers as [|h headers IH]; [by exists None|]. cbn [all_named forallb].
  intros H. apply andb_true_iff in H as [Hh H]. cbn [find_header].
  destruct (h_name h) as [n|]; [|done].
  destruct (String.eqb _ _); [by exists (Some h)|by apply IH].
Qed.

Lemma extractHeader_named (headers : list Header) (name : string) :
  all_named headers = true -> exists v, extractHeader headers name = Resolved v.
Proof.
  intros H. unfold extractHeader.
  destruct (find_header_named headers name H) as [h ->]. by eexists.
Qed.

Lemma build_email_facts (msg : MessageData) (email : FetchedEmail) :
  build_email decode msg = Resolved email ->
  fe_id email = md_id msg
  /\ md_payload msg <> None
  /\ (fe_body email = "" -> fe_snippet email = "").
Proof.
  unfold build_email. destruct (extractHeader _ "from") as [fromHeader|]; [|done].
  destruct (md_payload msg) as [payload|]; [|done].
  destruct (extractHeader _ "subject") as [subject|]; [|done].
  destruct (extractHeader _ "to") as [to|]; [|done].
  intros [= <-]. cbn [fe_id fe_body fe_snippet]. split; [done|]. split; [done|].
  unfold str_or. destruct (String.eqb (b_body _) "") eqn:Eb.
  - destruct (String.eqb (or_empty (md_snippet msg)) "") eqn:E; [|done].
    by apply String.eqb_eq in E.
  - apply String.eqb_neq in Eb. by intros ?.
Qed.

Lemma in_fetched (ids : list (option string)) (email : FetchedEmail) :
  In email (omap (fun x => x) (imap (fetched decode gmail) ids)) ->
  exists n id msg, ids !! n = Some id /\ messages_get gmail n id = Resolved msg
                   /\ build_email decode msg = Resolved email.
Proof.
  intros Hin. apply list_elem_of_In, list_elem_of_omap in Hin as (x & Hx & E).
  apply elem_of_lookup_imap in Hx as (n & id & -> & Hn).
  exists n, id. unfold fetched in E.
  destruct (messages_get gmail n id) as [msg|]; [|done]. exists msg.
  destruct (build_email decode msg); [|done]. simpl in E. by injection E as ->.
Qed.

(** X12.  Every e-mail that [fetchRecentEmailsFromClient] returns was built
    from the answer to a [get] that carries a payload, has the id of that
    answer, and has an empty body only if its snippet is empty. *)
Theorem fetched_emails_have_a_body (maxResults : option Z) (query : option string)
    (emails : list FetchedEmail) (email : FetchedEmail) :
  fetchRecentEmailsFromClient decode gmail maxResults query = Resolved emails ->
  In email emails ->
  (fe_body email = "" -> fe_snippet email = "")
  /\ exists n id msg,
       messages_get gmail n id = Resolved msg /\ md_payload msg <> None
       /\ fe_id email = md_id msg.
Proof.
  unfold fetchRecentEmailsFromClient.
  destruct (messages_list gmail _ _) as [listed|]; [|done].
  rewrite fetch_each_spec. intros [= <-] Hin.
  apply in_fetched in Hin as (n & id & msg & _ & Hget & Hb).
  apply build_email_facts in Hb as (Hid & Hp & Hbody). split; [done|].
  by exists n, id, msg.
Qed.

End Fetch.

Lemma fetch_leaves_out_unreadable_witness :
  fetchRecentEmailsFromClient sample_decode sample_gmail None None
  = Resolved (omap (fun x => x)
      (imap (fetched sample_decode sample_gmail) [Some "m1"; Some "m2"; Some "m3"])).
Proof.
  apply (fetch_leaves_out_unreadable sample_decode sample_gmail None None
           (Some [Some "m1"; Some "m2"; Some "m3"])).
  reflexivity.
Defined.

Lemma fetched_emails_have_a_body_witness :
  exists n id msg,
    messages_get sample_gmail n id = Resolved msg /\ md_payload msg <> None
    /\ fe_id sample_fetched = md_id msg.
Proof.
  destruct (fetched_emails_have_a_body sample_decode sample_gmail None None
              [sample_fetched] sample_fetched) as [_ H];
    [by vm_compute|by left|exact H].
Defined.

(** ** [extractHeader] *)

(** X8.  [extractHeader] compares names without regard to case and takes the
    first header of that name: after headers that all have another name, a
    header of the name gives its value, or the empty string if it has none;
    headers that all have another name give the empty string. *)
Theorem extractHeader_first_match (before : list Header) (name : string) :
  Forall (fun h => exists n, h_name h = Some n /\ toLowerCase n <> toLowerCase name)
         before ->
  extractHeader before name = Resolved ""
  /\ forall h n after,
       h_name h = Some n -> toLowerCase n = toLowerCase name ->
       extractHeader (before ++ h :: after) name = Resolved (or_empty (h_value h)).
Proof.
  intros Hb. unfold extractHeader. induction Hb as [|b before (m & Hm & Hne) _ [IH1 IH2]].
  - split; [done|]. intros h n after Hn E. cbn [app find_header]. rewrite Hn.
    apply String.eqb_eq in E. by rewrite E.
  - apply String.eqb_neq in Hne. split.
    + cbn [find_header]. by rewrite Hm, Hne.
    + intros h n after Hn E. cbn [app find_header]. rewrite Hm, Hne. by eapply IH2.
Qed.

Lemma extractHeader_first_match_witness :
  extractHeader sample_headers "from" = Resolved "Alice Smith <alice@example.com>".
Proof.
  destruct (extractHeader_first_match
              [{| h_name := Some "Subject"; h_value := Some "Welcome" |}] "from")
    as [_ H].
  - constructor; [|constructor]. by exists "Subject".
  - by apply (H {| h_name := Some "From";
                   h_value := Some "Alice Smith <alice@example.com>" |} "From").
Defined.

(** ** Finding a link in a text *)

Lemma match_ends_lit (ignoreCase : bool) (k : string) :
  forall i s caps,
  match_ends (lit ignoreCase k) {| at_index := i; remaining := s; captures := caps |}
  = if lit_matches ignoreCase k s
    then [{| at_index := i + String.length k; remaining := drop_units (String.length k) s;
             captures := caps |}]
    else [].
Proof.
  induction k as [|c k IH]; intros i s caps.
  - cbn. by rewrite Nat.add_0_r.
  - cbn [lit]. rewrite match_ends_seq, match_ends_set. cbn [remaining].
    destruct s as [|x s]; [done|]. cbn [lit_matches].
    assert ((if ignoreCase then chr_i c else chr c) x
            = (if ignoreCase then chr_i c x else chr c x)) as -> by by destruct ignoreCase.
    destruct (if ignoreCase then chr_i c x else chr c x); [|done].
    rewrite flat_map_one. unfold advance. cbn [remaining at_index captures].
    rewrite IH. cbn [andb]. destruct (lit_matches ignoreCase k s); [|done].
    cbn [String.length drop_units]. do 2 f_equal. lia.
Qed.

Lemma chr_i_refl (c : ascii) : chr_i c c = true.
Proof. unfold chr_i. by rewrite Ascii.eqb_refl. Qed.

Lemma lit_matches_self (ignoreCase : bool) (k rest : string) :
  lit_matches ignoreCase k (k +:+ rest) = true.
Proof.
  induction k as [|c k IH]; [done|]. rewrite app_cons_s. cbn [lit_matches].
  rewrite IH. destruct ignoreCase; [by rewrite chr_i_refl|].
  unfold chr. by rewrite Ascii.eqb_refl.
Qed.

Lemma drop_units_app (k rest : string) : drop_units (String.length k) (k +:+ rest) = rest.
Proof. induction k as [|c k IH]; [by destruct rest|]. by rewrite app_cons_s. Qed.

(** A greedy quantifier first takes all it can. *)
Lemma greedy_star_first (p : ascii -> bool) (caps : list (nat * string)) (a rest : string) :
  every p a = true ->
  (rest = "" \/ exists c r, rest = String c r /\ p c = false) ->
  forall i, exists others,
    match_ends (RStar true (RSet p))
      {| at_index := i; remaining := a +:+ rest; captures := caps |}
    = {| at_index := i + String.length a; remaining := rest; captures := caps |} :: others.
Proof.
  intros Ha Hrest. induction a as [|c a IH]; intros i; rewrite match_ends_star_set;
    cbn [remaining].
  - rewrite app_nil_s, Nat.add_0_r. destruct Hrest as [->|(c & r & -> & Hc)].
    + by exists [].
    + rewrite Hc. by exists [].
  - rewrite every_cons in Ha. apply andb_true_iff in Ha as [Hc Ha].
    rewrite app_cons_s, Hc. unfold advance. cbn [remaining at_index captures].
    destruct (IH Ha (S i)) as [others ->]. eexists. cbn [app String.length].
    by replace (S i + String.length a) with (i + S (String.length a)) by lia.
Qed.

Lemma head_flat_map_all {A B} (f : A -> list B) (l : list A) (P : B -> Prop) :
  (forall x, In x l -> f x = [] \/ exists y, head (f x) = Some y /\ P y) ->
  (exists x y, In x l /\ head (f x) = Some y) ->
  exists y, head (flat_map f l) = Some y /\ P y.
Proof.
  intros Hall (x & y & Hx & Hy). induction l as [|z l IH]; [done|].
  cbn [flat_map]. destruct (Hall z) as [Hz|(y' & Hy' & HP)]; [by left| |].
  - rewrite Hz. cbn [app]. destruct Hx as [->|Hx]; [by rewrite Hz in Hy|].
    apply IH; [|done]. intros x' ?. apply Hall. by right.
  - exists y'. split; [|done]. destruct (f z); [done|]. done.
Qed.

Lemma star_ends_self (g : bool) (p : ascii -> bool) (st : MatchState) :
  In st (match_ends (RStar g (RSet p)) st).
Proof.
  rewrite match_ends_star_set. destruct (remaining st) as [|c r]; [by left|].
  destruct (p c); [|by left]. destruct g; [|by left].
  apply in_or_app. right. by left.
Qed.

Lemma star_ends_complete (g : bool) (p : ascii -> bool) (caps : list (nat * string))
    (a rest : string) :
  every p a = true ->
  forall i,
  In {| at_index := i + String.length a; remaining := rest; captures := caps |}
     (match_ends (RStar g (RSet p))
        {| at_index := i; remaining := a +:+ rest; captures := caps |}).
Proof.
  induction a as [|c a IH]; intros Ha i.
  - rewrite app_nil_s, Nat.add_0_r. apply star_ends_self.
  - rewrite every_cons in Ha. apply andb_true_iff in Ha as [Hc Ha].
    rewrite match_ends_star_set. cbn [remaining]. rewrite app_cons_s, Hc.
    unfold advance. cbn [remaining at_index captures].
    specialize (IH Ha (S i)).
    replace (S i + String.length a) with (i + String.length (String c a)) in IH
      by (simpl; lia).
    destruct g; [apply in_or_app; by left|by right].
Qed.

(** A run of code units of a set, followed by one that is not in it, is
    split in one way only. *)
Lemma run_split (p : ascii -> bool) (t r run post : string) :
  every p t = true -> every p run = true ->
  (post = "" \/ exists c s, post = String c s /\ p c = false) ->
  t +:+ r = run +:+ post ->
  exists a, run = t +:+ a /\ r = a +:+ post.
Proof.
  revert run. induction t as [|x t IH]; intros run Ht Hrun Hpost E.
  - exists run. by rewrite !app_nil_s in *.
  - rewrite every_cons in Ht. apply andb_true_iff in Ht as [Hx Ht].
    destruct run as [|y run].
    + rewrite app_nil_s in E. destruct Hpost as [->|(c & s & -> & Hc)]; [done|].
      rewrite app_cons_s in E. injection E as -> _. congruence.
    + rewrite !app_cons_s in E. injection E as -> E. rewrite every_cons in Hrun.
      apply andb_true_iff in Hrun as [_ Hrun].
      destruct (IH run Ht Hrun Hpost E) as (a & -> & ->). by exists a.
Qed.

Lemma lit_matches_split (k s : string) :
  lit_matches true k s = true ->
  exists k' s', s = k' +:+ s' /\ String.length k' = String.length k
                /\ toLowerCase k' = toLowerCase k
                /\ drop_units (String.length k) s = s'.
Proof.
  revert s. induction k as [|c k IH]; intros s H.
  - exists "", s. by destruct s.
  - destruct s as [|x s]; [done|]. cbn [lit_matches] in H.
    apply andb_true_iff in H as [Hx H]. destruct (IH s H) as (k' & s' & -> & Hl & Hk & Hd).
    exists (String x k'), s'. rewrite app_cons_s. cbn [String.length toLowerCase drop_units].
    apply chr_i_lower in Hx. by rewrite Hl, Hk, Hx, Hd.
Qed.

Lemma plus_then_keyword (kw host tail post : string) (caps : list (nat * string))
    (j : nat) :
  In kw url_keywords -> host <> "" ->
  every url_unit host = true -> every url_unit tail = true ->
  (post = "" \/ exists c s, post = String c s /\ url_unit c = false) ->
  exists y,
    head (flat_map (match_ends (seq_of [lit true kw; RStar true (RSet url_unit)]))
            (match_ends (RPlus true (RSet url_unit))
               {| at_index := j; remaining := host +:+ kw +:+ tail +:+ post;
                  captures := caps |}))
    = Some y
    /\ at_index y = j + String.length (host +:+ kw +:+ tail).
Proof.
  intros Hin Hne Hhost Htail Hpost.
  destruct (url_keywords_plain kw Hin) as (Hl & _ & Hkw & _).
  assert (every url_unit (host +:+ kw +:+ tail) = true) as Hrun
    by by rewrite !every_app, Hhost, Hkw, Htail.
  assert (host +:+ kw +:+ tail +:+ post = (host +:+ kw +:+ tail) +:+ post) as Etext
    by by rewrite !app_assoc_s.
  apply head_flat_map_all.
  - intros [ip rp cp] Hp. apply match_ends_sound in Hp as (t & E & I & M).
    cbn [remaining at_index] in E, I. apply Matches_plus_set in M as [_ Ht].
    rewrite Etext in E. symmetry in E.
    destruct (run_split url_unit t rp _ post Ht Hrun Hpost E) as (a2 & Ea & ->).
    rewrite match_ends_seq_of, match_ends_lit.
    destruct (lit_matches true kw (a2 +:+ post)) eqn:Hm; [right|by left].
    apply lit_matches_split in Hm as (k' & s' & Es & Hlen & Hlow & ->).
    assert (every url_unit k' = true) as Hk'.
    { rewrite <- (every_lower _ k') by apply url_unit_lower. by rewrite Hlow, Hl. }
    assert (every url_unit a2 = true) as Ha2.
    { rewrite Ea, every_app in Hrun. by apply andb_true_iff in Hrun as [_ ?]. }
    symmetry in Es.
    destruct (run_split url_unit k' s' a2 post Hk' Ha2 Hpost Es) as (a3 & -> & ->).
    rewrite flat_map_one, match_ends_last.
    destruct (greedy_star_first url_unit cp a3 post) with (i := ip + String.length kw)
      as [others ->]; [|done|].
    { rewrite every_app in Ha2. by apply andb_true_iff in Ha2 as [_ ?]. }
    eexists. split; [done|]. cbn [at_index]. rewrite Ea, I, !length_app_s. lia.
  - destruct host as [|c h]; [done|]. rewrite every_cons in Hhost.
    apply andb_true_iff in Hhost as [Hc Hh].
    exists {| at_index := S j + String.length h; remaining := kw +:+ tail +:+ post;
              captures := caps |}.
    rewrite match_ends_seq_of, match_ends_lit, lit_matches_self, flat_map_one.
    rewrite match_ends_last, drop_units_app.
    destruct (greedy_star_first url_unit caps tail post Htail Hpost
                (S j + String.length h + String.length kw)) as [others ->].
    eexists. split; [|done].
    unfold RPlus. rewrite match_ends_seq, app_cons_s, match_ends_set_hit by done.
    rewrite flat_map_one. by apply star_ends_complete.
Qed.

Lemma head_app_some {A} (l l' : list A) (y : A) :
  head l = Some y -> head (l ++ l') = Some y.
Proof. by destruct l. Qed.

Lemma url_attempt (secure : bool) (kw host tail post : string) (i : nat) :
  In kw url_keywords -> host <> "" ->
  every url_unit host = true -> every url_unit tail = true ->
  (post = "" \/ exists c s, post = String c s /\ url_unit c = false) ->
  exists y,
    head (match_ends (url_pattern kw)
            (start_state i (scheme_of secure +:+ host +:+ kw +:+ tail +:+ post)))
    = Some y
    /\ at_index y = i + String.length (scheme_of secure +:+ host +:+ kw +:+ tail).
Proof.
  intros Hin Hne Hhost Htail Hpost. unfold url_pattern, start_state.
  rewrite match_ends_seq_of, match_ends_lit.
  set (rest := host +:+ kw +:+ tail +:+ post).
  destruct secure; unfold scheme_of.
  - change ("https://" +:+ rest) with ("http" +:+ String "s" ("://" +:+ rest)).
    rewrite lit_matches_self, drop_units_app, flat_map_one, match_ends_seq_of.
    rewrite match_ends_opt_hit by done. cbn [flat_map].
    rewrite match_ends_seq_of, match_ends_lit, lit_matches_self, drop_units_app.
    rewrite flat_map_one, match_ends_seq_of.
    destruct (plus_then_keyword kw host tail post [] (S (i + String.length "http")
                + String.length "://") Hin Hne Hhost Htail Hpost) as (y & Hy & Iy).
    exists y. split; [by apply head_app_some|].
    rewrite Iy. change ("https://" +:+ host +:+ kw +:+ tail)
      with ("https://" +:+ (host +:+ kw +:+ tail)).
    rewrite (length_app_s "https://"). simpl. lia.
  - change ("http://" +:+ rest) with ("http" +:+ String ":" ("//" +:+ rest)).
    rewrite lit_matches_self, drop_units_app, flat_map_one, match_ends_seq_of.
    rewrite match_ends_opt_miss by done. rewrite flat_map_one.
    change (String ":" ("//" +:+ rest)) with ("://" +:+ rest).
    rewrite match_ends_seq_of, match_ends_lit, lit_matches_self, drop_units_app.
    rewrite flat_map_one, match_ends_seq_of.
    destruct (plus_then_keyword kw host tail post [] (i + String.length "http"
                + String.length "://") Hin Hne Hhost Htail Hpost) as (y & Hy & Iy).
    exists y. split; [done|].
    rewrite Iy. change ("http://" +:+ host +:+ kw +:+ tail)
      with ("http://" +:+ (host +:+ kw +:+ tail)).
    rewrite (length_app_s "http://"). simpl. lia.
Qed.

Lemma chr_i_dec (c x : ascii) :
  In c ["h"; "t"; "p"]%char ->
  chr_i c x = if ascii_dec c (lower_unit x) then true else false.
Proof.
  intros [<-|[<-|[<-|[]]]]; by destruct x as [[] [] [] [] [] [] [] []].
Qed.

Lemma lit_http (s : string) :
  lit_matches true "http" s = String.prefix "http" (toLowerCase s).
Proof.
  destruct s as [|a [|b [|c [|d s]]]]; cbn [lit_matches toLowerCase String.prefix];
    rewrite ?(chr_i_dec "h"), ?(chr_i_dec "t"), ?(chr_i_dec "p") by (simpl; tauto);
    repeat (destruct (ascii_dec _ _); [|done]); try done.
  by destruct (toLowerCase s).
Qed.

(** [http] does not overlap itself. *)
Lemma http_no_overlap (p rest : string) :
  p <> "" -> includes "http" p = false ->
  String.prefix "http" (p +:+ "http" +:+ rest) = false.
Proof.
  intros Hne H. rewrite includes_eq in H. apply orb_false_iff in H as [H _].
  revert H.
  destruct p as [|a [|b [|c [|d p]]]]; [done| | | |];
    rewrite ?app_cons_s, ?app_nil_s; cbn [String.prefix];
    repeat match goal with
           | |- context [ascii_dec ?x ?y] => destruct (ascii_dec x y) as [?|?]; try done
           end.
  by destruct p.
Qed.

Lemma url_skip (kw pre rest : string) :
  includes "http" (toLowerCase pre) = false ->
  forall i,
  regex_exec (url_pattern kw) i (pre +:+ "http" +:+ rest)
  = regex_exec (url_pattern kw) (i + String.length pre) ("http" +:+ rest).
Proof.
  induction pre as [|c pre IH]; intros H i.
  - by rewrite app_nil_s, Nat.add_0_r.
  - rewrite regex_exec_eq. unfold url_pattern at 1, start_state.
    rewrite match_ends_seq_of, match_ends_lit, lit_http, !toLowerCase_app.
    change (toLowerCase "http") with "http".
    rewrite http_no_overlap by done. cbn [flat_map head]. rewrite app_cons_s.
    rewrite includes_eq in H. apply orb_false_iff in H as [_ H].
    cbn [toLowerCase] in H. rewrite IH by done. f_equal. simpl. lia.
Qed.

Lemma url_no_match (kw text : string) :
  In kw url_keywords -> includes kw (toLowerCase text) = false ->
  regex_match (url_pattern kw) text = None.
Proof.
  intros Hin H. destruct (regex_match (url_pattern kw) text) as [m|] eqn:Hm; [|done].
  apply regex_exec_sound in Hm as (pre & E & _ & M).
  apply url_pattern_shape in M as (scheme & host & k & tail & Et & _ & _ & _ & Hk & _).
  destruct (url_keywords_plain kw Hin) as (Hl & _). rewrite Hl in Hk.
  rewrite E, Et, !toLowerCase_app, Hk in H.
  rewrite <- (app_assoc_s (toLowerCase scheme)) in H.
  by rewrite includes_within in H by apply includes_mid.
Qed.

Lemma first_url_skip (earlier : list string) (rest : list Regex) (text : string) :
  (forall k, In k earlier -> In k url_keywords) ->
  (forall k, In k earlier -> includes k (toLowerCase text) = false) ->
  first_url (map url_pattern earlier ++ rest) text = first_url rest text.
Proof.
  induction earlier as [|k earlier IH]; intros Hin H; [done|].
  cbn [map app first_url]. rewrite url_no_match by (try apply Hin; try apply H; by left).
  apply IH; intros k' ?; [apply Hin|apply H]; by right.
Qed.

(** X2.  A link in a text is found: for a body without HTML that reads [pre],
    then [http://] or [https://], a non-empty host part, a URL keyword and a
    tail, all without blank, angle bracket or double quote, then the end or
    such a delimiter, [extractUnsubscribeLink] returns that URL without the
    closing brackets at its end, provided [http] does not occur in [pre] (in
    either case) and no keyword tried earlier occurs in the body. *)
Theorem plain_link_found (secure : bool) (pre host kw tail post : string)
    (earlier later : list string) :
  url_keywords = earlier ++ kw :: later ->
  host <> "" -> every url_unit host = true -> every url_unit tail = true ->
  (post = "" \/ exists c s, post = String c s /\ url_unit c = false) ->
  includes "http" (toLowerCase pre) = false ->
  (forall k, In k earlier ->
     includes k (toLowerCase (pre +:+ scheme_of secure +:+ host +:+ kw +:+ tail +:+ post))
     = false) ->
  extractUnsubscribeLink
    (pre +:+ scheme_of secure +:+ host +:+ kw +:+ tail +:+ post) None
  = Some (scheme_of secure +:+ host +:+ kw +:+ strip_closers tail).
Proof.
  intros Hkws Hne Hhost Htail Hpost Hpre Hearlier.
  assert (In kw url_keywords) as Hin by (rewrite Hkws; apply in_elt).
  unfold extractUnsubscribeLink. cbn [truthy_string].
  change urlPatterns with (map url_pattern url_keywords).
  rewrite Hkws, map_app, first_url_skip; [|intros k ?; rewrite Hkws; apply in_or_app; by left|done].
  cbn [map first_url]. unfold regex_match.
  set (url := scheme_of secure +:+ host +:+ kw +:+ tail).
  assert (exists r, scheme_of secure +:+ host +:+ kw +:+ tail +:+ post = "http" +:+ r)
    as [r Er] by (destruct secure; by eexists).
  rewrite Er, url_skip, <- Er by done. rewrite regex_exec_eq. cbn [Nat.add].
  destruct (url_attempt secure kw host tail post (String.length pre) Hin Hne Hhost Htail Hpost)
    as (y & -> & Iy).
  f_equal. rewrite replace_first_trailing. unfold match_of. cbn [m_text]. rewrite Iy. fold url.
  replace (String.length pre + String.length url - String.length pre)
    with (String.length url) by lia.
  assert (scheme_of secure +:+ host +:+ kw +:+ tail +:+ post = url +:+ post) as ->.
  { unfold url. destruct secure; unfold scheme_of; by rewrite !app_assoc_s. }
  rewrite substring_app_length. unfold url.
  destruct (url_keywords_plain kw Hin) as (_ & Hk0 & _ & Hkc).
  assert (every (one_of ")>]") (kw +:+ tail) = false) as Hkt.
  { destruct kw as [|c k]; [done|]. rewrite app_cons_s. simpl in *.
    apply andb_true_iff in Hkc as [Hc _]. apply negb_true_iff in Hc. by rewrite Hc. }
  assert (scheme_of secure +:+ host +:+ kw +:+ tail
          = (scheme_of secure +:+ host) +:+ kw +:+ tail) as -> by by rewrite app_assoc_s.
  rewrite (strip_closers_keep _ _ Hkt), (strip_closers_app _ _ Hk0 Hkc).
  by rewrite app_assoc_s.
Qed.

Lemma plain_link_found_witness :
  extractUnsubscribeLink sample_text None
  = Some "https://example.com/lists/unsubscribe?u=17".
Proof.
  apply (plain_link_found true "To leave the list, visit (" "example.com/lists/"
           "unsubscribe" "?u=17)" " today." [] ["optout"; "opt-out"; "preferences"]).
  - reflexivity.
  - done.
  - reflexivity.
  - reflexivity.
  - right. by exists " "%char, "today.".
  - by vm_compute.
  - by intros k [].
Defined.

(** The cases of [tests/lib/gmail.test.ts] that fix a result. *)
Example extractUnsubscribeLink_tests :
  extractUnsubscribeLink
    "To stop receiving emails, click here: https://example.com/unsubscribe?id=123" None
  = Some "https://example.com/unsubscribe?id=123"
  /\ extractUnsubscribeLink "Click to opt-out: https://example.com/opt-out" None
     = Some "https://example.com/opt-out"
  /\ extractUnsubscribeLink
       "Manage your preferences at https://example.com/preferences/email" None
     = Some "https://example.com/preferences/email"
  /\ extractUnsubscribeLink "No link here"
       (Some ("<a href=" +:+ dq +:+ "https://example.com/unsubscribe" +:+ dq
              +:+ ">Unsubscribe</a>"))
     = Some "https://example.com/unsubscribe"
  /\ extractUnsubscribeLink "Unsubscribe: https://example.com/unsubscribe)" None
     = Some "https://example.com/unsubscribe"
  /\ extractUnsubscribeLink "This is a regular email with no unsubscribe link" None
     = None
  /\ extractUnsubscribeLink "" None = None
  /\ extractUnsubscribeLink ""
       (Some ("<p>Click <a href=" +:+ dq +:+ "https://newsletter.com/optout?id=456" +:+ dq
              +:+ ">here</a> to opt out</p>"))
     = Some "https://newsletter.com/optout?id=456".
Proof. repeat split; by vm_compute. Qed.

(** ** [lib/gemini.ts]: the other helpers *)

Lemma includes_refl (k : string) : includes k k = true.
Proof.
  apply includes_split. exists "", "". by rewrite app_nil_s, app_empty_r.
Qed.

(** X13.  [categorizeEmail] never throws and answers with [null] or with the
    id of one of the categories it was given; given no category it answers
    [null] without calling the model. *)
Theorem categorizeEmail_answers_with_a_category
    (env : Env) (o : Origin) (email : EmailInput) (categories : list Category)
    (w : World) :
  exists r w',
    exec env o (categorizeEmail email categories) w = (Resolved r, w')
    /\ (r = None \/ exists c, In c categories /\ r = Some (cat_id c))
    /\ (categories = [] -> r = None /\ w' = w).
Proof.
  unfold categorizeEmail. destruct categories as [|c0 cs]; [by exists None, w; auto|].
  cbn [length Nat.eqb]. rewrite exec_try_catch, exec_bind, exec_perform.
  cbn [handle event_of]. set (w1 := record_event _ _ _). set (cats := c0 :: cs).
  destruct (env_generate env (w_calls w1) _) as [text|e]; cbn -[List.find includes trim].
  - destruct (List.find _ cats) as [c|] eqn:Hf; do 2 eexists;
      (split; [reflexivity|]); (split; [|done]); [right|by left].
    apply find_some in Hf as [Hin _]. by exists c.
  - do 2 eexists. split; [reflexivity|]. split; [by left|done].
Qed.

Lemma find_first (A : Type) (f : A -> bool) (before after : list A) (x : A) :
  Forall (fun b => f b = false) before -> f x = true ->
  List.find f (before ++ x :: after) = Some x.
Proof.
  intros Hb Hx. induction Hb as [|b before Hf _ IH]; simpl; [by rewrite Hx|].
  by rewrite Hf.
Qed.

(** X14.  A response that is the id of a category, blanks around it aside, is
    answered with that category, provided no category listed before it has an
    id that occurs in that id. *)
Theorem categorizeEmail_finds_the_named_category
    (env : Env) (o : Origin) (email : EmailInput)
    (before after : list Category) (c : Category) (text : string) (w : World) :
  Forall (fun b => includes (cat_id b) (cat_id c) = false) before ->
  env_generate env (w_calls w) (categorize_prompt email (before ++ c :: after))
    = Resolved text ->
  trim text = cat_id c ->
  fst (exec env o (categorizeEmail email (before ++ c :: after)) w)
  = Resolved (Some (cat_id c)).
Proof.
  intros Hb Hg Ht. unfold categorizeEmail.
  assert (Nat.eqb (length (before ++ c :: after)) 0 = false) as ->.
  { rewrite length_app. simpl. apply Nat.eqb_neq. lia. }
  rewrite exec_try_catch, exec_bind, exec_perform. cbn [handle event_of].
  set (w1 := record_event _ _ _). change (w_calls w1) with (w_calls w).
  rewrite Hg. cbn -[List.find includes trim].
  rewrite Ht, (find_first _ _ before after c); [done|done|].
  apply includes_refl.
Qed.

Lemma categorizeEmail_finds_the_named_category_witness :
  fst (exec (answering_env " cat-news ") Main
         (categorizeEmail (email_input (sample_message "m3" "Newsletter"))
            [work_category; news_category])
         empty_world)
  = Resolved (Some "cat-news").
Proof.
  apply (categorizeEmail_finds_the_named_category (answering_env " cat-news ") Main
           (email_input (sample_message "m3" "Newsletter"))
           [work_category] [] news_category " cat-news " empty_world).
  - constructor; [reflexivity|constructor].
  - reflexivity.
  - reflexivity.
Defined.

(** X17.  [analyzeBulkDeleteSafety] never throws; when the call fails, the
    response holds no JSON object, or [JSON.parse] fails or yields [null],
    every e-mail is flagged for review with the fixed reason and none is
    declared safe; otherwise the two lists are those of the parsed object, an
    empty array standing in for a missing or falsy one. *)
Theorem analyzeBulkDeleteSafety_defaults_to_review
    (env : Env) (o : Origin) (emails : list BulkEmail) (w : World) :
  exists r w',
    exec env o (analyzeBulkDeleteSafety emails) w = (Resolved r, w') /\
    match env_generate env (w_calls w) (bulk_prompt emails) with
    | Rejected _ => r = review_all emails
    | Resolved text =>
        match json_match (trim text) with
        | None => r = review_all emails
        | Some matched =>
            match env_JSON_parse env matched with
            | Rejected _ => r = review_all emails
            | Resolved parsed =>
                match js_get parsed "safeToDelete", js_get parsed "shouldReview" with
                | Resolved safe, Resolved review =>
                    r = {| safeToDelete := js_or safe (JArray []);
                           shouldReview := js_or review (JArray []) |}
                | _, _ => parsed = JNull /\ r = review_all emails
                end
            end
        end
    end.
Proof.
  unfold analyzeBulkDeleteSafety.
  rewrite exec_bind, exec_try_catch, exec_bind, exec_perform.
  cbn [handle event_of]. set (w1 := record_event _ _ _).
  change (w_calls w1) with (w_calls w).
  destruct (env_generate env (w_calls w) (bulk_prompt emails)) as [text|e]; simpl;
    [|by do 2 eexists].
  destruct (json_match (trim text)) as [matched|]; simpl; [|by do 2 eexists].
  destruct (env_JSON_parse env matched) as [parsed|e]; simpl; [|by do 2 eexists].
  destruct parsed; simpl; by do 2 eexists.
Qed.

Lemma imap_ext_map {A B C} (f : nat -> A -> C) (g : A -> B) (h : nat -> B -> C)
    (l l' : list A) :
  (forall i x, f i x = h i (g x)) -> map g l = map g l' -> imap f l = imap f l'.
Proof.
  intros Hf. revert f h Hf l'. induction l as [|x l IH]; intros f h Hf [|y l'] E;
    try done.
  injection E as Ex E. cbn [imap]. rewrite !Hf, Ex. f_equal.
  apply (IH _ (fun i => h (S i))); [|done]. intros i z. apply Hf.
Qed.

(** X18.  The safety analysis does not depend on the bodies of the e-mails,
    nor on their snippets beyond the first 100 code units: two lists that
    agree on ids, subjects, senders and the first 100 code units of the
    snippets are analysed in the same way. *)
Theorem analyzeBulkDeleteSafety_ignores_bodies (emails emails' : list BulkEmail) :
  map (fun e => (be_id e, be_subject e, be_from e, String.substring 0 100 (be_snippet e)))
      emails
  = map (fun e => (be_id e, be_subject e, be_from e, String.substring 0 100 (be_snippet e)))
        emails' ->
  analyzeBulkDeleteSafety emails = analyzeBulkDeleteSafety emails'.
Proof.
  intros E. unfold analyzeBulkDeleteSafety.
  assert (bulk_prompt emails = bulk_prompt emails') as ->.
  { unfold bulk_prompt. f_equal. f_equal. f_equal.
    apply (imap_ext_map _ _
             (fun idx t => Number_toString (idx + 1) +:+ ". [ID: " +:+ t.1.1.1
                           +:+ "] From: " +:+ t.1.2 +:+ " | Subject: " +:+ t.1.1.2
                           +:+ " | Snippet: " +:+ t.2) _ _ ltac:(done) E). }
  assert (review_all emails = review_all emails') as ->; [|done].
  unfold review_all. f_equal. f_equal.
  apply (f_equal (map (fun t => JObject [("id", JString t.1.1.1);
           ("reason", JString "Unable to analyze - please review manually")]))) in E.
  by rewrite !map_map in E.
Qed.

Lemma analyzeBulkDeleteSafety_ignores_bodies_witness :
  analyzeBulkDeleteSafety (sample_bulk "Your tracking number is 1Z999AA10123456784")
  = analyzeBulkDeleteSafety (sample_bulk "").
Proof. apply analyzeBulkDeleteSafety_ignores_bodies. reflexivity. Defined.

Lemma substring_idem (n : nat) (s : string) :
  String.substring 0 n (String.substring 0 n s) = String.substring 0 n s.
Proof.
  revert s. induction n as [|n IH]; intros [|c s]; simpl; try done. by rewrite IH.
Qed.

Lemma substring_length_le (n : nat) (s : string) :
  String.length (String.substring 0 n s) <= n.
Proof.
  revert s. induction n as [|n IH]; intros [|c s]; simpl; try lia.
  specialize (IH s). lia.
Qed.

(** X15.  [summarizeEmail] never throws: it gives the trimmed response, or
    'Unable to generate summary' when the call fails; only the first 2000 code
    units of the body reach the model, and the prompt is at most 2150 code
    units longer than the subject. *)
Theorem summarizeEmail_reads_2000_units
    (env : Env) (o : Origin) (body subject : string) (w : World) :
  (exists summary w',
     exec env o (summarizeEmail body subject) w = (Resolved summary, w')
     /\ match env_generate env (w_calls w) (summary_prompt body subject) with
        | Resolved text => summary = trim text
        | Rejected _ => summary = "Unable to generate summary"
        end)
  /\ summarizeEmail body subject = summarizeEmail (String.substring 0 2000 body) subject
  /\ String.length (summary_prompt body subject) <= 2150 + String.length subject.
Proof.
  split; [|split].
  - unfold summarizeEmail. rewrite exec_try_catch, exec_bind, exec_perform.
    cbn [handle event_of]. set (w1 := record_event _ _ _).
    change (w_calls w1) with (w_calls w).
    destruct (env_generate env (w_calls w) _); simpl; by do 2 eexists.
  - unfold summarizeEmail, summary_prompt. by rewrite substring_idem.
  - unfold summary_prompt. rewrite !length_app_s.
    pose proof (substring_length_le 2000 body). simpl. lia.
Qed.

(** X19.  [generateSenderSummary] never throws: it gives the trimmed response,
    or 'Regular sender' when the call fails; and only the first five e-mails
    are looked at. *)
Theorem generateSenderSummary_reads_five
    (env : Env) (o : Origin) (senderEmail : string) (recentEmails : list SenderEmail)
    (w : World) :
  (exists summary w',
     exec env o (generateSenderSummary senderEmail recentEmails) w
       = (Resolved summary, w')
     /\ match env_generate env (w_calls w) (sender_prompt senderEmail recentEmails) with
        | Resolved text => summary = trim text
        | Rejected _ => summary = "Regular sender"
        end)
  /\ generateSenderSummary senderEmail recentEmails
     = generateSenderSummary senderEmail (take 5 recentEmails).
Proof.
  split.
  - unfold generateSenderSummary. rewrite exec_try_catch, exec_bind, exec_perform.
    cbn [handle event_of]. set (w1 := record_event _ _ _).
    change (w_calls w1) with (w_calls w).
    destruct (env_generate env (w_calls w) _); simpl; by do 2 eexists.
  - unfold generateSenderSummary, sender_prompt. by rewrite take_take.
Qed.

(** ** [parseInt] on decimal numerals *)

Ltac read_digit :=
  match goal with
  | |- context [digit_value ?c] =>
      let v := eval vm_compute in (digit_value c) in
      change (digit_value c) with v; cbv beta iota
  end;
  match goal with
  | |- context [(?k <? 10)%Z] =>
      let v := eval vm_compute in (k <? 10)%Z in
      change (k <? 10)%Z with v; cbv beta iota
  end.

Lemma parse_digits_cons (c : ascii) (s : string) (acc : option Z) :
  parse_digits 10 (String c s) acc
  = match digit_value c with
    | Some d =>
        if (d <? 10)%Z then parse_digits 10 s (Some (default 0%Z acc * 10 + d)%Z)
        else acc
    | None => acc
    end.
Proof. reflexivity. Qed.

Lemma parse_digits_uint (d : Decimal.uint) :
  forall acc : nat,
  parse_digits 10 (NilEmpty.string_of_uint d) (Some (Z.of_nat acc))
  = Some (Z.of_nat (Nat.of_uint_acc d acc)).
Proof.
  induction d as [|d IH|d IH|d IH|d IH|d IH|d IH|d IH|d IH|d IH|d IH]; intros acc;
    [done|..];
    cbn [NilEmpty.string_of_uint Nat.of_uint_acc];
    rewrite Nat.tail_mul_spec, parse_digits_cons; read_digit;
    (etransitivity; [|apply IH]); cbn [default]; do 2 f_equal; unfold id; lia.
Qed.

Lemma to_uint_nonnil (n : nat) : Nat.to_uint n <> Decimal.Nil.
Proof.
  pose proof (Unsigned.to_of (Nat.to_uint n)) as H. rewrite Unsigned.of_to in H.
  rewrite H. apply unorm_nonnil.
Qed.

Lemma parseInt_decimal (n : nat) : parseInt (Number_toString n) = Some (Z.of_nat n).
Proof.
  unfold Number_toString. pose proof (Unsigned.of_to n) as Hn.
  pose proof (to_uint_nonnil n) as Hnil.
  unfold Nat.of_uint in Hn. rewrite <- Hn at 2. clear Hn.
  destruct (Nat.to_uint n) as [|d|d|d|d|d|d|d|d|d|d]; [done|..];
    cbn [NilEmpty.string_of_uint Nat.of_uint_acc]; rewrite Nat.tail_mul_spec;
    unfold parseInt.
  1: destruct d as [|d|d|d|d|d|d|d|d|d|d]; cbn [NilEmpty.string_of_uint].
  all: cbn [trim_start];
       repeat match goal with
       | |- context [is_white_space ?c] =>
           let v := eval vm_compute in (is_white_space c) in
           change (is_white_space c) with v
       end; cbv beta iota zeta.
  all: rewrite parse_digits_cons; read_digit; cbn [default].
  all: match goal with
       | |- match parse_digits 10 ?s (Some ?z) with _ => _ end
            = Some (Z.of_nat (Nat.of_uint_acc ?d ?acc)) =>
           replace z with (Z.of_nat acc) by lia;
           change s with (NilEmpty.string_of_uint d);
           rewrite parse_digits_uint; f_equal; lia
       end.
Qed.

(** X16.  A response that is the decimal numeral of a natural number [n],
    blanks around it aside, gives the score [min(100, n)]: [parseInt] reads a
    numeral back as its number. *)
Theorem calculatePriorityScore_reads_the_numeral
    (env : Env) (o : Origin) (email : EmailInput) (text : string) (n : nat) (w : World) :
  env_generate env (w_calls w) (priority_prompt email) = Resolved text ->
  trim text = Number_toString n ->
  fst (exec env o (calculatePriorityScore email) w)
  = Resolved (Z.min 100 (Z.of_nat n)).
Proof.
  intros Hg Ht. unfold calculatePriorityScore.
  rewrite exec_try_catch, exec_bind, exec_perform. cbn [handle event_of].
  set (w1 := record_event _ _ _). change (w_calls w1) with (w_calls w).
  rewrite Hg. cbn -[parseInt trim Z.min Z.max]. rewrite Ht, parseInt_decimal.
  cbn -[Z.min Z.max]. f_equal. lia.
Qed.

Lemma calculatePriorityScore_reads_the_numeral_witness :
  fst (exec (answering_env " 187 ") Main
         (calculatePriorityScore (email_input (sample_message "m1" "Welcome")))
         empty_world)
  = Resolved 100%Z.
Proof.
  apply (calculatePriorityScore_reads_the_numeral (answering_env " 187 ") Main
           (email_input (sample_message "m1" "Welcome")) " 187 " 187 empty_world);
    reflexivity.
Defined.

(** ** More about [retryWithBackoff] *)

Section RetryAny.
Context (env : Env) (o : Origin) {T : Type} (fn : Prog T).
Context (maxRetries : nat) (base : Q).

Lemma retry_from_rejects (remaining : nat) :
  forall attempt w e w',
  attempt + remaining = maxRetries -> 1 <= remaining ->
  exec env o (retry_from fn maxRetries base remaining attempt) w = (Rejected e, w') ->
  exists w1 w2, exec env o fn w1 = (Rejected e, w2).
Proof.
  induction remaining as [|remaining IH]; intros attempt w e w' Hsum Hpos; [lia|].
  cbn [retry_from]. rewrite exec_try_catch.
  destruct (exec env o fn w) as [[r|error] w1] eqn:Efn; [done|].
  destruct (negb (is429 error) || Nat.eqb attempt (maxRetries - 1)) eqn:Hstop.
  - intros [= <- <-]. by exists w, w1.
  - rewrite exec_bind, exec_perform. cbn [handle event_of].
    rewrite exec_bind, exec_perform. cbn [handle event_of].
    apply orb_false_iff in Hstop as [_ Hlast]. apply Nat.eqb_neq in Hlast.
    apply IH; lia.
Qed.

End RetryAny.

(** X20.  An error that comes out of [retryWithBackoff] is, with at least one
    attempt allowed, an error that the operation itself threw on some attempt;
    with none allowed it is 'Max retries exceeded', thrown before any call and
    with nothing changed. *)
Theorem retryWithBackoff_rethrows
    (env : Env) (o : Origin) {T : Type} (fn : Prog T) (maxRetries : nat) (base : Q)
    (w w' : World) (e : JsError) :
  exec env o (retryWithBackoff fn maxRetries base) w = (Rejected e, w') ->
  (maxRetries = 0 /\ e = max_retries_exceeded /\ w' = w)
  \/ (1 <= maxRetries /\ exists w1 w2, exec env o fn w1 = (Rejected e, w2)).
Proof.
  unfold retryWithBackoff. destruct maxRetries as [|m].
  - cbn. intros [= <- <-]. by left.
  - intros H. right. split; [lia|].
    eapply (retry_from_rejects env o fn (S m) base (S m) 0); [lia|lia|exact H].
Qed.

Lemma retryWithBackoff_rethrows_witness :
  exists w1 w2,
    exec (sample_env (always_rejects server_error) (Resolved [])) Main
      (perform (AnalyzeEmailComplete (email_input (sample_message "m1" "Q3")) [])) w1
    = (Rejected server_error, w2).
Proof.
  destruct (retryWithBackoff_rethrows
              (sample_env (always_rejects server_error) (Resolved [])) Main
              (perform (AnalyzeEmailComplete (email_input (sample_message "m1" "Q3")) []))
              3 1000%Q empty_world
              (snd (exec (sample_env (always_rejects server_error) (Resolved [])) Main
                      (retryWithBackoff
                         (perform (AnalyzeEmailComplete
                                     (email_input (sample_message "m1" "Q3")) []))
                         3 1000%Q) empty_world))
              server_error) as [[H _]|[_ H]]; [reflexivity|discriminate H|exact H].
Defined.

(** ** More about a run *)

Lemma is_archive_event_of {X} (op : Op X) :
  is_archive_event (Main, event_of op) = is_archive op.
Proof. by destruct op. Qed.

Lemma respects_no_archive (env : Env) (tr0 : list (Origin * Event)) :
  respects env (fun _ X op => is_archive op = false)
    (fun w => List.filter is_archive_event (w_log w) = tr0).
Proof.
  intros o X op w Hop Hw. rewrite handle_log, List.filter_app, Hw. cbn [List.filter].
  change (is_archive_event (o, event_of op)) with (is_archive_event (Main, event_of op)).
  by rewrite is_archive_event_of, Hop, app_nil_r.
Qed.

Lemma run_pol_main_no_archive (userId : string) (today : Z) (X : Type) (op : Op X) :
  run_pol userId today Main X op -> is_archive op = false.
Proof. intros [H|[H|[H|H]]]; by destruct op. Qed.

Lemma processItem_no_archive (userId : string) (categories : list Category)
    (item : FetchedItem) :
  Within (fun X op => is_archive op = false) (fun _ => True)
         (processItem false userId categories item).
Proof.
  unfold processItem. apply Within_try_catch.
  - eapply Within_bind with (post := fun _ => True).
    { apply Within_retry_from; [done|done|]. by apply Within_perform. }
    intros analysis _.
    eapply Within_bind with (post := fun _ => True); [by apply Within_perform|].
    intros unsubscribeLink _.
    eapply Within_bind with (post := fun _ => True); [by apply Within_perform|].
    intros [existing|] _; [done|].
    eapply Within_bind with (post := fun _ => True); [by apply Within_perform|].
    intros _ _.
    eapply Within_bind with (post := fun _ => True); [by apply Within_perform|].
    intros _ _. done.
  - intros e. unfold catch_block.
    eapply Within_bind with (post := fun _ => True); [by apply Within_perform|done].
Qed.

(** X21.  Unless [AUTO_ARCHIVE_EMAILS] is exactly 'true', a run archives
    nothing, however it ends. *)
Theorem nothing_archived_unless_enabled
    (env : Env) (run : Run) (request : Request) (w : World) :
  auto_archive run = false ->
  List.filter is_archive_event (w_log (snd (POST env run request w)))
  = List.filter is_archive_event (w_log w).
Proof.
  intros Hoff.
  apply (POST_respects env run request w (fun _ X op => is_archive op = false)
           (fun w' => List.filter is_archive_event (w_log w')
                      = List.filter is_archive_event (w_log w))).
  - apply respects_no_archive.
  - intros userId X op _. apply run_pol_main_no_archive.
  - intros userId categories a item _ _. rewrite Hoff. apply processItem_no_archive.
  - done.
  - done.
Qed.

Lemma nothing_archived_unless_enabled_witness :
  List.filter is_archive_event
    (w_log (snd (POST (sample_env (fun _ _ => Resolved sample_analysis)
                         (Resolved sample_inbox))
                   sample_run sample_request sample_world)))
  = List.filter is_archive_event (w_log sample_world).
Proof. apply nothing_archived_unless_enabled. reflexivity. Defined.

Lemma respects_analyses_new (env : Env) (rows : list EmailRow) (userId : string)
    (today : Z) (n : nat) :
  respects env (new_run_pol rows userId today)
    (fun w => analyses_new rows (drop n (w_log w)) /\ n <= length (w_log w)).
Proof.
  intros o X op w Hop [Hw Hn]. rewrite handle_log. split; [|rewrite length_app; lia].
  rewrite drop_app_le by done. intros o' email Hin.
  apply in_app_or in Hin as [Hin|[Hin|[]]]; [by apply Hw|].
  injection Hin as <- Hev. destruct o as [|a].
  - exfalso. destruct Hop as [H|[H|[H|H]]]; by destruct op.
  - destruct Hop as (gmailMsg & Hpol & Hnew). exists a, gmailMsg.
    split; [done|]. split; [|done]. destruct op; try done.
    simpl in Hev, Hpol. congruence.
Qed.


(** ** A failing archive *)

Section Archive.
Context (env : Env) (archive : string -> Outcome unit).

Lemma handle_with_archive (o : Origin) {X} (op : Op X) (w : World) :
  is_archive op = false ->
  handle (with_archive env archive) o op w = handle env o op w.
Proof. by destruct op. Qed.

Lemma handle_archive_world (o : Origin) {X} (op : Op X) (w : World) :
  is_archive op = true ->
  snd (handle (with_archive env archive) o op w) = snd (handle env o op w).
Proof. by destruct op. Qed.

Lemma exec_blind (o : Origin) {A} (p : Prog A) :
  forall w, archive_blind p ->
  exec (with_archive env archive) o p w = exec env o p w.
Proof.
  induction p as [a|e|X op k IH]; intros w Hp; [done|done|].
  destruct Hp as [Hsame Hk]. cbn [exec].
  destruct (is_archive op) eqn:Ha.
  - pose proof (handle_archive_world o op w Ha) as Hw.
    destruct (handle (with_archive env archive) o op w) as [r' w1'].
    destruct (handle env o op w) as [r w1]. cbn [snd] in Hw. subst w1'.
    rewrite (Hsame eq_refl r' r). by apply IH.
  - rewrite handle_with_archive by done.
    destruct (handle env o op w) as [r w1]. by apply IH.
Qed.

Lemma step_blind {A} (j : Job A) (w : World) :
  archive_blind (snd j) ->
  step (with_archive env archive) j w = step env j w
  /\ archive_blind (snd (fst (step env j w))).
Proof.
  destruct j as [a p]. destruct p as [x|e|X op k]; [done|done|].
  intros [Hsame Hk]. unfold step. cbn [fst snd].
  destruct (is_archive op) eqn:Ha.
  - pose proof (handle_archive_world (Task a) op w Ha) as Hw.
    destruct (handle (with_archive env archive) (Task a) op w) as [r' w1'].
    destruct (handle env (Task a) op w) as [r w1]. cbn [fst snd] in *. subst w1'.
    rewrite (Hsame eq_refl r' r). split; [done|apply Hk].
  - rewrite handle_with_archive by done.
    destruct (handle env (Task a) op w) as [r w1]. split; [done|apply Hk].
Qed.

Lemma step_nth_blind {A} (n : nat) (pool : list (Job A)) :
  forall w, Forall (fun j => archive_blind (snd j)) pool ->
  step_nth (with_archive env archive) n pool w = step_nth env n pool w
  /\ Forall (fun j => archive_blind (snd j)) (fst (step_nth env n pool w)).
Proof.
  revert n. induction pool as [|j pool IH]; intros n w Hpool; [done|].
  apply Forall_cons in Hpool as [Hj Hpool]. cbn [step_nth]. destruct n as [|n].
  - destruct (step_blind j w Hj) as [-> Hj'].
    destruct (step env j w) as [j' w']. split; [done|]. by constructor.
  - destruct (IH n w Hpool) as [-> Hpool'].
    destruct (step_nth env n pool w) as [pool' w']. split; [done|]. by constructor.
Qed.

Lemma run_schedule_blind {A} (sched : list nat) :
  forall (pool : list (Job A)) w, Forall (fun j => archive_blind (snd j)) pool ->
  run_schedule (with_archive env archive) sched pool w = run_schedule env sched pool w
  /\ Forall (fun j => archive_blind (snd j)) (fst (run_schedule env sched pool w)).
Proof.
  induction sched as [|c sched IH]; intros pool w Hpool; [done|]. cbn [run_schedule].
  destruct (step_nth_blind c pool w Hpool) as [-> Hpool'].
  destruct (step_nth env c pool w) as [pool' w']. by apply IH.
Qed.

Lemma settle_all_blind {A} (pool : list (Job A)) :
  forall w, Forall (fun j => archive_blind (snd j)) pool ->
  settle_all (with_archive env archive) pool w = settle_all env pool w.
Proof.
  induction pool as [|j pool IH]; intros w Hpool; [done|].
  apply Forall_cons in Hpool as [Hj Hpool]. cbn [settle_all].
  rewrite exec_blind by done. destruct (exec env _ _ w) as [r w'].
  by rewrite IH.
Qed.

Lemma promiseAll_blind {A} (sched : list nat) (pool : list (Job A)) (w : World) :
  Forall (fun j => archive_blind (snd j)) pool ->
  promiseAll (with_archive env archive) sched pool w = promiseAll env sched pool w.
Proof.
  intros Hpool. unfold promiseAll, settle_pool.
  destruct (run_schedule_blind sched pool w Hpool) as [-> Hpool'].
  destruct (run_schedule env sched pool w) as [pool' w']. by rewrite settle_all_blind.
Qed.

End Archive.

Lemma archive_blind_bind {A B} (p : Prog A) (f : A -> Prog B) :
  archive_blind p -> (forall a, archive_blind (f a)) -> archive_blind (bind p f).
Proof.
  intros Hp Hf. induction p as [a|e|X op k IH]; [apply Hf|done|].
  destruct Hp as [Hsame Hk]. split.
  - intros Ha r r'. cbn beta. by rewrite (Hsame Ha r r').
  - intros r. by apply IH.
Qed.

Lemma archive_blind_try_catch {A} (p : Prog A) (h : JsError -> Prog A) :
  archive_blind p -> (forall e, archive_blind (h e)) -> archive_blind (try_catch p h).
Proof.
  intros Hp Hh. induction p as [a|e|X op k IH]; [done|apply Hh|].
  destruct Hp as [Hsame Hk]. split.
  - intros Ha r r'. cbn beta. by rewrite (Hsame Ha r r').
  - intros r. by apply IH.
Qed.

Lemma Within_blind {A} (pol : forall X, Op X -> Prop) (post : A -> Prop) (p : Prog A) :
  (forall X (op : Op X), pol X op -> is_archive op = false) ->
  Within pol post p -> archive_blind p.
Proof.
  intros Hpol. induction p as [a|e|X op k IH]; [done|done|].
  intros [Hop Hk]. split; [|by intros r; apply IH].
  intros Ha. apply Hpol in Hop. congruence.
Qed.

Lemma archive_swallowed (op : Op unit) :
  archive_blind (try_catch (perform op) (fun _ => Ret tt)).
Proof. split; [|by intros [x|e]]. by intros _ [[]|e] [[]|e']. Qed.

Lemma perform_blind {X} (op : Op X) : is_archive op = false -> archive_blind (perform op).
Proof. intros Ha. split; [congruence|]. by intros [x|e]. Qed.

Lemma retry_from_blind {T} (fn : Prog T) (maxRetries : nat) (base : Q)
    (remaining : nat) :
  archive_blind fn ->
  forall attempt, archive_blind (retry_from fn maxRetries base remaining attempt).
Proof.
  intros Hfn. induction remaining as [|remaining IH]; intros attempt; [done|].
  cbn [retry_from]. apply archive_blind_try_catch; [done|]. intros e.
  destruct (negb (is429 e) || Nat.eqb attempt (maxRetries - 1)); [done|].
  apply archive_blind_bind; [by apply perform_blind|]. intros random.
  apply archive_blind_bind; [by apply perform_blind|]. intros _. apply IH.
Qed.

Lemma processItem_blind (autoArchive : bool) (userId : string)
    (categories : list Category) (item : FetchedItem) :
  archive_blind (processItem autoArchive userId categories item).
Proof.
  unfold processItem. apply archive_blind_try_catch.
  - apply archive_blind_bind.
    { apply retry_from_blind. by apply perform_blind. }
    intros analysis. apply archive_blind_bind; [by apply perform_blind|].
    intros unsubscribeLink. apply archive_blind_bind; [by apply perform_blind|].
    intros [existing|]; [done|].
    apply archive_blind_bind; [by apply perform_blind|]. intros _.
    apply archive_blind_bind; [by apply perform_blind|]. intros _.
    apply archive_blind_bind; [|done].
    destruct autoArchive; [|done].
    destruct (item_gmailClient item); apply archive_swallowed.
  - intros e. unfold catch_block. apply archive_blind_bind; [by apply perform_blind|done].
Qed.

Section ArchiveRun.
Context (env : Env) (archive : string -> Outcome unit).

Lemma batch_loop_blind (autoArchive : bool) (userId : string)
    (categories : list Category) (newEmails : list FetchedItem) (fuel : nat) :
  forall scheds i imported skipped w,
  batch_loop (with_archive env archive) autoArchive userId categories newEmails
             scheds fuel i imported skipped w
  = batch_loop env autoArchive userId categories newEmails
               scheds fuel i imported skipped w.
Proof.
  induction fuel as [|fuel IH]; intros scheds i imported skipped w; [done|].
  cbn [batch_loop]. destruct (Nat.ltb i (length newEmails)); [|done].
  rewrite handle_with_archive by done. rewrite promiseAll_blind.
  - destruct (promiseAll env _ _ _) as [[results|e] w']; [|done].
    rewrite handle_with_archive by done. apply IH.
  - unfold batch_jobs. apply Forall_forall. intros j Hj.
    apply elem_of_lookup_imap in Hj as (k & item & -> & _). apply processItem_blind.
Qed.

(** X23.  How archiving fares changes nothing: with any other answers of the
    archive calls, the response, the tables and the trace of a run are the
    same. *)
Theorem archiving_changes_nothing (run : Run) (request : Request) (w : World) :
  POST (with_archive env archive) run request w = POST env run request w.
Proof.
  unfold POST, POST_try, and_then.
  destruct (req_session request) as [[userId|]|e]; [|done|done].
  destruct (req_json request) as [json|e]; [|done].
  rewrite exec_blind
    by (eapply Within_blind; [|apply Within_fetch_all]; intros X op H; by destruct op).
  destruct (exec env Main (fetch_all _ _) w) as [[[categories allGmailMessages]|e] w1];
    [|done].
  rewrite exec_blind
    by (eapply Within_blind; [|apply Within_filter_new]; intros X op H; by destruct op).
  destruct (exec env Main (filter_new _ _ _) _) as [[[skipped0 newEmails]|e] w2]; [|done].
  rewrite batch_loop_blind.
  destruct (batch_loop env _ _ _ _ _ _ _ _ _ _) as [[[imported skipped]|e] w3]; [|done].
  rewrite exec_blind
    by (eapply Within_blind; [|apply Within_finish_run]; intros X op H; by destruct op).
  done.
Qed.

End ArchiveRun.

(** ** The time spent waiting *)

Lemma backoff_S (base : Q) (n : nat) : (backoff base (S n) == 2 * backoff base n)%Q.
Proof.
  unfold backoff. rewrite Nat2Z.inj_succ, Z.pow_succ_r by lia.
  rewrite inject_Z_mult. change (inject_Z 2) with 2%Q. ring.
Qed.

Lemma backoff_nonneg (base : Q) (n : nat) : (0 <= base)%Q -> (0 <= backoff base n)%Q.
Proof.
  intros Hb. unfold backoff. apply Qmult_le_0_compat; [done|].
  change 0%Q with (inject_Z 0). rewrite <- Zle_Qle. lia.
Qed.

Lemma backoff_mono (base : Q) (n k : nat) :
  (0 <= base)%Q -> (backoff base n <= backoff base (n + k))%Q.
Proof.
  intros Hb. induction k as [|k IH]; [rewrite Nat.add_0_r; lra|].
  rewrite Nat.add_succ_r, backoff_S. pose proof (backoff_nonneg base (n + k) Hb). lra.
Qed.

Lemma inject_nat_S (n : nat) :
  (inject_Z (Z.of_nat (S n)) == inject_Z (Z.of_nat n) + 1)%Q.
Proof. rewrite Nat2Z.inj_succ. unfold Z.succ. by rewrite inject_Z_plus. Qed.

Lemma sleeps_in_app (tr1 tr2 : list (Origin * Event)) :
  sleeps_in (tr1 ++ tr2) = sleeps_in tr1 ++ sleeps_in tr2.
Proof.
  induction tr1 as [|[o ev] tr1 IH]; [done|]. simpl. destruct ev; by rewrite ?IH.
Qed.

Section Waiting.
Context (env : Env) (o : Origin) (email : EmailInput) (categories : list Category).
Context (maxRetries : nat) (base : Q).
Hypothesis Hrandom : forall n, (0 <= env_random env n < 1)%Q.
Hypothesis Hbase : (0 <= base)%Q.

Lemma retry_from_waits (remaining : nat) :
  forall attempt w,
  attempt + remaining = maxRetries ->
  exists tr,
    w_log (snd (exec env o
       (retry_from (perform (AnalyzeEmailComplete email categories))
          maxRetries base remaining attempt) w))
    = w_log w ++ tr
    /\ length (sleeps_in tr) <= remaining - 1
    /\ (total (sleeps_in tr)
        <= backoff base (attempt + (remaining - 1)) - backoff base attempt
           + 1000 * inject_Z (Z.of_nat (remaining - 1)))%Q.
Proof.
  induction remaining as [|remaining IH]; intros attempt w Hsum.
  - exists []. cbn. rewrite app_nil_r, Nat.add_0_r. split; [done|]. split; [done|].
    unfold total; cbn [fold_right sleeps_in]. change (inject_Z (Z.of_nat 0)) with 0%Q. lra.
  - assert (0 <= backoff base (attempt + (S remaining - 1)) - backoff base attempt
                 + 1000 * inject_Z (Z.of_nat (S remaining - 1)))%Q as Hbound.
    { pose proof (backoff_mono base attempt (S remaining - 1) Hbase).
      assert (0 <= inject_Z (Z.of_nat (S remaining - 1)))%Q
        by (change 0%Q with (inject_Z 0); rewrite <- Zle_Qle; lia).
      lra. }
    rewrite retry_from_S. cbv zeta.
    destruct (env_analyze env (w_calls w) email categories) as [r|error].
    { exists [(o, EvAnalyze email)]. split; [done|]. split; [cbn; lia|done]. }
    destruct (negb (is429 error) || Nat.eqb attempt (maxRetries - 1)) eqn:Hstop.
    { exists [(o, EvAnalyze email)]. split; [done|]. split; [cbn; lia|done]. }
    apply orb_false_iff in Hstop as [_ Hlast]. apply Nat.eqb_neq in Hlast.
    destruct remaining as [|remaining]; [lia|].
    match goal with |- context [exec env o _ ?w2] =>
      destruct (IH (S attempt) w2) as (tr & Htr & Hlen & Htot); [lia|] end.
    eexists ([(o, EvAnalyze email); (o, EvRandom); (o, EvSleep _)] ++ tr).
    split; [rewrite Htr; simpl; by rewrite <- !app_assoc|].
    rewrite sleeps_in_app. cbn [sleeps_in app length]. split; [simpl in *; lia|].
    unfold total in *. cbn [fold_right].
    replace (S (S remaining) - 1) with (S remaining) by lia.
    replace (S remaining - 1) with remaining in Htot by lia.
    replace (S attempt + remaining) with (attempt + S remaining) in Htot by lia.
    pose proof (backoff_S base attempt) as HS.
    pose proof (inject_nat_S remaining) as HN.
    pose proof (Hrandom (w_draws w)) as [_ Hr].
    rewrite HN. lra.
Qed.


End Waiting.

